(** * Discrete-elasticity plugin (plugin/elasticity): embedding and properties

    Shallow embedding of [elasticity.h] and [solid.cc].

    - [mjtNum] (a C double) is the carrier of a structure [NumOps] of
      arithmetic operations, over which all functions are defined.  Its
      instance [Float64] is IEEE binary64, the arithmetic the code runs
      on.  The theorems are proved for the instances that are ordered
      fields ([NumType]): they say which exact expression the code
      evaluates, rounding, infinities and NaN being abstracted away; the
      rationals [Qc] are the executable instance of this kind.  Where
      binary64 arithmetic contradicts a property of exact arithmetic, it
      is shown by evaluation on [Float64].
    - [std::vector<mjtNum>] and the raw [mjtNum*] buffers of the host are
      lists, read with [l !!! i] and written with [<[i:=x]> l]; an access
      outside the buffer is undefined behaviour in the source and is
      totalised here (a read gives zero, a write does nothing).
    - counts, addresses and indices held in C [int]s are non-negative in a
      compiled model and are modelled by [nat]; [body_plugin] and the
      plugin instance, where -1 occurs, are in [Z].
    - local arrays that the source leaves uninitialised ([gradient],
      [elongation], [metric], [k]) start zero-filled; every slot of them is
      written before it is read.
    - [for] loops are folds over [seq]; [mju_error], which does not return,
      is the [Err] outcome of a small error monad. *)

From Stdlib Require Import ZArith QArith Qcanon Ring Field Lia String DecimalString.
From Stdlib Require Import PrimFloat.
From stdpp Require Import base list.

Set Default Proof Using "Type".
Local Open Scope nat_scope.

(** ** Numbers *)

(** The operations on [mjtNum] that the code uses. *)
Record NumOps : Type := MkNumOps {
  num :> Type;
  nzero : num;
  nunit : num;
  nadd : num -> num -> num;
  nmul : num -> num -> num;
  nsub : num -> num -> num;
  nopp : num -> num;
  ndiv : num -> num -> num;
  ninv : num -> num;
  nltb : num -> num -> bool
}.

Arguments nzero {_}.
Arguments nunit {_}.
Arguments nadd {_} _ _.
Arguments nmul {_} _ _.
Arguments nsub {_} _ _.
Arguments nopp {_} _.
Arguments ndiv {_} _ _.
Arguments ninv {_} _.
Arguments nltb {_} _ _.

Declare Scope num_scope.
Delimit Scope num_scope with F.
Infix "+" := nadd : num_scope.
Infix "*" := nmul : num_scope.
Infix "-" := nsub : num_scope.
Infix "/" := ndiv : num_scope.
Notation "- x" := (nopp x) : num_scope.

Global Instance num_inhabited (F : NumOps) : Inhabited (num F) :=
  populate nzero.

(** Exact arithmetic: the operations form an ordered field. *)
Record NumType : Type := MkNumType {
  nops :> NumOps;
  nfield : field_theory (@nzero nops) nunit nadd nmul nsub nopp ndiv ninv
                        (@eq nops);
  nltb_irrefl : forall x : nops, nltb x x = false
}.

(** The rationals in canonical form: the executable instance. *)
Definition Qc_ltb (x y : Qc) : bool :=
  Z.ltb (Qnum x * QDen y) (Qnum y * QDen x).

Definition QcOps : NumOps :=
  MkNumOps Qc 0%Qc 1%Qc Qcplus Qcmult Qcminus Qcopp Qcdiv Qcinv Qc_ltb.

Definition QcNum : NumType :=
  MkNumType QcOps Qcft (fun x => Z.ltb_irrefl (Qnum x * QDen x)).

Definition z2q (z : Z) : QcNum := Q2Qc (inject_Z z).

(** IEEE binary64, rounding to nearest: the arithmetic of [mjtNum]. *)
Definition Float64 : NumOps :=
  MkNumOps float 0%float 1%float PrimFloat.add PrimFloat.mul PrimFloat.sub
           PrimFloat.opp PrimFloat.div (PrimFloat.div 1%float) PrimFloat.ltb.

(** the double of an integer (exact below 2^53) *)
Fixpoint pos2f (p : positive) : Float64 :=
  match p with
  | xH => 1%float
  | xO p' => PrimFloat.mul 2%float (pos2f p')
  | xI p' => PrimFloat.add (PrimFloat.mul 2%float (pos2f p')) 1%float
  end.

Definition z2f (z : Z) : Float64 :=
  match z with
  | Z0 => 0%float
  | Zpos p => pos2f p
  | Zneg p => PrimFloat.opp (pos2f p)
  end.

(** ** Control: loops and fatal errors *)

(** [for (int i = lo; i < hi; i++) s = body i s] *)
Definition for_range {St : Type} (lo hi : nat) (body : nat -> St -> St) (s : St) : St :=
  fold_left (fun acc i => body i acc) (seq lo (hi - lo)) s.

(** [for (int i = 0; i < n; i++) s = body i s] *)
Definition for_loop {St : Type} (n : nat) (body : nat -> St -> St) (s : St) : St :=
  for_range 0 n body s.

(** Outcome of code that may call [mju_error] ([Err]), or whose behaviour
    the language leaves undefined ([Undef]: an uninitialised member is read
    or index -1 is used). *)
Inductive result (A : Type) : Type :=
| Ok (a : A)
| Err (msg : string)
| Undef.
Arguments Ok {A} a.
Arguments Err {A} msg.
Arguments Undef {A}.

Definition bind {A B : Type} (r : result A) (k : A -> result B) : result B :=
  match r with
  | Ok a => k a
  | Err msg => Err msg
  | Undef => Undef
  end.

(** A loop whose body may fail: the first failure ends the loop. *)
Definition for_loop_r {St : Type} (n : nat) (body : nat -> St -> result St) (s : St)
  : result St :=
  fold_left (fun acc i => bind acc (body i)) (seq 0 n) (Ok s).

(** [sumn n f] is f 0 + ... + f (n-1). *)
Fixpoint sumn {F : NumOps} (n : nat) (f : nat -> F) : F :=
  match n with
  | O => nzero
  | S n' => (sumn n' f + f n')%F
  end.

(** A read-only pointer [base + off] into a host buffer. *)
Definition ptr {A : Type} `{!Inhabited A} (base : list A) (off : nat) : nat -> A :=
  fun i => base !!! (off + i).

(** [memcpy(dst, src, n * sizeof(elt))]: the first [n] slots of [dst] are
    replaced by [src[0..n)]. *)
Definition memcpy {A : Type} (dst : list A) (src : nat -> A) (n : nat) : list A :=
  map src (seq 0 n) ++ drop n dst.

(** A function writing through the pointer [base + off]. *)
Definition at_offset {A : Type} (off : nat) (f : list A -> result (list A))
    (base : list A) : result (list A) :=
  bind (f (drop off base)) (fun l => Ok (take off base ++ l)).

(** ** Stencils (elasticity.h) *)

(** The two instantiations of [template <typename T>]; only the static
    members of the structs are used by the functions below. *)
Inductive Stencil : Type := Stencil2D | Stencil3D.

Definition kNumEdges (T : Stencil) : nat :=
  match T with Stencil2D => 3 | Stencil3D => 6 end.

Definition kNumVerts (T : Stencil) : nat :=
  match T with Stencil2D => 3 | Stencil3D => 4 end.

Definition edge_table (T : Stencil) : list (list nat) :=
  match T with
  | Stencil2D => [[1; 2]; [2; 0]; [0; 1]]
  | Stencil3D => [[0; 1]; [1; 2]; [2; 0]; [2; 3]; [0; 3]; [1; 3]]
  end.

(** [T::edge[e][i]] *)
Definition edge (T : Stencil) (e i : nat) : nat := (edge_table T !!! e) !!! i.

(** Flat offset of [gradient[e][s][d]] in [mjtNum gradient[E][2][3]]. *)
Definition gidx (e s d : nat) : nat := (e * 2 + s) * 3 + d.

(** ** The host's model and data (the fields of [mjModel] and [mjData]
    that the plugin reads or writes) *)

Record mjModel {F : NumOps} : Type := MkModel {
  plugin_config : Z -> string -> string;   (* mj_getPluginConfig *)
  opt_timestep : F;
  nbody : nat;
  body_plugin : list Z;
  body_simple : list nat;
  body_dofnum : list nat;
  body_dofadr : list nat;
  nflex : nat;
  flex_dim : list nat;
  flex_vertadr : list nat;
  flex_vertnum : list nat;
  flex_vertbodyid : list nat;
  flex_xvert0 : list F;
  flex_elemadr : list nat;
  flex_elemnum : list nat;
  flex_elemdataadr : list nat;
  flex_elem : list nat;
  flex_elemedgeadr : list nat;
  flex_elemedge : list nat;
  flex_edgeadr : list nat;
  flex_edgenum : list nat;
  flexedge_length0 : list F;
  flex_stiffness : list F
}.
Arguments mjModel F : clear implicits.

Record mjData {F : NumOps} : Type := MkData {
  flexedge_length : list F;
  flexvert_xpos : list F;
  qfrc_passive : list F
}.
Arguments mjData F : clear implicits.

Definition vec3 (F : NumOps) : Type := (F * F * F)%type.

Definition read3 {F : NumOps} (p : nat -> F) : vec3 F := (p 0, p 1, p 2).

(** ** PairHash (elasticity.h) *)

(** the hash of a pair: the exclusive or of the hashes of its components.
    [std::hash] is a parameter; the exclusive or of two [size_t] values is
    a [size_t], so nothing wraps around. *)
Section Hashing.
Context {T1 T2 : Type}.
Variable hash1 : T1 -> N.
Variable hash2 : T2 -> N.

Definition PairHash (pair : T1 * T2) : N :=
  N.lxor (hash1 (fst pair)) (hash2 (snd pair)).
End Hashing.

Section Elasticity.
Context {F : NumOps}.

(** *** GradSquaredLengths *)
Definition GradSquaredLengths (T : Stencil) (gradient : list F)
    (x : nat -> F) (v : nat -> nat) : list F :=
  for_loop (kNumEdges T) (fun e =>
    for_loop 3 (fun d gradient =>
      let gradient :=
        <[gidx e 0 d := (x (3 * v (edge T e 0) + d)%nat -
                         x (3 * v (edge T e 1) + d)%nat)%F]> gradient in
      <[gidx e 1 d := (x (3 * v (edge T e 1) + d)%nat -
                       x (3 * v (edge T e 0) + d)%nat)%F]> gradient))
    gradient.

(** *** ComputeForce *)

(** extract elongation of edges belonging to this element *)
Definition gather_elongation (T : Stencil) (elongationglob : list F)
    (edgeelem : nat -> nat) (t : nat) : list F :=
  for_loop (kNumEdges T) (fun e elongation =>
    let idx := edgeelem (t * kNumEdges T + e) in
    <[e := elongationglob !!! idx]> elongation)
    (replicate (kNumEdges T) nzero).

(** unpack triangular representation; the loop state is the local array
    [metric] together with the counter [id] *)
Definition unpack_metric (T : Stencil) (k : nat -> F) (t : nat)
  : list F * nat :=
  for_loop (kNumEdges T) (fun ed1 =>
    for_range ed1 (kNumEdges T) (fun ed2 st =>
      let metric := <[kNumEdges T * ed1 + ed2 := k (21 * t + snd st)]> (fst st) in
      let metric := <[kNumEdges T * ed2 + ed1 := k (21 * t + snd st)]> metric in
      (metric, S (snd st))))
    (replicate (kNumEdges T * kNumEdges T) nzero, 0).

(** compute local force *)
Definition local_force (T : Stencil) (elongation gradient metric : list F)
  : list F :=
  for_loop (kNumEdges T) (fun ed1 =>
    for_loop (kNumEdges T) (fun ed2 =>
      for_loop 2 (fun i =>
        for_loop 3 (fun x force =>
          <[3 * edge T ed2 i + x :=
              (force !!! (3 * edge T ed2 i + x)%nat -
               elongation !!! ed1 * gradient !!! (gidx ed2 i x) *
               metric !!! (kNumEdges T * ed1 + ed2)%nat)%F]> force))))
    (replicate (kNumVerts T * 3) nzero).

(** vertices of element [t] of flex [flex]: [elem + (dim+1) * t] *)
Definition elem_verts (m : mjModel F) (flex t : nat) : nat -> nat :=
  ptr (flex_elem m)
      (flex_elemdataadr m !!! flex + (flex_dim m !!! flex + 1) * t).

(** the local array [force] of element [t] *)
Definition element_force (T : Stencil) (elongationglob : list F)
    (m : mjModel F) (flex : nat) (xpos : nat -> F) (t : nat) : list F :=
  let k := ptr (flex_stiffness m) (21 * flex_elemadr m !!! flex) in
  let edgeelem := ptr (flex_elemedge m) (flex_elemedgeadr m !!! flex) in
  let v := elem_verts m flex t in
  let gradient :=
    GradSquaredLengths T (replicate (kNumEdges T * 2 * 3) nzero) xpos v in
  let elongation := gather_elongation T elongationglob edgeelem t in
  let metric := fst (unpack_metric T k t) in
  local_force T elongation gradient metric.

(** insert into global force *)
Definition insert_force (T : Stencil) (v : nat -> nat) (force : list F)
    (qfrc_passive : list F) : list F :=
  for_loop (kNumVerts T) (fun i =>
    for_loop 3 (fun x qfrc_passive =>
      <[3 * v i + x :=
          (qfrc_passive !!! (3 * v i + x)%nat + force !!! (3 * i + x)%nat)%F]>
        qfrc_passive))
    qfrc_passive.

Definition ComputeForce (T : Stencil) (qfrc_passive : list F)
    (elongationglob : list F) (m : mjModel F) (flex : nat)
    (xpos : nat -> F) : list F :=
  for_loop (flex_elemnum m !!! flex) (fun t qfrc_passive =>
    insert_force T (elem_verts m flex t)
      (element_force T elongationglob m flex xpos t) qfrc_passive)
    (replicate (length qfrc_passive) nzero).

(** *** AddFlexForce *)
Section Scatter.
(** [mj_applyFT(m, d, force, torque, point, body, qfrc_target)] of the
    host engine; a null [torque] is [None].  The result is the updated
    [qfrc_target]. *)
Variable mj_applyFT :
  mjModel F -> mjData F -> vec3 F -> option (vec3 F) -> vec3 F -> nat ->
  list F -> list F.

(** the body of the loop over the flex vertices *)
Definition AddFlexForce_vertex (force : list F) (m : mjModel F)
    (d : mjData F) (xpos : nat -> F) (f0 : nat) (v : nat)
    (qfrc : list F) : list F :=
  let bodyid := ptr (flex_vertbodyid m) (flex_vertadr m !!! f0) in
  let bid := bodyid v in
  if negb (Nat.eqb (body_simple m !!! bid) 2) then
    mj_applyFT m d (read3 (ptr force (3 * v))) None
               (read3 (fun i => xpos (3 * v + i))) bid qfrc
  else
    let body_dofnum := body_dofnum m !!! bid in
    let body_dofadr := body_dofadr m !!! bid in
    for_loop body_dofnum (fun x qfrc =>
      <[body_dofadr + x :=
          (qfrc !!! (body_dofadr + x)%nat + force !!! (3 * v + x)%nat)%F]>
        qfrc) qfrc.

Definition AddFlexForce (qfrc : list F) (force : list F) (m : mjModel F)
    (d : mjData F) (xpos : nat -> F) (f0 : nat) : list F :=
  for_loop (flex_vertnum m !!! f0)
           (AddFlexForce_vertex force m d xpos f0) qfrc.
End Scatter.

(** *** MetricTensor *)

(** compute first invariant i.e. trace(strain) *)
Definition MetricTensor_trE (T : Stencil) (basis : list (list F)) : list F :=
  for_loop (kNumEdges T) (fun e =>
    for_loop 3 (fun i trE =>
      <[e := (trE !!! e + (basis !!! e) !!! (4 * i)%nat)%F]> trE))
    (replicate (kNumEdges T) nzero).

(** compute second invariant i.e. trace(strain^2) *)
Definition MetricTensor_trEE (T : Stencil) (basis : list (list F)) : list F :=
  for_loop (kNumEdges T) (fun ed1 =>
    for_loop (kNumEdges T) (fun ed2 =>
      for_loop 3 (fun i =>
        for_loop 3 (fun j trEE =>
          <[kNumEdges T * ed1 + ed2 :=
              (trEE !!! (kNumEdges T * ed1 + ed2)%nat +
               (basis !!! ed1) !!! (3 * i + j)%nat *
               (basis !!! ed2) !!! (3 * j + i)%nat)%F]> trEE))))
    (replicate (kNumEdges T * kNumEdges T) nzero).

(** assembly of strain metric tensor *)
Definition MetricTensor_k (T : Stencil) (mu la : F) (trE trEE : list F)
  : list F :=
  for_loop (kNumEdges T) (fun ed1 =>
    for_loop (kNumEdges T) (fun ed2 k =>
      <[kNumEdges T * ed1 + ed2 :=
          (mu * trEE !!! (kNumEdges T * ed1 + ed2)%nat +
           la * trE !!! ed2 * trE !!! ed1)%F]> k))
    (replicate (kNumEdges T * kNumEdges T) nzero).

(** copy to triangular representation; the loop state is the output
    buffer together with the counter [id] *)
Definition MetricTensor_copy (T : Stencil) (metric : list F) (idx : nat)
    (k : list F) : list F * nat :=
  for_loop (kNumEdges T) (fun ed1 =>
    for_range ed1 (kNumEdges T) (fun ed2 st =>
      (<[21 * idx + snd st := k !!! (kNumEdges T * ed1 + ed2)]> (fst st),
       S (snd st))))
    (metric, 0).

Definition MetricTensor (T : Stencil) (metric : list F) (idx : nat)
    (mu la : F) (basis : list (list F)) : result (list F) :=
  let trE := MetricTensor_trE T basis in
  let trEE := MetricTensor_trEE T basis in
  let k := MetricTensor_k T mu la trE trEE in
  let st := MetricTensor_copy T metric idx k in
  if negb (Nat.eqb (snd st) (kNumEdges T * (kNumEdges T + 1) / 2)) then
    Err "incorrect stiffness matrix size"
  else Ok (fst st).
End Elasticity.

(** ** The solid plugin (solid.cc) *)

(** local tetrahedron numbering *)
Definition face : list (list nat) := [[2; 1; 0]; [0; 1; 3]; [1; 2; 3]; [2; 0; 3]].
Definition e2f : list (list nat) :=
  [[2; 3]; [1; 3]; [2; 1]; [1; 0]; [0; 2]; [0; 3]].

(** The members of [class Solid].  [f0] is an index here: the constructor
    below ends in [Undef] when the source would leave it at -1. *)
Record Solid {F : NumOps} : Type := MkSolid {
  i0 : nat;
  f0 : nat;
  nv : nat;
  ne : nat;
  damping : F;
  elongation : list F;
  force : list F;
  prev : list F
}.
Arguments Solid F : clear implicits.

Section SolidPlugin.
Context {F : NumOps}.

(** an integer literal converted to [mjtNum] *)
Fixpoint nconst (n : nat) : F :=
  match n with
  | O => nzero
  | S n' => (nconst n' + nunit)%F
  end.

(** Modelled from the spec: the host's 3-vector utilities [mju_sub3],
    [mju_cross] and [mju_dot3] (difference, cross product and dot product
    of 3-vectors), which are declared in mujoco.h. *)
Definition mju_sub3 (a b : nat -> F) : list F :=
  [(a 0 - b 0)%F; (a 1 - b 1)%F; (a 2 - b 2)%F].

Definition mju_cross (a b : nat -> F) : list F :=
  [(a 1 * b 2 - a 2 * b 1)%F; (a 2 * b 0 - a 0 * b 2)%F;
   (a 0 * b 1 - a 1 * b 0)%F].

Definition mju_dot3 (a b : nat -> F) : F :=
  (a 0 * b 0 + a 1 * b 1 + a 2 * b 2)%F.

(** [x + 3*i] *)
Definition vert (x : nat -> F) (i : nat) : nat -> F := fun d => x (3 * i + d).

(** volume of a tetrahedron *)
Definition ComputeVolume (x : nat -> F) (v : nat -> nat) : F :=
  let edge1 := mju_sub3 (vert x (v 1)) (vert x (v 0)) in
  let edge2 := mju_sub3 (vert x (v 2)) (vert x (v 0)) in
  let edge3 := mju_sub3 (vert x (v 3)) (vert x (v 0)) in
  let normal := mju_cross (ptr edge2 0) (ptr edge1 0) in
  (mju_dot3 (ptr normal 0) (ptr edge3 0) / nconst 6)%F.

(** compute local basis *)
Definition ComputeBasis (basis : list F) (x : nat -> F) (v : nat -> nat)
    (faceL faceR : list nat) (volume : F) : list F :=
  let edgesL :=
    mju_sub3 (vert x (v (faceL !!! 1))) (vert x (v (faceL !!! 0))) ++
    mju_sub3 (vert x (v (faceL !!! 2))) (vert x (v (faceL !!! 0))) in
  let edgesR :=
    mju_sub3 (vert x (v (faceR !!! 1))) (vert x (v (faceR !!! 0))) ++
    mju_sub3 (vert x (v (faceR !!! 2))) (vert x (v (faceR !!! 0))) in
  let normalL := mju_cross (ptr edgesL 0) (ptr edgesL 3) in
  let normalR := mju_cross (ptr edgesR 0) (ptr edgesR 3) in
  for_loop 3 (fun i =>
    for_loop 3 (fun j basis =>
      <[3 * i + j :=
          ((normalL !!! i * normalR !!! j + normalR !!! i * normalL !!! j) /
           (nconst (36 * 2) * volume * volume))%F]> basis))
    basis.

(** count plugin bodies: the state is [(nv, i0)], [i0] being
    uninitialised ([None]) until the first plugin body is met *)
Definition count_bodies (m : mjModel F) (instance : Z) : nat * option nat :=
  for_range 1 (nbody m) (fun i st =>
    if Z.eqb (body_plugin m !!! i) instance then
      (S (fst st), if Nat.eqb (fst st) 0 then Some i else snd st)
    else st)
    (0, None).

(** count flexes: the state is [(f0, nv)], [f0 = None] standing for -1 *)
Definition find_flex (m : mjModel F) (i0 : option nat) (nv : nat)
  : result (option nat * nat) :=
  for_loop_r (nflex m) (fun i =>
    for_loop_r (flex_vertnum m !!! i) (fun j st =>
      match i0 with
      | None => Undef
      | Some i0 =>
          if Nat.eqb (flex_vertbodyid m !!! (flex_vertadr m !!! i + j)) i0 then
            if negb (Nat.eqb (flex_dim m !!! i) 3) then
              Err "mujoco.elasticity.solid requires a 3D mesh"
            else Ok (Some i, flex_vertnum m !!! i)
          else Ok st
      end))
    (None, nv).

(** the body of the loop over all tetrahedra; the state is the buffer
    [m->flex_stiffness], which the constructor writes *)
Definition init_element (m : mjModel F) (instance : Z) (f0 : nat)
    (nu E : F) (t : nat) (stiffness : list F) : result (list F) :=
  let body_pos := ptr (flex_xvert0 m) (3 * flex_vertadr m !!! f0) in
  let v := elem_verts m f0 t in
  bind (for_loop_r (kNumVerts Stencil3D) (fun i (_ : unit) =>
          let bi := flex_vertbodyid m !!! (flex_vertadr m !!! f0 + v i) in
          if negb (Nat.eqb bi 0) && negb (Z.eqb (body_plugin m !!! bi) instance)
          then Err "Body %d does not have plugin instance %d"
          else Ok tt) tt) (fun _ =>
  let volume := ComputeVolume body_pos v in
  let basis :=
    for_loop (kNumEdges Stencil3D) (fun e basis =>
      <[e := ComputeBasis (basis !!! e) body_pos v
               (face !!! ((e2f !!! e) !!! 0)) (face !!! ((e2f !!! e) !!! 1))
               volume]> basis)
      (replicate (kNumEdges Stencil3D) (replicate 9 nzero)) in
  let mu := (E / (nconst 2 * (nunit + nu)) * volume)%F in
  let la :=
    (E * nu / ((nunit + nu) * (nunit - nconst 2 * nu)) * volume)%F in
  at_offset (21 * flex_elemadr m !!! f0)
    (fun metric => MetricTensor Stencil3D metric t mu la basis) stiffness).

(** plugin constructor: the new instance and the stiffness buffer of the
    model *)
Definition Solid_new (m : mjModel F) (d : mjData F) (instance : Z)
    (nu E damp : F) : result (Solid F * list F) :=
  let '(nv, i0) := count_bodies m instance in
  bind (find_flex m i0 nv) (fun st =>
  match i0, fst st with
  | Some i0, Some f0 =>
      let nv := snd st in
      bind (for_loop_r (flex_elemnum m !!! f0)
              (init_element m instance f0 nu E) (flex_stiffness m))
           (fun stiffness =>
      let ne := flex_edgenum m !!! f0 in
      Ok (MkSolid F i0 f0 nv ne damp (replicate ne nzero)
                  (replicate (3 * nv) nzero) [],
          stiffness))
  | _, _ => Undef
  end).

Section Factory.
(** [CheckAttr] is declared in elasticity.h ("reads numeric
    attributes") and defined elsewhere; [strtod] is the C library's. *)
Variable CheckAttr : string -> mjModel F -> Z -> bool.
Variable strtod : string -> F.

(** factory function; [None] is [std::nullopt] *)
Definition Create (m : mjModel F) (d : mjData F) (instance : Z)
  : result (option (Solid F * list F)) :=
  if CheckAttr "face" m instance &&
     CheckAttr "edge" m instance &&
     CheckAttr "poisson" m instance &&
     CheckAttr "young" m instance then
    let nu := strtod (plugin_config m instance "poisson") in
    let E := strtod (plugin_config m instance "young") in
    let damp := strtod (plugin_config m instance "damping") in
    bind (Solid_new m d instance nu E damp) (fun s => Ok (Some s))
  else
    (* mju_warning("Invalid parameter specification in solid plugin") *)
    Ok None.
End Factory.

Section Step.
Variable mj_applyFT :
  mjModel F -> mjData F -> vec3 F -> option (vec3 F) -> vec3 F -> nat ->
  list F -> list F.

(** [Solid::Compute]: the instance and the host data after the step *)
Definition Compute (s : Solid F) (m : mjModel F) (d : mjData F)
  : Solid F * mjData F :=
  let kD := (damping s / opt_timestep m)%F in
  (* read edge lengths *)
  let deformed := ptr (flexedge_length d) (flex_edgeadr m !!! f0 s) in
  let ref := ptr (flexedge_length0 m) (flex_edgeadr m !!! f0 s) in
  let prev1 :=
    match prev s with
    | [] => memcpy (replicate (ne s) nzero) ref (ne s)
    | _ :: _ => prev s
    end in
  let elongation1 :=
    for_loop (ne s) (fun idx elongation =>
      <[idx := (deformed idx * deformed idx - ref idx * ref idx +
                (deformed idx * deformed idx -
                 prev1 !!! idx * prev1 !!! idx) * kD)%F]> elongation)
      (elongation s) in
  (* compute gradient of elastic energy and insert into passive force *)
  let flex_vertadr := flex_vertadr m !!! f0 s in
  let xpos := ptr (flexvert_xpos d) (3 * flex_vertadr) in
  let qfrc := qfrc_passive d in
  let force1 := ComputeForce Stencil3D (force s) elongation1 m (f0 s) xpos in
  (* insert into passive force *)
  let qfrc1 := AddFlexForce mj_applyFT qfrc force1 m d xpos (f0 s) in
  (* update stored lengths *)
  let prev2 :=
    if nltb nzero kD then memcpy prev1 deformed (ne s) else prev1 in
  (MkSolid F (i0 s) (f0 s) (nv s) (ne s) (damping s) elongation1 force1
           prev2,
   MkData F (flexedge_length d) (flexvert_xpos d) qfrc1).
End Step.
End SolidPlugin.

(** * Vocabulary of the statements *)

(** ** The packed triangular layout

    [tri_row n r] is the number of entries of the rows before row [r] in
    the upper triangle of an [n] x [n] matrix, and [tri_pos n i j] the
    row-major position of entry (i,j), i <= j. *)
Fixpoint tri_row (n r : nat) : nat :=
  match r with
  | O => 0
  | S r' => tri_row n r' + (n - r')
  end.

Definition tri_pos (n i j : nat) : nat := tri_row n i + (j - i).

(** The index function of the packed layout, as the specification writes
    it: [idx(i,j) = i*(2E-i+1)/2 + (j-i)]. *)
Definition packed_index (E i j : nat) : nat := i * (2 * E - i + 1) / 2 + (j - i).

(** ** What a loop does to a buffer

    [writes R f]: [f] keeps the length of the buffer, every slot [p] with
    [R p v] holds [v] afterwards, and every other slot is unchanged. *)
Definition writes {A : Type} `{!Inhabited A} (R : nat -> A -> Prop)
    (f : list A -> list A) : Prop :=
  forall s,
    length (f s) = length s /\
    forall p, p < length s ->
      (forall v, R p v -> f s !!! p = v) /\
      (f s !!! p = s !!! p \/ exists v, R p v).

(** [accum delta f]: [f] keeps the length of the buffer and adds
    [delta p] to every slot [p]. *)
Definition accum {F : NumOps} (delta : nat -> F) (f : list F -> list F) : Prop :=
  forall s,
    length (f s) = length s /\
    forall p, p < length s -> f s !!! p = (s !!! p + delta p)%F.

(** the only failure of a fallible computation is [Err msg] *)
Definition fails_only_with {St : Type} (msg : string) (r : result St) : Prop :=
  (exists a, r = Ok a) \/ r = Err msg.

(** the factory produced an instance *)
Definition creates_instance {A : Type} (r : result (option A)) : Prop :=
  match r with
  | Ok (Some _) => True
  | _ => False
  end.

Section Vocabulary.
Context {F : NumOps}.

(** ** Tensors *)

(** trace of a 3x3 tensor stored row-major in 9 slots *)
Definition tensor_trace (B : list F) : F := sumn 3 (fun i => B !!! (4 * i)).

(** trace(B1 . B2): the sum over i, j of B1[i][j] * B2[j][i] *)
Definition tensor_contract (B1 B2 : list F) : F :=
  sumn 3 (fun i => sumn 3 (fun j =>
    (B1 !!! (3 * i + j)%nat * B2 !!! (3 * j + i)%nat)%F)).

(** trace(B1 . B2^t), the double contraction of the specification: the
    sum over i, j of B1[i][j] * B2[i][j] *)
Definition tensor_contract_t (B1 B2 : list F) : F :=
  sumn 3 (fun i => sumn 3 (fun j =>
    (B1 !!! (3 * i + j)%nat * B2 !!! (3 * i + j)%nat)%F)).

Definition tensor_symmetric (B : list F) : Prop :=
  forall i j, i < 3 -> j < 3 -> B !!! (3 * i + j) = B !!! (3 * j + i).

(** ** Elements *)

(** gradient of the squared length of edge [j] with respect to its
    endpoint on side [s]: the difference of the two endpoint positions,
    taken from side [s] *)
Definition edge_gradient (T : Stencil) (xpos : nat -> F) (v : nat -> nat)
    (j s x : nat) : F :=
  (xpos (3 * v (edge T j s) + x)%nat -
   xpos (3 * v (edge T j (1 - s)) + x)%nat)%F.

(** elongation of edge [i] of element [t] *)
Definition element_elongation (T : Stencil) (elongationglob : list F)
    (m : mjModel F) (flex t i : nat) : F :=
  elongationglob !!!
    ptr (flex_elemedge m) (flex_elemedgeadr m !!! flex) (t * kNumEdges T + i).

(** entry (i,j) of the metric tensor of element [t], looked up in the
    packed upper triangle *)
Definition element_metric (T : Stencil) (m : mjModel F) (flex t i j : nat) : F :=
  ptr (flex_stiffness m) (21 * flex_elemadr m !!! flex)
      (21 * t + packed_index (kNumEdges T) (Nat.min i j) (Nat.max i j)).

(** owning body of flex vertex [v] *)
Definition vertex_body (m : mjModel F) (f0 v : nat) : nat :=
  ptr (flex_vertbodyid m) (flex_vertadr m !!! f0) v.

(** ** The step *)

(** damping rate *)
Definition damping_rate (s : Solid F) (m : mjModel F) : F :=
  (damping s / opt_timestep m)%F.

(** current, reference and previous length of edge [idx] of the flex *)
Definition deformed_length (s : Solid F) (m : mjModel F) (d : mjData F)
    (idx : nat) : F :=
  flexedge_length d !!! (flex_edgeadr m !!! f0 s + idx).

Definition reference_length (s : Solid F) (m : mjModel F) (idx : nat) : F :=
  flexedge_length0 m !!! (flex_edgeadr m !!! f0 s + idx).

(** the previous-length buffer that the step works with: the stored one,
    or a copy of the reference lengths when nothing is stored yet *)
Definition previous_lengths (s : Solid F) (m : mjModel F) : list F :=
  match prev s with
  | [] => map (reference_length s m) (seq 0 (ne s))
  | _ :: _ => prev s
  end.

(** the instance with another previous-length buffer *)
Definition with_prev (s : Solid F) (p : list F) : Solid F :=
  MkSolid F (i0 s) (f0 s) (nv s) (ne s) (damping s) (elongation s)
          (force s) p.

(** what the constructor establishes and every step keeps: the scratch
    buffers have one slot per edge and three per vertex, and the history
    is empty or has one slot per edge *)
Definition Solid_wf (s : Solid F) : Prop :=
  length (elongation s) = ne s /\
  length (force s) = 3 * nv s /\
  (prev s = [] \/ length (prev s) = ne s).

(** ** The constructor *)

(** body of vertex [i] of element [t] of flex [f0] *)
Definition element_body (m : mjModel F) (f0 t i : nat) : nat :=
  flex_vertbodyid m !!! (flex_vertadr m !!! f0 + elem_verts m f0 t i).

(** rest volume, basis tensors and material parameters of element [t], as
    the constructor computes them *)
Definition element_volume (m : mjModel F) (f0 t : nat) : F :=
  ComputeVolume (ptr (flex_xvert0 m) (3 * flex_vertadr m !!! f0))
                (elem_verts m f0 t).

Definition element_basis (m : mjModel F) (f0 t : nat) : list (list F) :=
  for_loop (kNumEdges Stencil3D) (fun e basis =>
    <[e := ComputeBasis (basis !!! e)
             (ptr (flex_xvert0 m) (3 * flex_vertadr m !!! f0))
             (elem_verts m f0 t)
             (face !!! ((e2f !!! e) !!! 0)) (face !!! ((e2f !!! e) !!! 1))
             (element_volume m f0 t)]> basis)
    (replicate (kNumEdges Stencil3D) (replicate 9 nzero)).

Definition shear_modulus (nu E volume : F) : F :=
  (E / (nconst 2 * (nunit + nu)) * volume)%F.

Definition lame_parameter (nu E volume : F) : F :=
  (E * nu / ((nunit + nu) * (nunit - nconst 2 * nu)) * volume)%F.

(** the check of the bodies of the vertices of element [t] *)
Definition element_check (m : mjModel F) (instance : Z) (f0 t : nat)
  : result unit :=
  for_loop_r (kNumVerts Stencil3D) (fun i (_ : unit) =>
    if negb (Nat.eqb (element_body m f0 t i) 0) &&
       negb (Z.eqb (body_plugin m !!! element_body m f0 t i) instance)
    then Err "Body %d does not have plugin instance %d"
    else Ok tt) tt.

(** ** The factory *)

(** the four attribute checks of [Create] *)
Definition attributes_accepted (CheckAttr : string -> mjModel F -> Z -> bool)
    (m : mjModel F) (instance : Z) : bool :=
  CheckAttr "face"%string m instance && CheckAttr "edge"%string m instance &&
  CheckAttr "poisson"%string m instance && CheckAttr "young"%string m instance.
(** ** The scatter and the constructor *)

(** the component of the force of vertex [v] that lands in slot [p] of the
    generalized force on the fast path, zero when there is none *)
Definition fast_path_share (force : list F) (m : mjModel F) (f0 v p : nat)
  : F :=
  if (Nat.leb (body_dofadr m !!! vertex_body m f0 v) p &&
      Nat.ltb p (body_dofadr m !!! vertex_body m f0 v +
                 body_dofnum m !!! vertex_body m f0 v))%bool
  then force !!! (3 * v + (p - body_dofadr m !!! vertex_body m f0 v))
  else nzero.

(** the messages that a fallible computation may end with *)
Definition errors_among (P : string -> Prop) {A : Type} (r : result A) : Prop :=
  match r with
  | Err msg => P msg
  | _ => True
  end.

(** no vertex of flex [i] sits on body [b] *)
Definition no_vertex_on (m : mjModel F) (b i : nat) : Prop :=
  forall j, j < flex_vertnum m !!! i -> vertex_body m i j <> b.

(** the two messages of [mju_error] in the constructor *)
Definition fatal_message (msg : string) : Prop :=
  msg = "mujoco.elasticity.solid requires a 3D mesh"%string \/
  msg = "Body %d does not have plugin instance %d"%string.

(** the constructor finds no mesh: no body from 1 on carries the plugin
    instance ([i0] stays uninitialised), or no flex holds a vertex of the
    first such body ([f0] stays -1) *)
Definition mesh_missing (m : mjModel F) (instance : Z) : Prop :=
  snd (count_bodies m instance) = None \/
  exists b, snd (count_bodies m instance) = Some b /\
            forall i, i < nflex m -> no_vertex_on m b i.
End Vocabulary.

(** * A host on the rationals

    A host with one tetrahedron, vertex 0 at the origin and the others on
    the axes at distances 117, 44 and 240, so that the six edge lengths are
    integers (117, 125, 44, 244, 240, 267).  Each vertex is a body with
    three sliders; body 0 is the world. *)

Module Tet.
Local Open Scope Z_scope.

(** an instance of [strtod] on optionally signed decimal integers; like
    [strtod], it gives zero when the text holds no number *)
Definition strtod_int (s : string) : QcNum :=
  match NilZero.int_of_string s with
  | Some i => z2q (Z.of_int i)
  | None => z2q 0
  end.

(** an instance of [CheckAttr]: the text of the attribute reads in full
    as a number *)
Definition CheckAttr_int (name : string) (m : mjModel QcNum) (instance : Z)
  : bool :=
  match NilZero.int_of_string (plugin_config m instance name) with
  | Some _ => true
  | None => false
  end.

Definition config (young poisson damping : string) (instance : Z)
    (name : string) : string :=
  if Z.eqb instance 0 then
    if String.eqb name "young" then young
    else if String.eqb name "poisson" then poisson
    else if String.eqb name "damping" then damping
    else if String.eqb name "face" then "0"
    else if String.eqb name "edge" then "0"
    else ""
  else "".

Definition rest_positions : list Z :=
  [0; 0; 0;  0; 117; 0;  44; 0; 0;  0; 0; 240].

Definition rest_lengths : list Z := [117; 125; 44; 244; 240; 267].

Definition model (cfg : Z -> string -> string) (dim : nat)
    (xvert0 : list Z) (stiffness : list QcNum) : mjModel QcNum :=
  MkModel QcNum cfg (z2q 1)
    5 [-1; 0; 0; 0; 0] [0; 2; 2; 2; 2]%nat [0; 3; 3; 3; 3]%nat
    [0; 0; 3; 6; 9]%nat
    1 [dim] [0%nat] [4%nat] [1; 2; 3; 4]%nat (map z2q xvert0)
    [0%nat] [1%nat] [0%nat] [0; 1; 2; 3]%nat [0%nat] [0; 1; 2; 3; 4; 5]%nat
    [0%nat] [6%nat] (map z2q rest_lengths)
    stiffness.

(** Young's modulus 1000, Poisson's ratio 0, no damping *)
Definition m0 : mjModel QcNum :=
  model (config "1000" "0" "0") 3 rest_positions (replicate 21 (z2q 0)).

(** the body dilated by 2 *)
Definition d0 : mjData QcNum :=
  MkData QcNum (map z2q (map (Z.mul 2) rest_lengths))
         (map z2q (map (Z.mul 2) rest_positions))
         (replicate 12 (z2q 0)).

(** the body at rest *)
Definition d_rest : mjData QcNum :=
  MkData QcNum (map z2q rest_lengths) (map z2q rest_positions)
         (replicate 12 (z2q 0)).

(** the stiffness buffer after construction, and the model holding it *)
Definition stiffness : list QcNum :=
  match Solid_new m0 d0 0 (z2q 0) (z2q 1000) (z2q 0) with
  | Ok (_, st) => st
  | _ => []
  end.

Definition m1 : mjModel QcNum :=
  model (config "1000" "0" "0") 3 rest_positions stiffness.

(** the instance after construction *)
Definition s0 : Solid QcNum :=
  MkSolid QcNum 1 0 4 6 (z2q 0) (replicate 6 (z2q 0))
          (replicate 12 (z2q 0)) [].

(** the same instance with damping coefficient 1 *)
Definition s1 : Solid QcNum :=
  MkSolid QcNum 1 0 4 6 (z2q 1) (replicate 6 (z2q 0))
          (replicate 12 (z2q 0)) [].

(** a host in which the bodies met on the general path have no degree of
    freedom (pinned vertices): [mj_applyFT] leaves the target as it is *)
Definition pinned_applyFT (m : mjModel QcNum) (d : mjData QcNum)
    (f : vec3 QcNum) (t : option (vec3 QcNum)) (p : vec3 QcNum) (body : nat)
    (qfrc : list QcNum) : list QcNum := qfrc.

Definition xpos0 : nat -> QcNum := ptr (flexvert_xpos d0) 0.

Definition zero_force : list QcNum := replicate 12 (z2q 0).

(** the elongations d^2 - r^2 of the dilated body *)
Definition elongation0 : list QcNum :=
  map z2q [41067; 46875; 5808; 178608; 172800; 213867].

(** a body with a single slider holding one flex vertex *)
Definition m_slider : mjModel QcNum :=
  MkModel QcNum (fun _ _ => ""%string) (z2q 1)
    2 [-1; 0] [0; 2]%nat [0; 1]%nat [0; 0]%nat
    1 [3%nat] [0%nat] [1%nat] [1%nat] (map z2q [0; 0; 0])
    [0%nat] [0%nat] [0%nat] [] [0%nat] [] [0%nat] [0%nat] [] [].

(** the same body with its vertex pinned to the world body *)
Definition m_pinned : mjModel QcNum :=
  MkModel QcNum (fun _ _ => ""%string) (z2q 1)
    2 [-1; 0] [0; 2]%nat [0; 1]%nat [0; 0]%nat
    1 [3%nat] [0%nat] [1%nat] [0%nat] (map z2q [0; 0; 0])
    [0%nat] [0%nat] [0%nat] [] [0%nat] [] [0%nat] [0%nat] [] [].

Definition force123 : list QcNum := map z2q [1; 2; 3].
Definition qfrc000 : list QcNum := map z2q [0; 0; 0].

(** models that the construction contract excludes: damping -3; Young's
    modulus -1 and Poisson's ratio 2; all rest positions at the origin; a
    flex of dimension 2; and no Young's modulus at all *)
Definition m_bad_damping : mjModel QcNum :=
  model (config "1000" "0" "-3") 3 rest_positions (replicate 21 (z2q 0)).

Definition m_bad_material : mjModel QcNum :=
  model (config "-1" "2" "0") 3 rest_positions (replicate 21 (z2q 0)).

Definition m_flat : mjModel QcNum :=
  model (config "1000" "0" "0") 3 (replicate 12 0) (replicate 21 (z2q 0)).

Definition m_2d : mjModel QcNum :=
  model (config "1000" "0" "0") 2 rest_positions (replicate 21 (z2q 0)).

Definition m_missing : mjModel QcNum :=
  model (config "" "0" "0") 3 rest_positions (replicate 21 (z2q 0)).

(** a first basis tensor that is not symmetric *)
Definition skew_basis : list (list QcNum) :=
  [map z2q [0; 1; 0; 0; 0; 0; 0; 0; 0];
   replicate 9 (z2q 0); replicate 9 (z2q 0)].

(** three symmetric basis tensors *)
Definition sym_basis : list (list QcNum) :=
  [map z2q [1; 2; 3;  2; 4; 5;  3; 5; 6];
   map z2q [2; 0; 1;  0; 3; 0;  1; 0; 4];
   map z2q [0; 1; 0;  1; 0; 2;  0; 2; 1]].
End Tet.

(** * The same host on binary64

    The tetrahedron above with [mjtNum] as IEEE doubles; all its data are
    small integers, which doubles hold exactly. *)

Module Tet64.
Local Open Scope Z_scope.

Definition model (timestep : Z) (dim : nat) (xvert0 : list Z)
    (stiffness : list Float64) : mjModel Float64 :=
  MkModel Float64 (Tet.config "1000" "0" "0") (z2f timestep)
    5 [-1; 0; 0; 0; 0] [0; 2; 2; 2; 2]%nat [0; 3; 3; 3; 3]%nat
    [0; 0; 3; 6; 9]%nat
    1 [dim] [0%nat] [4%nat] [1; 2; 3; 4]%nat (map z2f xvert0)
    [0%nat] [1%nat] [0%nat] [0; 1; 2; 3]%nat [0%nat] [0; 1; 2; 3; 4; 5]%nat
    [0%nat] [6%nat] (map z2f Tet.rest_lengths)
    stiffness.

Definition m0 : mjModel Float64 :=
  model 1 3 Tet.rest_positions (replicate 21 (z2f 0)).

Definition d0 : mjData Float64 :=
  MkData Float64 (map z2f (map (Z.mul 2) Tet.rest_lengths))
         (map z2f (map (Z.mul 2) Tet.rest_positions))
         (replicate 12 (z2f 0)).

(** the stiffness buffer after construction (Young's modulus 1000,
    Poisson's ratio 0), and the model holding it *)
Definition stiffness : list Float64 :=
  match Solid_new m0 d0 0 (z2f 0) (z2f 1000) (z2f 0) with
  | Ok (_, st) => st
  | _ => []
  end.

Definition m1 : mjModel Float64 := model 1 3 Tet.rest_positions stiffness.

(** the same model with timestep 0 *)
Definition m_frozen : mjModel Float64 :=
  model 0 3 Tet.rest_positions stiffness.

(** the instance after construction, without damping *)
Definition s0 : Solid Float64 :=
  MkSolid Float64 1 0 4 6 (z2f 0) (replicate 6 (z2f 0))
          (replicate 12 (z2f 0)) [].

Definition pinned_applyFT (m : mjModel Float64) (d : mjData Float64)
    (f : vec3 Float64) (t : option (vec3 Float64)) (p : vec3 Float64)
    (body : nat) (qfrc : list Float64) : list Float64 := qfrc.

(** a deformed placement of the four vertices, and elongations of the six
    edges *)
Definition xpos1 : nat -> Float64 :=
  ptr (map z2f [1; 2; 3;  5; 120; 7;  50; 3; 1;  2; 9; 250]) 0.

Definition elongation1 : list Float64 := map z2f [1; 2; 3; 4; 5; 6].
End Tet64.

(** * Properties *)

(** ** Loop rules *)

Section Loops.
Context {St : Type}.
Implicit Types (body : nat -> St -> St) (s : St).

Lemma for_range_empty lo hi body s :
  hi <= lo -> for_range lo hi body s = s.
Proof.
  intros H. unfold for_range. replace (hi - lo) with 0 by lia. reflexivity.
Qed.

Lemma for_range_last lo hi body s :
  lo <= hi ->
  for_range lo (S hi) body s = body hi (for_range lo hi body s).
Proof.
  intros H. unfold for_range.
  replace (S hi - lo) with (S (hi - lo)) by lia.
  rewrite seq_S, fold_left_app. simpl.
  replace (lo + (hi - lo)) with hi by lia. reflexivity.
Qed.

Lemma for_loop_last n body s :
  for_loop (S n) body s = body n (for_loop n body s).
Proof. apply for_range_last. lia. Qed.

(** Invariant rule: [P i] holds before iteration [i]. *)
Lemma for_range_inv (P : nat -> St -> Prop) lo hi body s :
  lo <= hi ->
  P lo s ->
  (forall i acc, lo <= i < hi -> P i acc -> P (S i) (body i acc)) ->
  P hi (for_range lo hi body s).
Proof.
  intros Hle H0 Hstep. induction hi as [|hi IH].
  - assert (lo = 0) by lia. subst. exact H0.
  - destruct (Nat.eq_dec lo (S hi)) as [->|Hne].
    + rewrite for_range_empty by lia. exact H0.
    + rewrite for_range_last by lia. apply Hstep; [lia|].
      apply IH; [lia|]. intros i acc Hi. apply Hstep. lia.
Qed.

Lemma for_loop_inv (P : nat -> St -> Prop) n body s :
  P 0 s ->
  (forall i acc, i < n -> P i acc -> P (S i) (body i acc)) ->
  P n (for_loop n body s).
Proof.
  intros H0 Hstep. unfold for_loop.
  apply (for_range_inv P 0 n body s); [lia|exact H0|].
  intros i acc Hi. apply Hstep. lia.
Qed.

Lemma for_loop_ext n (b1 b2 : nat -> St -> St) s :
  (forall i acc, i < n -> b1 i acc = b2 i acc) ->
  for_loop n b1 s = for_loop n b2 s.
Proof.
  intros H. induction n as [|n IH]; [reflexivity|].
  rewrite !for_loop_last, IH by (intros; apply H; lia). apply H. lia.
Qed.
End Loops.

(** ** Loops with a running counter

    Both triangular loops ([unpack_metric], [MetricTensor_copy]) carry the
    counter [id]; at iteration [(ed1, ed2)] it is [tri_pos n ed1 ed2]. *)

Lemma tri_row_closed n r : r <= n -> 2 * tri_row n r + r * r = 2 * r * n + r.
Proof.
  induction r as [|r IH]; intros H; simpl; [lia|].
  specialize (IH ltac:(lia)). nia.
Qed.

Lemma tri_row_total n : tri_row n n = n * (n + 1) / 2.
Proof.
  pose proof (tri_row_closed n n ltac:(lia)) as H.
  apply Nat.div_unique_exact; nia.
Qed.

Lemma tri_pos_packed_index n i j : i <= n -> tri_pos n i j = packed_index n i j.
Proof.
  intros H. unfold tri_pos, packed_index. f_equal.
  pose proof (tri_row_closed n i H) as Hc.
  apply Nat.div_unique_exact; [lia|].
  remember (2 * n - i) as d eqn:Hd.
  assert (Hm : i * (d + i) = i * (2 * n)) by (f_equal; lia).
  lia.
Qed.

Lemma tri_row_mono n r r' : r <= r' -> tri_row n r <= tri_row n r'.
Proof. induction 1; simpl; lia. Qed.

Lemma tri_pos_lt_row n i j r :
  i < r -> i <= j < n -> tri_pos n i j < tri_row n r.
Proof.
  intros Hi Hj. unfold tri_pos.
  pose proof (tri_row_mono n (S i) r ltac:(lia)) as H. simpl in H. lia.
Qed.

Section CounterLoops.
Context {A : Type}.
Variable g : nat -> nat -> nat -> A -> A.
Variable n : nat.

Let step (ed1 ed2 : nat) (st : A * nat) : A * nat :=
  (g ed1 ed2 (snd st) (fst st), S (snd st)).

Lemma tri_inner_counter r c a :
  r <= c ->
  for_range r c (step r) (a, tri_row n r) =
  (for_range r c (fun ed2 => g r ed2 (tri_pos n r ed2)) a, tri_pos n r c).
Proof.
  intros Hrc. induction c as [|c IH].
  - assert (r = 0) by lia. subst. reflexivity.
  - destruct (Nat.eq_dec r (S c)) as [->|Hne].
    + rewrite !for_range_empty by lia. unfold tri_pos.
      f_equal. lia.
    + rewrite !for_range_last by lia. rewrite IH by lia.
      unfold step. simpl. f_equal. unfold tri_pos. lia.
Qed.

Lemma tri_loop_counter r a :
  r <= n ->
  for_loop r (fun ed1 => for_range ed1 n (step ed1)) (a, 0) =
  (for_loop r (fun ed1 =>
     for_range ed1 n (fun ed2 => g ed1 ed2 (tri_pos n ed1 ed2))) a,
   tri_row n r).
Proof.
  intros Hr. induction r as [|r IH]; [reflexivity|].
  rewrite !for_loop_last, IH by lia.
  rewrite tri_inner_counter by lia. reflexivity.
Qed.
End CounterLoops.

(** ** Buffers written by loops *)

Section Writes.
Context {A : Type} `{!Inhabited A}.
Implicit Types (R : nat -> A -> Prop) (f : list A -> list A).

Lemma writes_length R f s : writes R f -> length (f s) = length s.
Proof. intros H. apply H. Qed.

Lemma writes_read R f s p v :
  writes R f -> p < length s -> R p v -> f s !!! p = v.
Proof. intros H Hp Hr. destruct (H s) as [_ Hs]. apply (Hs p Hp). exact Hr. Qed.

Lemma writes_frame R f s p :
  writes R f -> (forall v, ~ R p v) -> f s !!! p = s !!! p.
Proof.
  intros H Hn. destruct (H s) as [Hlen Hs].
  destruct (Nat.lt_ge_cases p (length s)) as [Hp|Hp].
  - destruct (Hs p Hp) as [_ [Heq|[v Hv]]]; [exact Heq|].
    exfalso. exact (Hn v Hv).
  - rewrite !list_lookup_total_alt.
    rewrite (proj2 (lookup_ge_None _ _)) by lia.
    rewrite (proj2 (lookup_ge_None _ _)) by lia. reflexivity.
Qed.

Lemma writes_insert q (x : A) :
  writes (fun p v => p = q /\ v = x) (fun s => <[q := x]> s).
Proof.
  intros s. split; [apply length_insert|]. intros p Hp. split.
  - intros v [-> ->]. apply list_lookup_total_insert_eq. exact Hp.
  - destruct (Nat.eq_dec q p) as [->|Hne].
    + right. exists x. split; reflexivity.
    + left. apply list_lookup_total_insert_ne. exact Hne.
Qed.

Lemma writes_impl R R' f :
  writes R f -> (forall p v, R p v <-> R' p v) -> writes R' f.
Proof.
  intros H Hiff s. destruct (H s) as [Hlen Hs]. split; [exact Hlen|].
  intros p Hp. destruct (Hs p Hp) as [Hw Hf]. split.
  - intros v Hv. apply Hw, Hiff, Hv.
  - destruct Hf as [Heq|[v Hv]]; [left; exact Heq|].
    right. exists v. apply Hiff, Hv.
Qed.

Lemma writes_compose R1 R2 f g :
  writes R1 f -> writes R2 g ->
  (forall p v v', R1 p v -> R2 p v' -> v = v') ->
  writes (fun p v => R1 p v \/ R2 p v) (fun s => g (f s)).
Proof.
  intros Hf Hg Hc s.
  destruct (Hf s) as [Hlf Hsf]. destruct (Hg (f s)) as [Hlg Hsg].
  split; [congruence|]. intros p Hp.
  destruct (Hsf p Hp) as [Hwf Hff].
  destruct (Hsg p ltac:(lia)) as [Hwg Hfg]. split.
  - intros v [Hv|Hv]; [|apply Hwg, Hv].
    destruct Hfg as [Heq|[v' Hv']].
    + rewrite Heq. apply Hwf, Hv.
    + rewrite (Hwg v' Hv'). symmetry. eapply Hc; eassumption.
  - destruct Hfg as [Heq|[v' Hv']].
    + rewrite Heq. destruct Hff as [Heq'|[v Hv]]; [left; exact Heq'|].
      right. exists v. left. exact Hv.
    + right. exists v'. right. exact Hv'.
Qed.

Lemma writes_for_range lo hi (R : nat -> nat -> A -> Prop)
    (body : nat -> list A -> list A) :
  (forall i, lo <= i < hi -> writes (R i) (body i)) ->
  (forall i i' p v v',
      lo <= i < hi -> lo <= i' < hi -> R i p v -> R i' p v' -> v = v') ->
  writes (fun p v => exists i, lo <= i < hi /\ R i p v) (for_range lo hi body).
Proof.
  intros Hb Hc s.
  destruct (Nat.le_gt_cases lo hi) as [Hle|Hgt].
  2:{ rewrite for_range_empty by lia. split; [reflexivity|].
      intros p Hp. split; [|left; reflexivity].
      intros v (i & Hi & _). lia. }
  pose (P := fun (c : nat) (acc : list A) =>
    length acc = length s /\
    forall p, p < length s ->
      (forall v i, lo <= i < c -> R i p v -> acc !!! p = v) /\
      (acc !!! p = s !!! p \/ exists v i, lo <= i < c /\ R i p v)).
  assert (HP : forall c, lo <= c <= hi -> P c (for_range lo c body s)).
  { intros c Hcr. apply for_range_inv; [lia| |].
    - split; [reflexivity|]. intros p Hp. split; [|left; reflexivity].
      intros v i Hi. lia.
    - intros i acc Hi [Hlen Hacc].
      destruct (Hb i ltac:(lia) acc) as [Hlb Hsb]. split; [congruence|].
      intros p Hp. destruct (Hacc p Hp) as [Hw Hf].
      destruct (Hsb p ltac:(lia)) as [Hwb Hfb]. split.
      + intros v j Hj Hr. destruct (Nat.eq_dec j i) as [->|Hne].
        * apply Hwb, Hr.
        * destruct Hfb as [Heq|[v' Hv']].
          -- rewrite Heq. apply (Hw v j); [lia|exact Hr].
          -- rewrite (Hwb v' Hv'). symmetry.
             apply (Hc j i p v v'); [lia|lia|exact Hr|exact Hv'].
      + destruct Hfb as [Heq|[v' Hv']].
        * rewrite Heq. destruct Hf as [Heq'|(v & j & Hj & Hr)].
          -- left. exact Heq'.
          -- right. exists v, j. split; [lia|exact Hr].
        * right. exists v', i. split; [lia|exact Hv']. }
  destruct (HP hi ltac:(lia)) as [Hlen Hs]. split; [exact Hlen|].
  intros p Hp. destruct (Hs p Hp) as [Hw Hf]. split.
  - intros v (i & Hi & Hr). apply (Hw v i Hi Hr).
  - destruct Hf as [Heq|(v & i & Hi & Hr)]; [left; exact Heq|].
    right. exists v, i. split; assumption.
Qed.

Lemma writes_for_loop n (R : nat -> nat -> A -> Prop)
    (body : nat -> list A -> list A) :
  (forall i, i < n -> writes (R i) (body i)) ->
  (forall i i' p v v', i < n -> i' < n -> R i p v -> R i' p v' -> v = v') ->
  writes (fun p v => exists i, i < n /\ R i p v) (for_loop n body).
Proof.
  intros Hb Hc. unfold for_loop.
  eapply writes_impl.
  - apply (writes_for_range 0 n R body).
    + intros i Hi. apply Hb. lia.
    + intros i i' p v v' Hi Hi'. apply Hc; lia.
  - intros p v. split; intros (i & Hi & Hr); exists i; split; (lia || exact Hr).
Qed.
End Writes.

(** ** Finite sums and accumulating loops *)

Section Sums.
Context {F : NumType}.
Add Ring num_ring : (F_R (nfield F)).
Implicit Types (f g : nat -> F).

Lemma sumn_ext n f g : (forall i, i < n -> f i = g i) -> sumn n f = sumn n g.
Proof.
  intros H. induction n as [|n IH]; [reflexivity|]. simpl.
  rewrite IH by (intros; apply H; lia). rewrite H by lia. reflexivity.
Qed.

Lemma sumn_zero n : sumn n (fun _ => nzero : F) = nzero.
Proof. induction n as [|n IH]; [reflexivity|]. simpl. rewrite IH. ring. Qed.

Lemma sumn_add n f g :
  sumn n (fun i => (f i + g i)%F) = (sumn n f + sumn n g)%F.
Proof. induction n as [|n IH]; simpl; [ring|]. rewrite IH. ring. Qed.

Lemma sumn_opp n f : sumn n (fun i => (- f i)%F) = (- sumn n f)%F.
Proof. induction n as [|n IH]; simpl; [ring|]. rewrite IH. ring. Qed.

Lemma sumn_scale n c f : sumn n (fun i => (c * f i)%F) = (c * sumn n f)%F.
Proof. induction n as [|n IH]; simpl; [ring|]. rewrite IH. ring. Qed.

Lemma sumn_swap n m (h : nat -> nat -> F) :
  sumn n (fun i => sumn m (fun j => h i j)) =
  sumn m (fun j => sumn n (fun i => h i j)).
Proof.
  induction n as [|n IH]; simpl.
  - symmetry. apply sumn_zero.
  - rewrite IH. symmetry. apply sumn_add.
Qed.

(** a sum with a single non-zero term *)
Lemma sumn_single n k (a : F) :
  sumn n (fun w => if Nat.eqb w k then a else nzero) =
  if Nat.ltb k n then a else nzero.
Proof.
  induction n as [|n IH]; [reflexivity|]. simpl. rewrite IH.
  destruct (Nat.eqb_spec n k) as [->|Hne].
  - rewrite Nat.ltb_irrefl. rewrite (proj2 (Nat.ltb_lt k (S k))) by lia. ring.
  - destruct (Nat.ltb_spec k n) as [Hlt|Hge].
    + rewrite (proj2 (Nat.ltb_lt k (S n))) by lia. ring.
    + rewrite (proj2 (Nat.ltb_ge k (S n))) by lia. ring.
Qed.

Lemma accum_add q (x : F) :
  accum (fun p => if Nat.eqb p q then x else nzero)
        (fun s => <[q := (s !!! q + x)%F]> s).
Proof.
  intros s. split; [apply length_insert|]. intros p Hp.
  destruct (Nat.eqb_spec p q) as [->|Hne].
  - apply list_lookup_total_insert_eq. exact Hp.
  - rewrite list_lookup_total_insert_ne by congruence. ring.
Qed.

Lemma accum_sub q (x : F) :
  accum (fun p => if Nat.eqb p q then (- x)%F else nzero)
        (fun s => <[q := (s !!! q - x)%F]> s).
Proof.
  intros s. split; [apply length_insert|]. intros p Hp.
  destruct (Nat.eqb_spec p q) as [->|Hne].
  - rewrite list_lookup_total_insert_eq by exact Hp. ring.
  - rewrite list_lookup_total_insert_ne by congruence. ring.
Qed.

Lemma accum_for_loop n (delta : nat -> nat -> F)
    (body : nat -> list F -> list F) :
  (forall i, i < n -> accum (delta i) (body i)) ->
  accum (fun p => sumn n (fun i => delta i p)) (for_loop n body).
Proof.
  intros Hb. induction n as [|n IH]; intros s.
  - split; [reflexivity|]. intros p Hp. simpl.
    change (for_loop 0 body s) with s. ring.
  - rewrite for_loop_last.
    destruct (IH ltac:(intros; apply Hb; lia) s) as [Hlen Hs].
    destruct (Hb n ltac:(lia) (for_loop n body s)) as [Hlb Hsb].
    split; [congruence|]. intros p Hp.
    rewrite Hsb by lia. rewrite Hs by exact Hp. simpl. ring.
Qed.

Lemma accum_read delta (h : list F -> list F) s p :
  accum delta h -> p < length s -> h s !!! p = (s !!! p + delta p)%F.
Proof. intros H Hp. apply H, Hp. Qed.

Lemma accum_length delta (h : list F -> list F) s :
  accum delta h -> length (h s) = length s.
Proof. intros H. apply H. Qed.
End Sums.

(** ** Index arithmetic *)

Lemma idx2_inj n i j i' j' :
  j < n -> j' < n -> n * i + j = n * i' + j' -> i = i' /\ j = j'.
Proof.
  intros Hj Hj' H.
  assert (i = i') by nia. subst. split; [reflexivity|lia].
Qed.

Lemma idx2_lt n i j : i < n -> j < n -> n * i + j < n * n.
Proof. intros. nia. Qed.

Lemma tri_pos_inj n i j i' j' :
  i <= j < n -> i' <= j' < n -> tri_pos n i j = tri_pos n i' j' ->
  i = i' /\ j = j'.
Proof.
  intros Hij Hij' H.
  destruct (Nat.lt_trichotomy i i') as [Hlt|[->|Hgt]].
  - pose proof (tri_pos_lt_row n i j i' Hlt Hij). unfold tri_pos in *. lia.
  - unfold tri_pos in H. split; [reflexivity|lia].
  - pose proof (tri_pos_lt_row n i' j' i Hgt Hij'). unfold tri_pos in *. lia.
Qed.

Lemma tri_pos_lt_total n i j : i <= j < n -> tri_pos n i j < n * (n + 1) / 2.
Proof.
  intros H. rewrite <- tri_row_total.
  pose proof (tri_pos_lt_row n i j (S i) ltac:(lia) H) as H1.
  pose proof (tri_row_mono n (S i) n ltac:(lia)). lia.
Qed.

Section SumsPick.
Context {F : NumType}.
Add Ring num_ring_pick : (F_R (nfield F)).

Lemma sumn_if n (c : bool) (f : nat -> F) :
  sumn n (fun i => if c then f i else nzero) =
  if c then sumn n f else nzero.
Proof. destruct c; [reflexivity|apply sumn_zero]. Qed.

Lemma sumn_pick n k (a : nat -> F) :
  k < n -> sumn n (fun w => if Nat.eqb k w then a w else nzero) = a k.
Proof.
  intros Hk.
  rewrite (sumn_ext n _ (fun w => if Nat.eqb w k then a k else nzero)).
  - rewrite sumn_single. rewrite (proj2 (Nat.ltb_lt k n)) by exact Hk.
    reflexivity.
  - intros w _. rewrite (Nat.eqb_sym k w).
    destruct (Nat.eqb_spec w k) as [->|]; reflexivity.
Qed.

Lemma sumn_pick2 n a b (h : nat -> nat -> F) :
  a < n -> b < n ->
  sumn n (fun i => sumn n (fun j =>
    if Nat.eqb (n * a + b) (n * i + j) then h i j else nzero)) = h a b.
Proof.
  intros Ha Hb.
  rewrite (sumn_ext n _ (fun i => if Nat.eqb a i then h i b else nzero)).
  - apply (sumn_pick n a (fun i => h i b)). exact Ha.
  - intros i Hi.
    rewrite (sumn_ext n _
      (fun j => if Nat.eqb b j then (if Nat.eqb a i then h i j else nzero)
                else nzero)).
    + apply (sumn_pick n b
               (fun j => if Nat.eqb a i then h i j else nzero)). exact Hb.
    + intros j Hj.
      destruct (Nat.eqb_spec (n * a + b) (n * i + j)) as [He|Hne].
      * destruct (idx2_inj n a b i j Hb Hj He) as [-> ->].
        rewrite !Nat.eqb_refl. reflexivity.
      * destruct (Nat.eqb_spec b j) as [->|]; [|reflexivity].
        destruct (Nat.eqb_spec a i) as [->|]; [|reflexivity].
        congruence.
Qed.
End SumsPick.

(** ** MetricTensor *)

Section MetricTensorProps.
Context {F : NumType}.
Add Ring num_ring_mt : (F_R (nfield F)).
Implicit Types (T : Stencil) (basis : list (list F)) (B : list F).

Lemma MetricTensor_trE_spec T basis e :
  e < kNumEdges T ->
  MetricTensor_trE T basis !!! e = tensor_trace (basis !!! e).
Proof.
  intros He. unfold MetricTensor_trE.
  rewrite (accum_read
    (fun p => sumn (kNumEdges T) (fun e' => sumn 3 (fun i =>
       if Nat.eqb p e' then (basis !!! e') !!! (4 * i) else nzero)))).
  - rewrite lookup_total_replicate_2 by exact He.
    rewrite (sumn_ext _ _ (fun e' =>
      if Nat.eqb e e' then tensor_trace (basis !!! e') else nzero)).
    + rewrite sumn_pick by exact He. ring.
    + intros e' _. apply sumn_if.
  - apply accum_for_loop. intros e' _.
    apply accum_for_loop. intros i _.
    apply (accum_add e' ((basis !!! e') !!! (4 * i))).
  - rewrite length_replicate. exact He.
Qed.

Lemma MetricTensor_trEE_spec T basis ed1 ed2 :
  ed1 < kNumEdges T -> ed2 < kNumEdges T ->
  MetricTensor_trEE T basis !!! (kNumEdges T * ed1 + ed2) =
  tensor_contract (basis !!! ed1) (basis !!! ed2).
Proof.
  intros H1 H2. unfold MetricTensor_trEE. set (E := kNumEdges T) in *.
  rewrite (accum_read
    (fun p => sumn E (fun a => sumn E (fun b => sumn 3 (fun i => sumn 3 (fun j =>
       if Nat.eqb p (E * a + b)
       then ((basis !!! a) !!! (3 * i + j)%nat *
             (basis !!! b) !!! (3 * j + i)%nat)%F
       else nzero)))))).
  - rewrite lookup_total_replicate_2 by (apply idx2_lt; assumption).
    rewrite (sumn_ext _ _ (fun a => sumn E (fun b =>
      if Nat.eqb (E * ed1 + ed2) (E * a + b)
      then tensor_contract (basis !!! a) (basis !!! b) else nzero))).
    + rewrite sumn_pick2 by assumption. ring.
    + intros a _. apply sumn_ext. intros b _.
      destruct (Nat.eqb (E * ed1 + ed2) (E * a + b)); [reflexivity|].
      rewrite (sumn_ext 3 _ (fun _ => nzero)); [apply sumn_zero|].
      intros i _. apply sumn_zero.
  - apply accum_for_loop. intros a _.
    apply accum_for_loop. intros b _.
    apply accum_for_loop. intros i _.
    apply accum_for_loop. intros j _.
    apply (accum_add (E * a + b)).
  - rewrite length_replicate. apply idx2_lt; assumption.
Qed.

Let entry T (mu la : F) (trE trEE : list F) (ed1 ed2 : nat) : F :=
  (mu * trEE !!! (kNumEdges T * ed1 + ed2)%nat +
   la * trE !!! ed2 * trE !!! ed1)%F.

Lemma MetricTensor_k_spec T (mu la : F) (trE trEE : list F) ed1 ed2 :
  ed1 < kNumEdges T -> ed2 < kNumEdges T ->
  MetricTensor_k T mu la trE trEE !!! (kNumEdges T * ed1 + ed2) =
  (mu * trEE !!! (kNumEdges T * ed1 + ed2)%nat +
   la * trE !!! ed2 * trE !!! ed1)%F.
Proof.
  intros H1 H2. unfold MetricTensor_k. set (E := kNumEdges T) in *.
  apply (writes_read
    (fun p v => exists a, a < E /\ exists b, b < E /\
       (p = E * a + b /\ v = entry T mu la trE trEE a b))).
  - apply (writes_for_loop E (fun a p v => exists b, b < E /\
       (p = E * a + b /\ v = entry T mu la trE trEE a b))).
    + intros a Ha.
      apply (writes_for_loop E (fun b p v =>
         p = E * a + b /\ v = entry T mu la trE trEE a b)).
      * intros b Hb. apply writes_insert.
      * intros b b' p v v' Hb Hb' [-> ->] [Hp ->].
        destruct (idx2_inj E a b a b' Hb Hb' Hp) as [_ ->]. reflexivity.
    + intros a a' p v v' Ha Ha' (b & Hb & -> & ->) (b' & Hb' & Hp & ->).
      destruct (idx2_inj E a b a' b' Hb Hb' Hp) as [-> ->]. reflexivity.
  - rewrite length_replicate. apply idx2_lt; assumption.
  - exists ed1. split; [exact H1|]. exists ed2. split; [exact H2|].
    split; reflexivity.
Qed.

(** the copy loop, with the counter replaced by its value *)
Lemma MetricTensor_copy_counter T (metric : list F) idx (k : list F) :
  MetricTensor_copy T metric idx k =
  (for_loop (kNumEdges T) (fun ed1 =>
     for_range ed1 (kNumEdges T) (fun ed2 metric =>
       <[21 * idx + tri_pos (kNumEdges T) ed1 ed2 :=
           k !!! (kNumEdges T * ed1 + ed2)]> metric)) metric,
   kNumEdges T * (kNumEdges T + 1) / 2).
Proof.
  unfold MetricTensor_copy.
  rewrite (tri_loop_counter
    (fun ed1 ed2 id metric =>
       <[21 * idx + id := k !!! (kNumEdges T * ed1 + ed2)]> metric)
    (kNumEdges T) (kNumEdges T) metric (Nat.le_refl _)).
  rewrite tri_row_total. reflexivity.
Qed.

Lemma MetricTensor_copy_writes T idx (k : list F) :
  writes
    (fun p v => exists a, a < kNumEdges T /\
       exists b, a <= b < kNumEdges T /\
         (p = 21 * idx + tri_pos (kNumEdges T) a b /\
          v = k !!! (kNumEdges T * a + b)))
    (fun metric => fst (MetricTensor_copy T metric idx k)).
Proof.
  set (E := kNumEdges T).
  assert (Hw : writes
    (fun p v => exists a, a < E /\ exists b, a <= b < E /\
       (p = 21 * idx + tri_pos E a b /\ v = k !!! (E * a + b)))
    (for_loop E (fun ed1 =>
       for_range ed1 E (fun ed2 metric =>
         <[21 * idx + tri_pos E ed1 ed2 := k !!! (E * ed1 + ed2)]> metric)))).
  { apply (writes_for_loop E (fun a p v => exists b, a <= b < E /\
       (p = 21 * idx + tri_pos E a b /\ v = k !!! (E * a + b)))).
    - intros a Ha.
      apply (writes_for_range a E (fun b p v =>
         p = 21 * idx + tri_pos E a b /\ v = k !!! (E * a + b))).
      + intros b Hb. apply writes_insert.
      + intros b b' p v v' Hb Hb' [-> ->] [Hp ->].
        destruct (tri_pos_inj E a b a b' Hb Hb' ltac:(lia)) as [_ ->].
        reflexivity.
    - intros a a' p v v' Ha Ha' (b & Hb & -> & ->) (b' & Hb' & Hp & ->).
      destruct (tri_pos_inj E a b a' b' Hb Hb' ltac:(lia)) as [-> ->].
      reflexivity. }
  intros s. rewrite MetricTensor_copy_counter. exact (Hw s).
Qed.

Lemma MetricTensor_ok T (metric : list F) idx (mu la : F) basis :
  MetricTensor T metric idx mu la basis =
  Ok (fst (MetricTensor_copy T metric idx
             (MetricTensor_k T mu la (MetricTensor_trE T basis)
                              (MetricTensor_trEE T basis)))).
Proof.
  unfold MetricTensor. rewrite MetricTensor_copy_counter. simpl.
  rewrite Nat.eqb_refl. reflexivity.
Qed.

Lemma tensor_contract_symmetric B1 B2 :
  tensor_symmetric B2 -> tensor_contract B1 B2 = tensor_contract_t B1 B2.
Proof.
  intros Hs. unfold tensor_contract, tensor_contract_t.
  apply sumn_ext. intros i Hi. apply sumn_ext. intros j Hj.
  rewrite (Hs j i Hj Hi). reflexivity.
Qed.

Lemma tensor_contract_comm B1 B2 :
  tensor_contract B1 B2 = tensor_contract B2 B1.
Proof.
  unfold tensor_contract. rewrite sumn_swap.
  apply sumn_ext. intros i _. apply sumn_ext. intros j _. ring.
Qed.
(** C9. On both stencils the copy loop leaves the counter at E(E+1)/2
    whatever the inputs are, so the check that follows it never fails:
    [MetricTensor] always returns normally and never reaches
    [mju_error("incorrect stiffness matrix size")]. *)
Theorem MetricTensor_count_exact T (metric : list F) idx (mu la : F) basis :
  (forall k : list F,
      snd (MetricTensor_copy T metric idx k) =
      kNumEdges T * (kNumEdges T + 1) / 2) /\
  (exists metric', MetricTensor T metric idx mu la basis = Ok metric') /\
  (forall msg, MetricTensor T metric idx mu la basis <> Err msg).
Proof.
  split; [|split].
  - intros k. rewrite MetricTensor_copy_counter. reflexivity.
  - eexists. apply MetricTensor_ok.
  - intros msg. rewrite MetricTensor_ok. discriminate.
Qed.

(** C3. For every element whose basis tensors B[0..E-1] are symmetric --
    as all tensors built by [ComputeBasis] are -- and every edge pair
    i <= j of the stencil whose packed slot lies inside the stiffness
    buffer, [MetricTensor] returns normally, keeps the size of the buffer
    and stores, at offset [21*idx + idx(i,j)] with
    [idx(i,j) = i*(2E-i+1)/2 + (j-i)] (row-major upper triangle), the
    value mu*trEE[i,j] + la*trE[i]*trE[j], where trE[i] is the trace of
    B[i] and trEE[i,j] is the double contraction trace(B[i] . B[j]^t). *)
Theorem MetricTensor_packed_entry T (metric : list F) idx (mu la : F) basis i j :
  (forall e, e < kNumEdges T -> tensor_symmetric (basis !!! e)) ->
  i <= j < kNumEdges T ->
  21 * idx + packed_index (kNumEdges T) i j < length metric ->
  exists metric',
    MetricTensor T metric idx mu la basis = Ok metric' /\
    length metric' = length metric /\
    metric' !!! (21 * idx + packed_index (kNumEdges T) i j) =
      (mu * tensor_contract_t (basis !!! i) (basis !!! j) +
       la * tensor_trace (basis !!! i) * tensor_trace (basis !!! j))%F.
Proof.
  intros Hsym Hij Hlen. eexists. split; [apply MetricTensor_ok|].
  set (k := MetricTensor_k T mu la _ _).
  pose proof (MetricTensor_copy_writes T idx k) as Hw.
  split; [apply (writes_length _ _ metric Hw)|].
  rewrite (writes_read _ _ metric _ (k !!! (kNumEdges T * i + j)) Hw Hlen).
  - unfold k. rewrite MetricTensor_k_spec by lia.
    rewrite MetricTensor_trEE_spec by lia.
    rewrite !MetricTensor_trE_spec by lia.
    rewrite (tensor_contract_symmetric _ _ (Hsym j ltac:(lia))). ring.
  - exists i. split; [lia|]. exists j. split; [lia|].
    split; [|reflexivity].
    rewrite tri_pos_packed_index by lia. reflexivity.
Qed.

(** *** Unpacking (ComputeForce) *)

Lemma unpack_metric_counter T (k : nat -> F) t :
  unpack_metric T k t =
  (for_loop (kNumEdges T) (fun ed1 =>
     for_range ed1 (kNumEdges T) (fun ed2 metric =>
       <[kNumEdges T * ed2 + ed1 := k (21 * t + tri_pos (kNumEdges T) ed1 ed2)]>
         (<[kNumEdges T * ed1 + ed2 :=
              k (21 * t + tri_pos (kNumEdges T) ed1 ed2)]> metric)))
     (replicate (kNumEdges T * kNumEdges T) nzero),
   kNumEdges T * (kNumEdges T + 1) / 2).
Proof.
  unfold unpack_metric.
  rewrite <- tri_row_total.
  exact (tri_loop_counter
    (fun ed1 ed2 id metric =>
       <[kNumEdges T * ed2 + ed1 := k (21 * t + id)]>
         (<[kNumEdges T * ed1 + ed2 := k (21 * t + id)]> metric))
    (kNumEdges T) (kNumEdges T) _ (Nat.le_refl _)).
Qed.

Lemma unpack_metric_spec T (k : nat -> F) t i j :
  i <= j < kNumEdges T ->
  fst (unpack_metric T k t) !!! (kNumEdges T * i + j) =
    k (21 * t + tri_pos (kNumEdges T) i j) /\
  fst (unpack_metric T k t) !!! (kNumEdges T * j + i) =
    k (21 * t + tri_pos (kNumEdges T) i j).
Proof.
  intros Hij. rewrite unpack_metric_counter. simpl fst.
  set (E := kNumEdges T) in *.
  set (R := fun a b (p : nat) (v : F) =>
    (p = E * a + b /\ v = k (21 * t + tri_pos E a b)) \/
    (p = E * b + a /\ v = k (21 * t + tri_pos E a b))).
  assert (Hc : forall a b a' b' p v v',
    a <= b < E -> a' <= b' < E -> R a b p v -> R a' b' p v' -> v = v').
  { intros a b a' b' p v v' Hab Hab' [[-> ->]|[-> ->]] [[Hp ->]|[Hp ->]].
    - destruct (idx2_inj E a b a' b' ltac:(lia) ltac:(lia) Hp) as [-> ->].
      reflexivity.
    - destruct (idx2_inj E a b b' a' ltac:(lia) ltac:(lia) Hp) as [-> ->].
      replace b' with a' by lia. reflexivity.
    - destruct (idx2_inj E b a a' b' ltac:(lia) ltac:(lia) Hp) as [-> ->].
      replace b' with a' by lia. reflexivity.
    - destruct (idx2_inj E b a b' a' ltac:(lia) ltac:(lia) Hp) as [-> ->].
      reflexivity. }
  assert (Hw : writes
    (fun p v => exists a, a < E /\ exists b, a <= b < E /\ R a b p v)
    (for_loop E (fun ed1 =>
       for_range ed1 E (fun ed2 metric =>
         <[E * ed2 + ed1 := k (21 * t + tri_pos E ed1 ed2)]>
           (<[E * ed1 + ed2 := k (21 * t + tri_pos E ed1 ed2)]> metric))))).
  { apply (writes_for_loop E (fun a p v => exists b, a <= b < E /\ R a b p v)).
    - intros a Ha. apply (writes_for_range a E (R a)).
      + intros b Hb.
        apply (writes_compose
          (fun p v => p = E * a + b /\ v = k (21 * t + tri_pos E a b))
          (fun p v => p = E * b + a /\ v = k (21 * t + tri_pos E a b))
          (fun metric => <[E * a + b := k (21 * t + tri_pos E a b)]> metric)
          (fun metric => <[E * b + a := k (21 * t + tri_pos E a b)]> metric)).
        * apply writes_insert.
        * apply writes_insert.
        * intros p v v' [_ ->] [_ ->]. reflexivity.
      + intros b b' p v v' Hb Hb'. apply Hc; lia.
    - intros a a' p v v' Ha Ha' (b & Hb & Hr) (b' & Hb' & Hr').
      exact (Hc a b a' b' p v v' Hb Hb' Hr Hr'). }
  split.
  - apply (writes_read _ _ _ _ _ Hw).
    + rewrite length_replicate. apply idx2_lt; lia.
    + exists i. split; [lia|]. exists j. split; [lia|].
      left. split; reflexivity.
  - apply (writes_read _ _ _ _ _ Hw).
    + rewrite length_replicate. apply idx2_lt; lia.
    + exists i. split; [lia|]. exists j. split; [lia|].
      right. split; reflexivity.
Qed.

Lemma unpack_metric_symmetric T (k : nat -> F) t i j :
  i < kNumEdges T -> j < kNumEdges T ->
  fst (unpack_metric T k t) !!! (kNumEdges T * i + j) =
  fst (unpack_metric T k t) !!! (kNumEdges T * j + i).
Proof.
  intros Hi Hj. destruct (Nat.le_gt_cases i j) as [Hle|Hgt].
  - destruct (unpack_metric_spec T k t i j ltac:(lia)) as [-> ->].
    reflexivity.
  - destruct (unpack_metric_spec T k t j i ltac:(lia)) as [-> ->].
    reflexivity.
Qed.

(** C4. Whatever the material parameters and the basis tensors are, the
    matrix k that [MetricTensor] assembles is symmetric, and the packed
    tensor that it writes for element [idx] unpacks (as [ComputeForce]
    unpacks it) to a symmetric E x E matrix: M[i][j] = M[j][i] for all
    edges i, j of the stencil. *)
Theorem MetricTensor_unpacked_symmetric T (metric : list F) idx (mu la : F)
    basis i j :
  i < kNumEdges T -> j < kNumEdges T ->
  MetricTensor_k T mu la (MetricTensor_trE T basis) (MetricTensor_trEE T basis)
    !!! (kNumEdges T * i + j) =
  MetricTensor_k T mu la (MetricTensor_trE T basis) (MetricTensor_trEE T basis)
    !!! (kNumEdges T * j + i) /\
  exists metric',
    MetricTensor T metric idx mu la basis = Ok metric' /\
    fst (unpack_metric T (ptr metric' 0) idx) !!! (kNumEdges T * i + j) =
    fst (unpack_metric T (ptr metric' 0) idx) !!! (kNumEdges T * j + i).
Proof.
  intros Hi Hj. split.
  - rewrite !MetricTensor_k_spec by assumption.
    rewrite !MetricTensor_trEE_spec by assumption.
    rewrite (tensor_contract_comm (basis !!! j) (basis !!! i)). ring.
  - eexists. split; [apply MetricTensor_ok|].
    apply unpack_metric_symmetric; assumption.
Qed.
End MetricTensorProps.

(** ** ComputeForce *)

Lemma gidx_inj e s d e' s' d' :
  s < 2 -> d < 3 -> s' < 2 -> d' < 3 ->
  gidx e s d = gidx e' s' d' -> e = e' /\ s = s' /\ d = d'.
Proof. unfold gidx. lia. Qed.

Lemma gidx_lt n e s d : e < n -> s < 2 -> d < 3 -> gidx e s d < n * 2 * 3.
Proof. unfold gidx. lia. Qed.

Lemma edge_lt T e s : e < kNumEdges T -> s < 2 -> edge T e s < kNumVerts T.
Proof.
  intros He Hs. destruct T; simpl in He;
    repeat (destruct e as [|e]; [|try lia]);
    repeat (destruct s as [|s]; [|try lia]);
    vm_compute; lia.
Qed.

Section ComputeForceProps.
Context {F : NumType}.
Add Ring num_ring_cf : (F_R (nfield F)).
Implicit Types (T : Stencil) (m : mjModel F) (xpos : nat -> F)
         (v : nat -> nat).

Lemma GradSquaredLengths_spec T xpos v e s d :
  e < kNumEdges T -> s < 2 -> d < 3 ->
  GradSquaredLengths T (replicate (kNumEdges T * 2 * 3) nzero) xpos v
    !!! gidx e s d = edge_gradient T xpos v e s d.
Proof.
  intros He Hs Hd. unfold GradSquaredLengths.
  set (R := fun e d (p : nat) (val : F) =>
    (p = gidx e 0 d /\ val = edge_gradient T xpos v e 0 d) \/
    (p = gidx e 1 d /\ val = edge_gradient T xpos v e 1 d)).
  assert (Hc : forall e d e' d' p val val',
    d < 3 -> d' < 3 -> R e d p val -> R e' d' p val' -> val = val').
  { intros a b a' b' p val val' Hb Hb' [[-> ->]|[-> ->]] [[Hp ->]|[Hp ->]];
      unfold gidx in Hp;
      (assert (a = a' /\ b = b') as [-> ->] by lia; reflexivity) || lia. }
  apply (writes_read
    (fun p val => exists e, e < kNumEdges T /\ exists d, d < 3 /\ R e d p val)).
  - apply (writes_for_loop (kNumEdges T)
      (fun e p val => exists d, d < 3 /\ R e d p val)).
    + intros a Ha. apply (writes_for_loop 3 (R a)).
      * intros b Hb.
        apply (writes_compose
          (fun p val => p = gidx a 0 b /\ val = edge_gradient T xpos v a 0 b)
          (fun p val => p = gidx a 1 b /\ val = edge_gradient T xpos v a 1 b)
          (fun g => <[gidx a 0 b := edge_gradient T xpos v a 0 b]> g)
          (fun g => <[gidx a 1 b := edge_gradient T xpos v a 1 b]> g)).
        -- apply writes_insert.
        -- apply writes_insert.
        -- intros p val val' [-> _] [Hp _]. unfold gidx in Hp. lia.
      * intros b b' p val val' Hb Hb'. apply Hc; assumption.
    + intros a a' p val val' Ha Ha' (b & Hb & Hr) (b' & Hb' & Hr').
      exact (Hc a b a' b' p val val' Hb Hb' Hr Hr').
  - rewrite length_replicate. apply gidx_lt; assumption.
  - exists e. split; [exact He|]. exists d. split; [exact Hd|].
    destruct s as [|[|s]]; [left|right|lia]; split; reflexivity.
Qed.

Lemma gather_elongation_spec T (elongationglob : list F) edgeelem t e :
  e < kNumEdges T ->
  gather_elongation T elongationglob edgeelem t !!! e =
  elongationglob !!! edgeelem (t * kNumEdges T + e).
Proof.
  intros He. unfold gather_elongation.
  apply (writes_read (fun p val => exists e, e < kNumEdges T /\
    (p = e /\ val = elongationglob !!! edgeelem (t * kNumEdges T + e)))).
  - apply (writes_for_loop (kNumEdges T) (fun e p val =>
      p = e /\ val = elongationglob !!! edgeelem (t * kNumEdges T + e))).
    + intros a Ha. apply writes_insert.
    + intros a a' p val val' _ _ [-> ->] [-> ->]. reflexivity.
  - rewrite length_replicate. exact He.
  - exists e. split; [exact He|]. split; reflexivity.
Qed.

Lemma unpack_metric_packed T (k : nat -> F) t i j :
  i < kNumEdges T -> j < kNumEdges T ->
  fst (unpack_metric T k t) !!! (kNumEdges T * i + j) =
  k (21 * t + packed_index (kNumEdges T) (Nat.min i j) (Nat.max i j)).
Proof.
  intros Hi Hj. destruct (Nat.le_gt_cases i j) as [Hle|Hgt].
  - rewrite Nat.min_l, Nat.max_r by lia.
    rewrite <- tri_pos_packed_index by lia.
    apply (unpack_metric_spec T k t i j). lia.
  - rewrite Nat.min_r, Nat.max_l by lia.
    rewrite <- tri_pos_packed_index by lia.
    apply (unpack_metric_spec T k t j i). lia.
Qed.
Lemma sumn_pick_component w x0 e (h : nat -> F) :
  x0 < 3 ->
  sumn 3 (fun x => if Nat.eqb (3 * w + x0) (3 * e + x) then h x else nzero) =
  if Nat.eqb e w then h x0 else nzero.
Proof.
  intros Hx. cbn [sumn].
  destruct (Nat.eqb_spec e w) as [->|Hne];
    destruct x0 as [|[|[|x0]]]; try lia;
    repeat match goal with
           | |- context [Nat.eqb ?a ?b] =>
               destruct (Nat.eqb_spec a b); try lia
           end;
    ring.
Qed.

Lemma sumn_if_opp n (c : nat -> bool) (a : nat -> F) :
  sumn n (fun i => if c i then (- a i)%F else nzero) =
  (- sumn n (fun i => if c i then a i else nzero))%F.
Proof.
  rewrite <- sumn_opp. apply sumn_ext. intros i _.
  destruct (c i); ring.
Qed.

(** the local force, slot by slot *)
Lemma local_force_spec T (elongation gradient metric : list F) w x :
  w < kNumVerts T -> x < 3 ->
  local_force T elongation gradient metric !!! (3 * w + x) =
  (- sumn (kNumEdges T) (fun i => sumn (kNumEdges T) (fun j => sumn 2 (fun s =>
       if Nat.eqb (edge T j s) w
       then (elongation !!! i * gradient !!! gidx j s x *
             metric !!! (kNumEdges T * i + j)%nat)%F
       else nzero))))%F.
Proof.
  intros Hw Hx. unfold local_force. set (E := kNumEdges T).
  rewrite (accum_read
    (fun p => sumn E (fun ed1 => sumn E (fun ed2 => sumn 2 (fun i =>
       sumn 3 (fun x' =>
         if Nat.eqb p (3 * edge T ed2 i + x')
         then (- (elongation !!! ed1 * gradient !!! gidx ed2 i x' *
                  metric !!! (E * ed1 + ed2)%nat))%F
         else nzero)))))).
  - rewrite lookup_total_replicate_2 by lia.
    rewrite <- !sumn_opp.
    rewrite <- (sumn_zero (F:=F) E) at 1. rewrite <- sumn_add.
    apply sumn_ext. intros i _. rewrite <- sumn_opp.
    rewrite <- (sumn_zero (F:=F) E) at 1. rewrite <- sumn_add.
    apply sumn_ext. intros j _. rewrite <- sumn_opp.
    rewrite <- (sumn_zero (F:=F) 2) at 1. rewrite <- sumn_add.
    apply sumn_ext. intros s _.
    rewrite (sumn_pick_component w x (edge T j s)
      (fun x' => (- (elongation !!! i * gradient !!! gidx j s x' *
                     metric !!! (E * i + j)%nat))%F) Hx).
    destruct (Nat.eqb (edge T j s) w); ring.
  - apply accum_for_loop. intros ed1 _.
    apply accum_for_loop. intros ed2 _.
    apply accum_for_loop. intros i _.
    apply accum_for_loop. intros x' _.
    apply (accum_sub (3 * edge T ed2 i + x')).
  - rewrite length_replicate. lia.
Qed.

(** closed form of the force of element [t] on its vertex [w] *)
Lemma element_force_closed T (elongationglob : list F) m flex xpos t w x :
  w < kNumVerts T -> x < 3 ->
  element_force T elongationglob m flex xpos t !!! (3 * w + x) =
  (- sumn (kNumEdges T) (fun i => sumn (kNumEdges T) (fun j => sumn 2 (fun s =>
       if Nat.eqb (edge T j s) w
       then (element_elongation T elongationglob m flex t i *
             edge_gradient T xpos (elem_verts m flex t) j s x *
             element_metric T m flex t i j)%F
       else nzero))))%F.
Proof.
  intros Hw Hx. unfold element_force. rewrite local_force_spec by assumption.
  f_equal.
  apply sumn_ext. intros i Hi. apply sumn_ext. intros j Hj.
  apply sumn_ext. intros s Hs.
  rewrite gather_elongation_spec by exact Hi.
  rewrite GradSquaredLengths_spec by assumption.
  rewrite unpack_metric_packed by assumption.
  reflexivity.
Qed.

Lemma insert_force_accum T v (force : list F) :
  accum (fun p => sumn (kNumVerts T) (fun i => sumn 3 (fun x =>
           if Nat.eqb p (3 * v i + x) then force !!! (3 * i + x) else nzero)))
        (insert_force T v force).
Proof.
  unfold insert_force.
  apply accum_for_loop. intros i _.
  apply accum_for_loop. intros x _.
  apply (accum_add (3 * v i + x)).
Qed.

Lemma ComputeForce_spec T (qfrc_passive elongationglob : list F) m flex xpos :
  length (ComputeForce T qfrc_passive elongationglob m flex xpos) =
    length qfrc_passive /\
  forall p, p < length qfrc_passive ->
    ComputeForce T qfrc_passive elongationglob m flex xpos !!! p =
    sumn (flex_elemnum m !!! flex) (fun t =>
      sumn (kNumVerts T) (fun i => sumn 3 (fun x =>
        if Nat.eqb p (3 * elem_verts m flex t i + x)
        then element_force T elongationglob m flex xpos t !!! (3 * i + x)
        else nzero))).
Proof.
  unfold ComputeForce.
  pose proof (accum_for_loop (flex_elemnum m !!! flex)
    (fun t p => sumn (kNumVerts T) (fun i => sumn 3 (fun x =>
        if Nat.eqb p (3 * elem_verts m flex t i + x)
        then element_force T elongationglob m flex xpos t !!! (3 * i + x)
        else nzero)))
    (fun t qfrc => insert_force T (elem_verts m flex t)
       (element_force T elongationglob m flex xpos t) qfrc)
    (fun t _ => insert_force_accum T _ _)) as Hacc.
  destruct (Hacc (replicate (length qfrc_passive) nzero)) as [Hlen Hread].
  rewrite length_replicate in Hlen, Hread. split; [exact Hlen|].
  intros p Hp. rewrite (Hread p Hp).
  rewrite lookup_total_replicate_2 by exact Hp. ring.
Qed.
Lemma edge_gradient_opposite T xpos v j x :
  edge_gradient T xpos v j 1 x = (- edge_gradient T xpos v j 0 x)%F.
Proof. unfold edge_gradient. simpl. ring. Qed.

(** C1. The force of element [t] on its local vertex [w], component [x],
    is what is left after decrementing zero, for every ordered pair of
    edges (i,j) and each side [s] of edge j whose endpoint is [w], by
    elongation[i] * gradient[j][s][x] * metric[i,j]; gradient[j][s] is the
    difference of the positions of the two endpoints of edge j, with
    opposite signs on the two sides; and the global buffer returned by
    [ComputeForce] holds, in every slot, the sum of the element forces
    inserted there. *)
Theorem ComputeForce_contract T (qfrc_passive elongationglob : list F)
    m flex xpos t w j s x p :
  w < kNumVerts T -> j < kNumEdges T -> s < 2 -> x < 3 ->
  p < length qfrc_passive ->
  element_force T elongationglob m flex xpos t !!! (3 * w + x) =
    (- sumn (kNumEdges T) (fun i => sumn (kNumEdges T) (fun j => sumn 2 (fun s =>
         if Nat.eqb (edge T j s) w
         then (element_elongation T elongationglob m flex t i *
               edge_gradient T xpos (elem_verts m flex t) j s x *
               element_metric T m flex t i j)%F
         else nzero))))%F /\
  GradSquaredLengths T (replicate (kNumEdges T * 2 * 3) nzero) xpos
      (elem_verts m flex t) !!! gidx j s x =
    (xpos (3 * elem_verts m flex t (edge T j s) + x)%nat -
     xpos (3 * elem_verts m flex t (edge T j (1 - s)) + x)%nat)%F /\
  edge_gradient T xpos (elem_verts m flex t) j 1 x =
    (- edge_gradient T xpos (elem_verts m flex t) j 0 x)%F /\
  length (ComputeForce T qfrc_passive elongationglob m flex xpos) =
    length qfrc_passive /\
  ComputeForce T qfrc_passive elongationglob m flex xpos !!! p =
    sumn (flex_elemnum m !!! flex) (fun t =>
      sumn (kNumVerts T) (fun i => sumn 3 (fun x =>
        if Nat.eqb p (3 * elem_verts m flex t i + x)
        then element_force T elongationglob m flex xpos t !!! (3 * i + x)
        else nzero))).
Proof.
  intros Hw Hj Hs Hx Hp.
  split; [apply element_force_closed; assumption|].
  split; [apply GradSquaredLengths_spec; assumption|].
  split; [apply edge_gradient_opposite|].
  destruct (ComputeForce_spec T qfrc_passive elongationglob m flex xpos)
    as [Hlen Hread].
  split; [exact Hlen|apply Hread, Hp].
Qed.

(** C5 (amended). In exact arithmetic, for one element, any packed metric
    tensor, any elongations and any vertex positions, the forces that
    [ComputeForce] computes for the vertices of the element add up to zero
    in each of the three components: every term enters the two endpoints
    of an edge with opposite gradients.  (On doubles the four sums are
    rounded one by one and cancel up to rounding only.) *)
Theorem element_force_conservation T (elongationglob : list F) m flex xpos t x :
  x < 3 ->
  sumn (kNumVerts T) (fun w =>
    element_force T elongationglob m flex xpos t !!! (3 * w + x)) = nzero.
Proof.
  intros Hx. set (E := kNumEdges T). set (V := kNumVerts T).
  set (a := fun i j s =>
    (element_elongation T elongationglob m flex t i *
     edge_gradient T xpos (elem_verts m flex t) j s x *
     element_metric T m flex t i j)%F).
  rewrite (sumn_ext V _ (fun w =>
    (- sumn E (fun i => sumn E (fun j => sumn 2 (fun s =>
         if Nat.eqb (edge T j s) w then a i j s else nzero))))%F)).
  2:{ intros w Hw. apply element_force_closed; assumption. }
  rewrite sumn_opp.
  rewrite (sumn_swap V E).
  rewrite (sumn_ext E _ (fun _ => nzero)); [rewrite sumn_zero; ring|].
  intros i Hi. rewrite (sumn_swap V E).
  rewrite (sumn_ext E _ (fun _ => nzero)); [apply sumn_zero|].
  intros j Hj. rewrite (sumn_swap V 2).
  rewrite (sumn_ext 2 _ (fun s => a i j s)).
  - cbn [sumn]. unfold a. rewrite edge_gradient_opposite. ring.
  - intros s Hs.
    apply (sumn_pick V (edge T j s) (fun _ => a i j s)).
    apply edge_lt; assumption.
Qed.
End ComputeForceProps.

(** ** AddFlexForce *)

Section ScatterProps.
Context {F : NumType}.
Add Ring num_ring_sc : (F_R (nfield F)).
Variable mj_applyFT :
  mjModel F -> mjData F -> vec3 F -> option (vec3 F) -> vec3 F -> nat ->
  list F -> list F.
Implicit Types (m : mjModel F) (d : mjData F) (xpos : nat -> F)
         (force qfrc : list F).

Lemma sumn_pick_window n a p (h : nat -> F) :
  sumn n (fun x => if Nat.eqb p (a + x) then h x else nzero) =
  if (Nat.leb a p && Nat.ltb p (a + n))%bool then h (p - a) else nzero.
Proof.
  induction n as [|n IH].
  - simpl. destruct (Nat.leb_spec a p), (Nat.ltb_spec p (a + 0));
      simpl; (reflexivity || lia).
  - cbn [sumn]. rewrite IH.
    destruct (Nat.eqb_spec p (a + n)) as [->|Hne].
    + replace (a + n - a) with n by lia.
      rewrite (proj2 (Nat.leb_le a (a + n))) by lia.
      rewrite (proj2 (Nat.ltb_ge (a + n) (a + n))) by lia.
      rewrite (proj2 (Nat.ltb_lt (a + n) (a + S n))) by lia.
      simpl. ring.
    + destruct (Nat.leb_spec a p); simpl; [|ring].
      destruct (Nat.ltb_spec p (a + n)), (Nat.ltb_spec p (a + S n));
        try lia; ring.
Qed.

(** the general path *)
Lemma AddFlexForce_vertex_general force m d xpos f0 v qfrc :
  body_simple m !!! vertex_body m f0 v <> 2 ->
  AddFlexForce_vertex mj_applyFT force m d xpos f0 v qfrc =
  mj_applyFT m d
    (force !!! (3 * v), force !!! (3 * v + 1), force !!! (3 * v + 2))
    None
    (xpos (3 * v), xpos (3 * v + 1), xpos (3 * v + 2))
    (vertex_body m f0 v) qfrc.
Proof.
  intros Hs. unfold AddFlexForce_vertex. fold (vertex_body m f0 v).
  rewrite (proj2 (Nat.eqb_neq _ _) Hs). simpl.
  unfold read3, ptr. rewrite !Nat.add_0_r. reflexivity.
Qed.

(** the fast path, slot by slot *)
Lemma AddFlexForce_vertex_simple force m d xpos f0 v qfrc :
  body_simple m !!! vertex_body m f0 v = 2 ->
  length (AddFlexForce_vertex mj_applyFT force m d xpos f0 v qfrc) =
    length qfrc /\
  forall p, p < length qfrc ->
    AddFlexForce_vertex mj_applyFT force m d xpos f0 v qfrc !!! p =
    if (Nat.leb (body_dofadr m !!! vertex_body m f0 v) p &&
        Nat.ltb p (body_dofadr m !!! vertex_body m f0 v +
                   body_dofnum m !!! vertex_body m f0 v))%bool
    then (qfrc !!! p +
          force !!! (3 * v + (p - body_dofadr m !!! vertex_body m f0 v))%nat)%F
    else qfrc !!! p.
Proof.
  intros Hs. unfold AddFlexForce_vertex. fold (vertex_body m f0 v).
  rewrite Hs. simpl negb. cbv iota.
  set (adr := body_dofadr m !!! vertex_body m f0 v).
  set (num := body_dofnum m !!! vertex_body m f0 v).
  pose proof (accum_for_loop num
    (fun x p => if Nat.eqb p (adr + x) then force !!! (3 * v + x) else nzero)
    (fun x qfrc => <[adr + x := (qfrc !!! (adr + x)%nat +
                                 force !!! (3 * v + x)%nat)%F]> qfrc)
    (fun x _ => accum_add (adr + x) (force !!! (3 * v + x)))) as Hacc.
  destruct (Hacc qfrc) as [Hlen Hread]. split; [exact Hlen|].
  intros p Hp. rewrite (Hread p Hp).
  rewrite (sumn_pick_window num adr p (fun x => force !!! (3 * v + x))).
  destruct (Nat.leb adr p && Nat.ltb p (adr + num))%bool; [reflexivity|ring].
Qed.
(** C7 (amended). The scatter visits the flex vertices in order.  For
    every flex vertex: when its body is not classified
    as simple with sliders only ([body_simple] differs from 2), its force
    is handed, with a null torque and the position of the vertex, to the
    general spatial-force routine [mj_applyFT] for that body; otherwise
    the components [x < body_dofnum] of the force are added directly to
    the generalized-force slots [body_dofadr + x] of the body -- all
    three components when the body has three degrees of freedom. *)
Theorem AddFlexForce_vertex_paths force m d xpos f0 v qfrc :
  AddFlexForce mj_applyFT qfrc force m d xpos f0 =
    for_loop (flex_vertnum m !!! f0)
             (AddFlexForce_vertex mj_applyFT force m d xpos f0) qfrc /\
  (body_simple m !!! vertex_body m f0 v <> 2 ->
   AddFlexForce_vertex mj_applyFT force m d xpos f0 v qfrc =
   mj_applyFT m d
     (force !!! (3 * v), force !!! (3 * v + 1), force !!! (3 * v + 2))
     None
     (xpos (3 * v), xpos (3 * v + 1), xpos (3 * v + 2))
     (vertex_body m f0 v) qfrc) /\
  (body_simple m !!! vertex_body m f0 v = 2 ->
   (forall x,
      x < body_dofnum m !!! vertex_body m f0 v ->
      body_dofadr m !!! vertex_body m f0 v + x < length qfrc ->
      AddFlexForce_vertex mj_applyFT force m d xpos f0 v qfrc
        !!! (body_dofadr m !!! vertex_body m f0 v + x) =
      (qfrc !!! (body_dofadr m !!! vertex_body m f0 v + x)%nat +
       force !!! (3 * v + x)%nat)%F) /\
   (body_dofnum m !!! vertex_body m f0 v = 3 ->
    forall x, x < 3 ->
      body_dofadr m !!! vertex_body m f0 v + x < length qfrc ->
      AddFlexForce_vertex mj_applyFT force m d xpos f0 v qfrc
        !!! (body_dofadr m !!! vertex_body m f0 v + x) =
      (qfrc !!! (body_dofadr m !!! vertex_body m f0 v + x)%nat +
       force !!! (3 * v + x)%nat)%F)).
Proof.
  split; [reflexivity|].
  split; [apply AddFlexForce_vertex_general|].
  intros Hs.
  destruct (AddFlexForce_vertex_simple force m d xpos f0 v qfrc Hs)
    as [_ Hread].
  assert (Hadd : forall x,
    x < body_dofnum m !!! vertex_body m f0 v ->
    body_dofadr m !!! vertex_body m f0 v + x < length qfrc ->
    AddFlexForce_vertex mj_applyFT force m d xpos f0 v qfrc
      !!! (body_dofadr m !!! vertex_body m f0 v + x) =
    (qfrc !!! (body_dofadr m !!! vertex_body m f0 v + x)%nat +
     force !!! (3 * v + x)%nat)%F).
  { intros x Hx Hp. rewrite (Hread _ Hp).
    rewrite (proj2 (Nat.leb_le _ _)) by lia.
    rewrite (proj2 (Nat.ltb_lt _ _)) by lia. simpl.
    repeat f_equal. lia. }
  split; [exact Hadd|].
  intros H3 x Hx. apply Hadd. lia.
Qed.

(** C10. On the fast path exactly the components [x < body_dofnum] of
    the force of the vertex are added, to the slots [body_dofadr + x];
    every other slot of the generalized force keeps its value, so with
    fewer than three degrees of freedom the remaining components are
    dropped (the result does not depend on them).  The fast path is taken
    only when [body_simple] is exactly 2: every other value goes through
    [mj_applyFT]. *)
Theorem AddFlexForce_fast_path force m d xpos f0 v qfrc :
  (body_simple m !!! vertex_body m f0 v = 2 ->
   length (AddFlexForce_vertex mj_applyFT force m d xpos f0 v qfrc) =
     length qfrc /\
   (forall x,
      x < body_dofnum m !!! vertex_body m f0 v ->
      body_dofadr m !!! vertex_body m f0 v + x < length qfrc ->
      AddFlexForce_vertex mj_applyFT force m d xpos f0 v qfrc
        !!! (body_dofadr m !!! vertex_body m f0 v + x) =
      (qfrc !!! (body_dofadr m !!! vertex_body m f0 v + x)%nat +
       force !!! (3 * v + x)%nat)%F) /\
   (forall p,
      ~ (body_dofadr m !!! vertex_body m f0 v <= p <
         body_dofadr m !!! vertex_body m f0 v +
         body_dofnum m !!! vertex_body m f0 v) ->
      AddFlexForce_vertex mj_applyFT force m d xpos f0 v qfrc !!! p =
      qfrc !!! p) /\
   (forall force',
      (forall x, x < body_dofnum m !!! vertex_body m f0 v ->
                 force' !!! (3 * v + x) = force !!! (3 * v + x)) ->
      AddFlexForce_vertex mj_applyFT force' m d xpos f0 v qfrc =
      AddFlexForce_vertex mj_applyFT force m d xpos f0 v qfrc)) /\
  (body_simple m !!! vertex_body m f0 v <> 2 ->
   AddFlexForce_vertex mj_applyFT force m d xpos f0 v qfrc =
   mj_applyFT m d (read3 (ptr force (3 * v))) None
              (read3 (fun i => xpos (3 * v + i))) (vertex_body m f0 v) qfrc).
Proof.
  split.
  - intros Hs.
    destruct (AddFlexForce_vertex_simple force m d xpos f0 v qfrc Hs)
      as [Hlen Hread].
    split; [exact Hlen|]. split; [|split].
    + intros x Hx Hp. rewrite (Hread _ Hp).
      rewrite (proj2 (Nat.leb_le _ _)) by lia.
      rewrite (proj2 (Nat.ltb_lt _ _)) by lia. simpl.
      repeat f_equal. lia.
    + intros p Hout.
      destruct (Nat.lt_ge_cases p (length qfrc)) as [Hp|Hp].
      * rewrite (Hread _ Hp).
        destruct (Nat.leb_spec (body_dofadr m !!! vertex_body m f0 v) p);
          simpl; [|reflexivity].
        rewrite (proj2 (Nat.ltb_ge _ _)) by lia. reflexivity.
      * rewrite !(list_lookup_total_alt _ p).
        rewrite (proj2 (lookup_ge_None _ _)) by lia.
        rewrite (proj2 (lookup_ge_None _ _)) by lia. reflexivity.
    + intros force' Hagree. unfold AddFlexForce_vertex.
      fold (vertex_body m f0 v). rewrite Hs. simpl negb. cbv iota.
      apply for_loop_ext. intros x acc Hx. rewrite Hagree by exact Hx.
      reflexivity.
  - intros Hs. unfold AddFlexForce_vertex. fold (vertex_body m f0 v).
    rewrite (proj2 (Nat.eqb_neq _ _) Hs). reflexivity.
Qed.
End ScatterProps.

(** ** Solid::Compute *)

Lemma lookup_total_nth {A : Type} `{!Inhabited A} (l : list A) i :
  l !!! i = nth i l inhabitant.
Proof. rewrite list_lookup_total_alt, nth_lookup. reflexivity. Qed.

Lemma memcpy_read {A : Type} `{!Inhabited A} (dst : list A) src n i :
  i < n -> memcpy dst src n !!! i = src i.
Proof.
  intros Hi. unfold memcpy. rewrite lookup_total_nth.
  rewrite app_nth1 by (rewrite length_map, length_seq; exact Hi).
  rewrite (nth_indep _ _ (src 0)) by (rewrite length_map, length_seq; exact Hi).
  rewrite (map_nth src (seq 0 n) 0 i). rewrite seq_nth by exact Hi.
  reflexivity.
Qed.

Lemma memcpy_exact {A : Type} (dst : list A) src n :
  length dst <= n -> memcpy dst src n = map src (seq 0 n).
Proof.
  intros H. unfold memcpy. rewrite drop_ge by exact H. apply app_nil_r.
Qed.

Lemma memcpy_length {A : Type} (dst : list A) src n :
  n <= length dst -> length (memcpy dst src n) = length dst.
Proof.
  intros H. unfold memcpy.
  rewrite length_app, length_map, length_seq, length_drop. lia.
Qed.

Section ComputeProps.
Context {F : NumType}.
Add Field num_field_cp : (nfield F).
Variable mj_applyFT :
  mjModel F -> mjData F -> vec3 F -> option (vec3 F) -> vec3 F -> nat ->
  list F -> list F.
Implicit Types (s : Solid F) (m : mjModel F) (d : mjData F).

Lemma previous_lengths_first s m idx :
  prev s = [] -> idx < ne s ->
  previous_lengths s m !!! idx = reference_length s m idx.
Proof.
  intros Hp Hi. unfold previous_lengths. rewrite Hp.
  rewrite <- (memcpy_exact [] (reference_length s m) (ne s)) by (simpl; lia).
  apply memcpy_read. exact Hi.
Qed.

Lemma Compute_prev_initialised s m :
  match prev s with
  | [] => memcpy (replicate (ne s) nzero)
                 (ptr (flexedge_length0 m) (flex_edgeadr m !!! f0 s)) (ne s)
  | _ :: _ => prev s
  end = previous_lengths s m.
Proof.
  unfold previous_lengths. destruct (prev s); [|reflexivity].
  apply memcpy_exact. rewrite length_replicate. lia.
Qed.

Lemma Compute_elongation s m d idx :
  idx < ne s -> idx < length (elongation s) ->
  elongation (fst (Compute mj_applyFT s m d)) !!! idx =
  (deformed_length s m d idx * deformed_length s m d idx -
   reference_length s m idx * reference_length s m idx +
   (deformed_length s m d idx * deformed_length s m d idx -
    previous_lengths s m !!! idx * previous_lengths s m !!! idx) *
   damping_rate s m)%F.
Proof.
  intros Hi Hlen. unfold Compute. simpl.
  rewrite Compute_prev_initialised.
  set (val := fun idx =>
    (deformed_length s m d idx * deformed_length s m d idx -
     reference_length s m idx * reference_length s m idx +
     (deformed_length s m d idx * deformed_length s m d idx -
      previous_lengths s m !!! idx * previous_lengths s m !!! idx) *
     damping_rate s m)%F).
  apply (writes_read (fun p v => exists i, i < ne s /\ (p = i /\ v = val i))).
  - apply (writes_for_loop (ne s) (fun i p v => p = i /\ v = val i)).
    + intros i _. apply (writes_insert i (val i)).
    + intros i i' p v v' _ _ [-> ->] [-> ->]. reflexivity.
  - exact Hlen.
  - exists idx. split; [exact Hi|]. split; reflexivity.
Qed.

Lemma Compute_prev s m d :
  prev (fst (Compute mj_applyFT s m d)) =
  if nltb nzero (damping_rate s m)
  then memcpy (previous_lengths s m) (deformed_length s m d) (ne s)
  else previous_lengths s m.
Proof.
  unfold Compute. simpl. rewrite Compute_prev_initialised. reflexivity.
Qed.

Lemma previous_lengths_length s m :
  prev s = [] \/ length (prev s) = ne s ->
  length (previous_lengths s m) = ne s.
Proof.
  unfold previous_lengths. intros [H|H].
  - rewrite H. rewrite length_map, length_seq. reflexivity.
  - destruct (prev s); [|exact H]. rewrite length_map, length_seq. reflexivity.
Qed.
Lemma damping_rate_zero s m : damping s = nzero -> damping_rate s m = nzero.
Proof.
  intros H. unfold damping_rate. rewrite H.
  rewrite (Fdiv_def (nfield F)). ring.
Qed.

(** C2. For every edge [idx] of the flex, the elongation stored by the
    step is (d^2 - r^2) + kD*(d^2 - p^2) with kD = damping / timestep, d
    the deformed, r the reference and p the previous length of the edge;
    when no previous length is stored yet (first call), p is the
    reference length. *)
Theorem Compute_elongation_formula s m d idx :
  idx < ne s -> length (elongation s) = ne s ->
  elongation (fst (Compute mj_applyFT s m d)) !!! idx =
    ((deformed_length s m d idx * deformed_length s m d idx -
      reference_length s m idx * reference_length s m idx) +
     damping_rate s m *
     (deformed_length s m d idx * deformed_length s m d idx -
      previous_lengths s m !!! idx * previous_lengths s m !!! idx))%F /\
  damping_rate s m = (damping s / opt_timestep m)%F /\
  (prev s = [] ->
   previous_lengths s m !!! idx = reference_length s m idx) /\
  (prev s <> [] -> previous_lengths s m = prev s).
Proof.
  intros Hi Hlen. split; [|split; [reflexivity|split]].
  - rewrite Compute_elongation by lia. ring.
  - intros Hp. apply previous_lengths_first; assumption.
  - intros Hp. unfold previous_lengths. destruct (prev s); congruence.
Qed.

Lemma Compute_elongation_undamped s m d idx :
  damping s = nzero -> idx < ne s -> idx < length (elongation s) ->
  elongation (fst (Compute mj_applyFT s m d)) !!! idx =
  (deformed_length s m d idx * deformed_length s m d idx -
   reference_length s m idx * reference_length s m idx)%F.
Proof.
  intros Hd Hi Hlen. rewrite Compute_elongation by assumption.
  rewrite (damping_rate_zero s m Hd). ring.
Qed.

Lemma Compute_prev_irrelevant s m d p :
  damping s = nzero ->
  elongation (fst (Compute mj_applyFT (with_prev s p) m d)) =
    elongation (fst (Compute mj_applyFT s m d)) /\
  force (fst (Compute mj_applyFT (with_prev s p) m d)) =
    force (fst (Compute mj_applyFT s m d)) /\
  snd (Compute mj_applyFT (with_prev s p) m d) =
    snd (Compute mj_applyFT s m d).
Proof.
  intros Hd.
  assert (He : elongation (fst (Compute mj_applyFT (with_prev s p) m d)) =
               elongation (fst (Compute mj_applyFT s m d))).
  { unfold Compute. simpl.
    change (damping s / opt_timestep m)%F with (damping_rate s m).
    rewrite (damping_rate_zero s m Hd).
    apply for_loop_ext. intros i acc Hi. f_equal. ring. }
  unfold Compute in *. simpl in *. rewrite He. repeat split; reflexivity.
Qed.

(** C6 (amended). After the force computation the previous-length buffer
    is overwritten with the current deformed lengths when kD > 0, and
    keeps the value it had while the elongations were computed when
    kD = 0.  With damping coefficient 0 and a timestep that is not zero:
    kD = 0; the buffer is never overwritten with deformed lengths -- a stored buffer stays as it is,
    an empty one has been filled with the reference lengths at the start
    of the call --; its contents have no influence on the elongations,
    the forces or the host data; and the elongation of every edge is
    exactly d^2 - r^2. *)
Theorem Compute_prev_update s m d :
  prev s = [] \/ length (prev s) = ne s ->
  (nltb nzero (damping_rate s m) = true ->
   prev (fst (Compute mj_applyFT s m d)) =
   map (deformed_length s m d) (seq 0 (ne s))) /\
  (damping_rate s m = nzero ->
   prev (fst (Compute mj_applyFT s m d)) = previous_lengths s m) /\
  (damping s = nzero -> opt_timestep m <> nzero ->
   damping_rate s m = nzero /\
   (prev s <> [] -> prev (fst (Compute mj_applyFT s m d)) = prev s) /\
   (prev s = [] ->
    prev (fst (Compute mj_applyFT s m d)) =
    map (reference_length s m) (seq 0 (ne s))) /\
   (forall p,
      elongation (fst (Compute mj_applyFT (with_prev s p) m d)) =
        elongation (fst (Compute mj_applyFT s m d)) /\
      force (fst (Compute mj_applyFT (with_prev s p) m d)) =
        force (fst (Compute mj_applyFT s m d)) /\
      snd (Compute mj_applyFT (with_prev s p) m d) =
        snd (Compute mj_applyFT s m d)) /\
   (forall idx, idx < ne s -> idx < length (elongation s) ->
      elongation (fst (Compute mj_applyFT s m d)) !!! idx =
      (deformed_length s m d idx * deformed_length s m d idx -
       reference_length s m idx * reference_length s m idx)%F)).
Proof.
  intros Hinv. split; [|split].
  - intros Hk. rewrite Compute_prev, Hk.
    apply memcpy_exact. rewrite previous_lengths_length by exact Hinv. lia.
  - intros Hk. rewrite Compute_prev, Hk, nltb_irrefl. reflexivity.
  - intros Hd _. pose proof (damping_rate_zero s m Hd) as Hk.
    split; [exact Hk|].
    assert (Hprev : prev (fst (Compute mj_applyFT s m d)) =
                    previous_lengths s m).
    { rewrite Compute_prev, Hk, nltb_irrefl. reflexivity. }
    split; [|split; [|split]].
    + intros Hne. rewrite Hprev. unfold previous_lengths.
      destruct (prev s); congruence.
    + intros He. rewrite Hprev. unfold previous_lengths. rewrite He.
      reflexivity.
    + intros p. apply Compute_prev_irrelevant; assumption.
    + intros idx Hi Hlen. apply Compute_elongation_undamped; assumption.
Qed.
End ComputeProps.

(** ** Solid::Create and the constructor *)

Section FallibleLoops.
Context {St : Type}.
Implicit Types (body : nat -> St -> result St) (s : St).

Lemma for_loop_r_last n body s :
  for_loop_r (S n) body s = bind (for_loop_r n body s) (body n).
Proof.
  unfold for_loop_r. rewrite seq_S, fold_left_app. reflexivity.
Qed.

Lemma for_loop_r_fails_only msg n body s :
  (forall i acc, i < n -> fails_only_with msg (body i acc)) ->
  fails_only_with msg (for_loop_r n body s).
Proof.
  intros Hb. induction n as [|n IH].
  - left. exists s. reflexivity.
  - rewrite for_loop_r_last.
    destruct (IH ltac:(intros; apply Hb; lia)) as [[a ->]| ->].
    + simpl. apply Hb. lia.
    + right. reflexivity.
Qed.

(** an iteration that always fails makes the loop fail *)
Lemma for_loop_r_fails msg n body s k :
  (forall i acc, i < n -> fails_only_with msg (body i acc)) ->
  k < n -> (forall acc, body k acc = Err msg) ->
  for_loop_r n body s = Err msg.
Proof.
  intros Hb Hk Hfail. induction n as [|n IH]; [lia|].
  rewrite for_loop_r_last.
  destruct (Nat.eq_dec k n) as [->|Hne].
  - destruct (for_loop_r_fails_only msg n body s
                ltac:(intros; apply Hb; lia)) as [[a ->]| ->].
    + simpl. apply Hfail.
    + reflexivity.
  - rewrite IH; [reflexivity| |lia]. intros i acc Hi. apply Hb. lia.
Qed.
End FallibleLoops.

Section CreateProps.
Context {F : NumType}.
Variable CheckAttr : string -> mjModel F -> Z -> bool.
Variable strtod : string -> F.
Implicit Types (m : mjModel F) (d : mjData F).

Lemma find_flex_not_3D m (b nv0 : nat) i j :
  i < nflex m -> j < flex_vertnum m !!! i ->
  flex_vertbodyid m !!! (flex_vertadr m !!! i + j) = b ->
  flex_dim m !!! i <> 3 ->
  find_flex m (Some b) nv0 =
  Err "mujoco.elasticity.solid requires a 3D mesh".
Proof.
  intros Hi Hj Hb Hdim. unfold find_flex.
  set (msg := "mujoco.elasticity.solid requires a 3D mesh"%string).
  assert (Hin : forall i' j' acc,
    fails_only_with msg
      (if Nat.eqb (flex_vertbodyid m !!! (flex_vertadr m !!! i' + j')) b
       then if negb (Nat.eqb (flex_dim m !!! i') 3)
            then Err msg
            else Ok (Some i', flex_vertnum m !!! i')
       else Ok acc)).
  { intros i' j' acc.
    destruct (Nat.eqb _ b); [|left; eexists; reflexivity].
    destruct (negb _); [right; reflexivity|left; eexists; reflexivity]. }
  apply (for_loop_r_fails msg (nflex m) _ _ i).
  - intros i' acc _. apply for_loop_r_fails_only. intros j' acc' _. apply Hin.
  - exact Hi.
  - intros acc. apply (for_loop_r_fails msg _ _ _ j).
    + intros j' acc' _. apply Hin.
    + exact Hj.
    + intros acc'. rewrite Hb, Nat.eqb_refl.
      rewrite (proj2 (Nat.eqb_neq _ _) Hdim). reflexivity.
Qed.

(** C8 (amended). [Create] returns the no-instance value exactly when
    one of the attributes face, edge, poisson, young is rejected by
    [CheckAttr]; when the four are accepted it runs the constructor on
    whatever numbers [strtod] reads for poisson, young and damping, with
    no check of their ranges and no check of the rest geometry, and its
    outcome is the constructor's: an instance, or a fatal [mju_error].  In
    particular a flex of dimension other than 3 that holds a vertex of the
    plugin body ends in the fatal error "requires a 3D mesh", not in the
    no-instance value. *)
Theorem Create_no_instance m d instance :
  (attributes_accepted CheckAttr m instance = false ->
   Create CheckAttr strtod m d instance = Ok None) /\
  (attributes_accepted CheckAttr m instance = true ->
   Create CheckAttr strtod m d instance =
     bind (Solid_new m d instance
             (strtod (plugin_config m instance "poisson"))
             (strtod (plugin_config m instance "young"))
             (strtod (plugin_config m instance "damping")))
          (fun s => Ok (Some s)) /\
   Create CheckAttr strtod m d instance <> Ok None /\
   (forall b i j,
      snd (count_bodies m instance) = Some b ->
      i < nflex m -> j < flex_vertnum m !!! i ->
      flex_vertbodyid m !!! (flex_vertadr m !!! i + j) = b ->
      flex_dim m !!! i <> 3 ->
      Create CheckAttr strtod m d instance =
      Err "mujoco.elasticity.solid requires a 3D mesh")).
Proof.
  unfold attributes_accepted. split.
  - intros Hc. unfold Create. rewrite Hc. reflexivity.
  - intros Hc.
    assert (Heq : Create CheckAttr strtod m d instance =
      bind (Solid_new m d instance
              (strtod (plugin_config m instance "poisson"))
              (strtod (plugin_config m instance "young"))
              (strtod (plugin_config m instance "damping")))
           (fun s => Ok (Some s))).
    { unfold Create. rewrite Hc. reflexivity. }
    split; [exact Heq|]. split.
    + rewrite Heq. destruct (Solid_new _ _ _ _ _ _); discriminate.
    + intros b i j Hb Hi Hj Hv Hdim. rewrite Heq. unfold Solid_new.
      destruct (count_bodies m instance) as [nv0 i0'] eqn:Hcb.
      simpl in Hb. subst i0'.
      rewrite (find_flex_not_3D m b nv0 i j Hi Hj Hv Hdim). reflexivity.
Qed.
End CreateProps.

(** ** ComputeBasis *)

Section BasisProps.
Context {F : NumType}.
Add Ring num_ring_bp : (F_R (nfield F)).

(** every basis tensor built by the constructor is symmetric, so that on
    these tensors trace(B1 . B2) and trace(B1 . B2^t) coincide *)
Lemma ComputeBasis_symmetric (basis : list F) x v faceL faceR (volume : F) :
  length basis = 9 ->
  tensor_symmetric (ComputeBasis basis x v faceL faceR volume).
Proof.
  intros Hlen i j Hi Hj. unfold ComputeBasis.
  set (normalL := mju_cross _ _). set (normalR := mju_cross _ _).
  set (den := (nconst (36 * 2) * volume * volume)%F).
  set (val := fun i j =>
    ((normalL !!! i * normalR !!! j + normalR !!! i * normalL !!! j) / den)%F).
  assert (Hw : writes
    (fun p w => exists a, a < 3 /\ exists b, b < 3 /\
       (p = 3 * a + b /\ w = val a b))
    (for_loop 3 (fun i => for_loop 3 (fun j basis =>
       <[3 * i + j := val i j]> basis)))).
  { apply (writes_for_loop 3 (fun a p w => exists b, b < 3 /\
       (p = 3 * a + b /\ w = val a b))).
    - intros a Ha.
      apply (writes_for_loop 3 (fun b p w => p = 3 * a + b /\ w = val a b)).
      + intros b Hb. apply writes_insert.
      + intros b b' p w w' Hb Hb' [-> ->] [Hp ->].
        replace b' with b by lia. reflexivity.
    - intros a a' p w w' Ha Ha' (b & Hb & -> & ->) (b' & Hb' & Hp & ->).
      assert (a = a' /\ b = b') as [-> ->] by lia. reflexivity. }
  transitivity (val i j).
  - apply (writes_read _ _ basis (3 * i + j) (val i j) Hw); [lia|].
    exists i. split; [lia|]. exists j. split; [lia|split; reflexivity].
  - symmetry. transitivity (val j i).
    + apply (writes_read _ _ basis (3 * j + i) (val j i) Hw); [lia|].
      exists j. split; [lia|]. exists i. split; [lia|split; reflexivity].
    + unfold val. f_equal. ring.
Qed.
End BasisProps.

Ltac qc_eq := apply Qc_is_canon; vm_compute; reflexivity.
Ltac qc_neq :=
  let H := fresh in
  intro H; apply (f_equal this) in H; vm_compute in H; discriminate H.

(** the constructor on the tetrahedron: four vertices, six edges, plugin
    body 1, flex 0, empty history *)
Example Create_tet :
  match Create Tet.CheckAttr_int Tet.strtod_int Tet.m0 Tet.d0 0 with
  | Ok (Some (s, st)) =>
      (i0 s, f0 s, nv s, ne s, length (elongation s), length (force s),
       length (prev s), length st) = (1, 0, 4, 6, 6, 12, 0, 21)
  | _ => False
  end.
Proof. vm_compute. reflexivity. Qed.

(** one step on the tetrahedron dilated by 2: the elongations are
    d^2 - r^2, the forces pull the vertices inwards, the fast path copies
    them to the generalized force, and the history is the reference
    lengths *)
Example Compute_tet :
  let r := Compute Tet.pinned_applyFT Tet.s0 Tet.m1 Tet.d0 in
  map this (elongation (fst r)) =
    map inject_Z [41067; 46875; 5808; 178608; 172800; 213867]%Z /\
  map this (force (fst r)) =
    map inject_Z [14040000; 5280000; 2574000;  0; -5280000; 0;
                  -14040000; 0; 0;  0; 0; -2574000]%Z /\
  map this (qfrc_passive (snd r)) = map this (force (fst r)) /\
  map this (prev (fst r)) = map inject_Z Tet.rest_lengths.
Proof. vm_compute. repeat split; reflexivity. Qed.

(** ** Instances of the theorems *)

Lemma ComputeForce_contract_witness :
  (0 < kNumVerts Stencil3D /\ 0 < kNumEdges Stencil3D /\
   0 < length Tet.zero_force) /\
  element_force Stencil3D Tet.elongation0 Tet.m1 0 Tet.xpos0 0 !!! (3 * 0 + 0) =
  (- sumn (kNumEdges Stencil3D) (fun i =>
       sumn (kNumEdges Stencil3D) (fun j => sumn 2 (fun s =>
         if Nat.eqb (edge Stencil3D j s) 0
         then (element_elongation Stencil3D Tet.elongation0 Tet.m1 0 0 i *
               edge_gradient Stencil3D Tet.xpos0 (elem_verts Tet.m1 0 0) j s 0 *
               element_metric Stencil3D Tet.m1 0 0 i j)%F
         else nzero))))%F.
Proof.
  split; [simpl; lia|].
  apply (ComputeForce_contract Stencil3D Tet.zero_force Tet.elongation0 Tet.m1
           0 Tet.xpos0 0 0 0 0 0 0); simpl; lia.
Defined.

Lemma Compute_elongation_formula_witness :
  (0 < ne Tet.s1 /\ length (elongation Tet.s1) = ne Tet.s1) /\
  elongation (fst (Compute Tet.pinned_applyFT Tet.s1 Tet.m1 Tet.d0)) !!! 0 =
  ((deformed_length Tet.s1 Tet.m1 Tet.d0 0 * deformed_length Tet.s1 Tet.m1 Tet.d0 0 -
    reference_length Tet.s1 Tet.m1 0 * reference_length Tet.s1 Tet.m1 0) +
   damping_rate Tet.s1 Tet.m1 *
   (deformed_length Tet.s1 Tet.m1 Tet.d0 0 * deformed_length Tet.s1 Tet.m1 Tet.d0 0 -
    previous_lengths Tet.s1 Tet.m1 !!! 0 * previous_lengths Tet.s1 Tet.m1 !!! 0))%F.
Proof.
  split; [simpl; lia|].
  apply (Compute_elongation_formula Tet.pinned_applyFT Tet.s1 Tet.m1 Tet.d0 0);
    simpl; lia.
Defined.

Lemma MetricTensor_packed_entry_witness :
  ((forall e, e < kNumEdges Stencil2D ->
      tensor_symmetric (Tet.sym_basis !!! e)) /\
   0 <= 1 < kNumEdges Stencil2D /\
   21 * 0 + packed_index (kNumEdges Stencil2D) 0 1 <
     length (replicate 21 (z2q 0))) /\
  exists metric',
    MetricTensor Stencil2D (replicate 21 (z2q 0)) 0 (z2q 1) (z2q 1)
                 Tet.sym_basis = Ok metric' /\
    metric' !!! (21 * 0 + packed_index (kNumEdges Stencil2D) 0 1) =
    (z2q 1 * tensor_contract_t (Tet.sym_basis !!! 0) (Tet.sym_basis !!! 1) +
     z2q 1 * tensor_trace (Tet.sym_basis !!! 0) *
     tensor_trace (Tet.sym_basis !!! 1))%F.
Proof.
  assert (Hsym : forall e, e < kNumEdges Stencil2D ->
                   tensor_symmetric (Tet.sym_basis !!! e)).
  { intros e He i j Hi Hj. simpl in He.
    do 3 (destruct e as [|e]; [
      do 3 (destruct i as [|i]; [
        do 3 (destruct j as [|j]; [reflexivity|]); lia|]); lia|]).
    lia. }
  assert (Hij : 0 <= 1 < kNumEdges Stencil2D) by (simpl; lia).
  assert (Hlen : 21 * 0 + packed_index (kNumEdges Stencil2D) 0 1 <
                 length (replicate 21 (z2q 0))) by (vm_compute; lia).
  split; [split; [exact Hsym|split; [exact Hij|exact Hlen]]|].
  destruct (MetricTensor_packed_entry Stencil2D (replicate 21 (z2q 0)) 0
              (z2q 1) (z2q 1) Tet.sym_basis 0 1 Hsym Hij Hlen)
    as (metric' & Hok & _ & Hval).
  exists metric'. split; assumption.
Defined.

(** The contraction that [MetricTensor] evaluates is the sum of
    B[i][a][b]*B[j][b][a]; the symmetry of the tensors is what makes it the
    double contraction.  On a tensor that is not symmetric, which the
    constructor never builds, the two differ: with B[0] = e0 (x) e1, mu = 1
    and la = 0, the packed entry (0,0) is 0, while trace(B[0] . B[0]^t) is
    1. *)
Lemma MetricTensor_contraction_asymmetric :
  exists metric',
    MetricTensor Stencil2D (replicate 21 (z2q 0)) 0 (z2q 1) (z2q 0)
                 Tet.skew_basis = Ok metric' /\
    metric' !!! (21 * 0 + packed_index (kNumEdges Stencil2D) 0 0) = z2q 0 /\
    (z2q 1 * tensor_contract_t (Tet.skew_basis !!! 0) (Tet.skew_basis !!! 0) +
     z2q 0 * tensor_trace (Tet.skew_basis !!! 0) *
     tensor_trace (Tet.skew_basis !!! 0))%F = z2q 1 /\
    z2q 0 <> z2q 1.
Proof.
  eexists. split; [apply MetricTensor_ok|].
  split; [qc_eq|]. split; [qc_eq|qc_neq].
Qed.

Lemma MetricTensor_unpacked_symmetric_witness :
  (0 < kNumEdges Stencil3D /\ 1 < kNumEdges Stencil3D) /\
  exists metric',
    MetricTensor Stencil3D (replicate 21 (z2q 0)) 0 (z2q 1) (z2q 1)
                 Tet.skew_basis = Ok metric' /\
    fst (unpack_metric Stencil3D (ptr metric' 0) 0)
      !!! (kNumEdges Stencil3D * 0 + 1) =
    fst (unpack_metric Stencil3D (ptr metric' 0) 0)
      !!! (kNumEdges Stencil3D * 1 + 0).
Proof.
  split; [simpl; lia|].
  apply (fun H1 H2 => proj2 (MetricTensor_unpacked_symmetric Stencil3D (replicate 21 (z2q 0)) 0
           (z2q 1) (z2q 1) Tet.skew_basis 0 1 H1 H2)); simpl; lia.
Defined.

Lemma element_force_conservation_witness :
  0 < 3 /\
  sumn (kNumVerts Stencil3D) (fun w =>
    element_force Stencil3D Tet.elongation0 Tet.m1 0 Tet.xpos0 0
      !!! (3 * w + 0)) = nzero /\
  element_force Stencil3D Tet.elongation0 Tet.m1 0 Tet.xpos0 0 !!! 0 <> nzero.
Proof.
  split; [lia|]. split.
  - apply (element_force_conservation Stencil3D Tet.elongation0 Tet.m1 0
             Tet.xpos0 0 0). lia.
  - qc_neq.
Defined.

Lemma Compute_prev_update_witness :
  (prev Tet.s1 = [] \/ length (prev Tet.s1) = ne Tet.s1) /\
  nltb nzero (damping_rate Tet.s1 Tet.m1) = true /\
  prev (fst (Compute Tet.pinned_applyFT Tet.s1 Tet.m1 Tet.d0)) =
    map (deformed_length Tet.s1 Tet.m1 Tet.d0) (seq 0 (ne Tet.s1)) /\
  (damping Tet.s0 = nzero /\ opt_timestep Tet.m1 <> nzero) /\
  prev (fst (Compute Tet.pinned_applyFT Tet.s0 Tet.m1 Tet.d0)) =
    map (reference_length Tet.s0 Tet.m1) (seq 0 (ne Tet.s0)).
Proof.
  assert (H1 : prev Tet.s1 = [] \/ length (prev Tet.s1) = ne Tet.s1)
    by (left; reflexivity).
  assert (Hk : nltb nzero (damping_rate Tet.s1 Tet.m1) = true)
    by (vm_compute; reflexivity).
  assert (H0 : prev Tet.s0 = [] \/ length (prev Tet.s0) = ne Tet.s0)
    by (left; reflexivity).
  assert (Hd : damping Tet.s0 = nzero) by qc_eq.
  assert (Hts : opt_timestep Tet.m1 <> nzero) by qc_neq.
  split; [exact H1|]. split; [exact Hk|]. split.
  - exact (proj1 (Compute_prev_update Tet.pinned_applyFT Tet.s1 Tet.m1 Tet.d0
                    H1) Hk).
  - split; [split; [exact Hd|exact Hts]|].
    destruct (proj2 (proj2 (Compute_prev_update Tet.pinned_applyFT Tet.s0
                              Tet.m1 Tet.d0 H0)) Hd Hts)
      as (_ & _ & Hinit & _).
    apply Hinit. reflexivity.
Defined.

Lemma AddFlexForce_vertex_paths_witness :
  (body_simple Tet.m_pinned !!! vertex_body Tet.m_pinned 0 0 <> 2 /\
   AddFlexForce_vertex Tet.pinned_applyFT Tet.force123 Tet.m_pinned Tet.d0
     Tet.xpos0 0 0 Tet.qfrc000 =
   Tet.pinned_applyFT Tet.m_pinned Tet.d0
     (Tet.force123 !!! (3 * 0), Tet.force123 !!! (3 * 0 + 1),
      Tet.force123 !!! (3 * 0 + 2))
     None (Tet.xpos0 (3 * 0), Tet.xpos0 (3 * 0 + 1), Tet.xpos0 (3 * 0 + 2))
     (vertex_body Tet.m_pinned 0 0) Tet.qfrc000) /\
  (body_simple Tet.m1 !!! vertex_body Tet.m1 0 1 = 2 /\
   body_dofnum Tet.m1 !!! vertex_body Tet.m1 0 1 = 3 /\
   AddFlexForce_vertex Tet.pinned_applyFT Tet.elongation0 Tet.m1 Tet.d0
     Tet.xpos0 0 1 Tet.zero_force
     !!! (body_dofadr Tet.m1 !!! vertex_body Tet.m1 0 1 + 2) =
   (Tet.zero_force !!! (body_dofadr Tet.m1 !!! vertex_body Tet.m1 0 1 + 2)%nat +
    Tet.elongation0 !!! (3 * 1 + 2)%nat)%F).
Proof.
  split.
  - assert (Hs : body_simple Tet.m_pinned !!! vertex_body Tet.m_pinned 0 0 <> 2)
      by (vm_compute; lia).
    split; [exact Hs|].
    exact (proj1 (proj2 (AddFlexForce_vertex_paths Tet.pinned_applyFT
                           Tet.force123 Tet.m_pinned Tet.d0 Tet.xpos0 0 0
                           Tet.qfrc000)) Hs).
  - assert (Hs : body_simple Tet.m1 !!! vertex_body Tet.m1 0 1 = 2)
      by reflexivity.
    assert (Hn : body_dofnum Tet.m1 !!! vertex_body Tet.m1 0 1 = 3)
      by reflexivity.
    split; [exact Hs|]. split; [exact Hn|].
    apply (proj2 (proj2 (proj2 (AddFlexForce_vertex_paths Tet.pinned_applyFT
                                  Tet.elongation0 Tet.m1 Tet.d0 Tet.xpos0 0 1
                                  Tet.zero_force)) Hs) Hn 2);
      [lia|vm_compute; lia].
Defined.

Lemma AddFlexForce_fast_path_witness :
  (body_simple Tet.m_slider !!! vertex_body Tet.m_slider 0 0 = 2 /\
   AddFlexForce_vertex Tet.pinned_applyFT Tet.force123 Tet.m_slider Tet.d0
     Tet.xpos0 0 0 Tet.qfrc000 !!! 2 = Tet.qfrc000 !!! 2) /\
  (body_simple Tet.m_pinned !!! vertex_body Tet.m_pinned 0 0 <> 2 /\
   AddFlexForce_vertex Tet.pinned_applyFT Tet.force123 Tet.m_pinned Tet.d0
     Tet.xpos0 0 0 Tet.qfrc000 =
   Tet.pinned_applyFT Tet.m_pinned Tet.d0 (read3 (ptr Tet.force123 (3 * 0)))
     None (read3 (fun i => Tet.xpos0 (3 * 0 + i)))
     (vertex_body Tet.m_pinned 0 0) Tet.qfrc000).
Proof.
  split.
  - assert (Hs : body_simple Tet.m_slider !!! vertex_body Tet.m_slider 0 0 = 2)
      by reflexivity.
    split; [exact Hs|].
    destruct (proj1 (AddFlexForce_fast_path Tet.pinned_applyFT Tet.force123
                       Tet.m_slider Tet.d0 Tet.xpos0 0 0 Tet.qfrc000) Hs)
      as (_ & _ & Hframe & _).
    apply Hframe. vm_compute. lia.
  - assert (Hs : body_simple Tet.m_pinned !!! vertex_body Tet.m_pinned 0 0 <> 2)
      by (vm_compute; lia).
    split; [exact Hs|].
    exact (proj2 (AddFlexForce_fast_path Tet.pinned_applyFT Tet.force123
                    Tet.m_pinned Tet.d0 Tet.xpos0 0 0 Tet.qfrc000) Hs).
Defined.

Lemma Create_no_instance_witness :
  (attributes_accepted Tet.CheckAttr_int Tet.m_missing 0 = false /\
   Create Tet.CheckAttr_int Tet.strtod_int Tet.m_missing Tet.d0 0 = Ok None) /\
  (attributes_accepted Tet.CheckAttr_int Tet.m0 0 = true /\
   Create Tet.CheckAttr_int Tet.strtod_int Tet.m0 Tet.d0 0 <> Ok None).
Proof.
  split.
  - assert (Hc : attributes_accepted Tet.CheckAttr_int Tet.m_missing 0 = false)
      by (vm_compute; reflexivity).
    split; [exact Hc|].
    exact (proj1 (Create_no_instance Tet.CheckAttr_int Tet.strtod_int
                    Tet.m_missing Tet.d0 0) Hc).
  - assert (Hc : attributes_accepted Tet.CheckAttr_int Tet.m0 0 = true)
      by (vm_compute; reflexivity).
    split; [exact Hc|].
    exact (proj1 (proj2 (proj2 (Create_no_instance Tet.CheckAttr_int
                                  Tet.strtod_int Tet.m0 Tet.d0 0) Hc))).
Defined.

(** ** Where the code departs from the specification *)

(** C6 as stated fails on the first call: with damping coefficient 0 and
    nothing stored yet, the step fills the previous-length buffer with the
    reference lengths. *)
Lemma Compute_undamped_history_counterexample :
  damping Tet.s0 = nzero /\
  prev Tet.s0 = [] /\
  map this (prev (fst (Compute Tet.pinned_applyFT Tet.s0 Tet.m1 Tet.d0))) =
    map inject_Z Tet.rest_lengths /\
  prev (fst (Compute Tet.pinned_applyFT Tet.s0 Tet.m1 Tet.d0)) <> prev Tet.s0.
Proof.
  split; [qc_eq|]. split; [reflexivity|]. split.
  - vm_compute. reflexivity.
  - intros H. apply (f_equal (@length _)) in H. vm_compute in H. discriminate H.
Qed.

(** The timestep of C6 must not be zero: on doubles, with damping
    coefficient 0 and timestep 0, kD = 0/0 is not a number, and neither
    are the elongations. *)
Lemma Compute_zero_timestep :
  damping Tet64.s0 = nzero /\
  opt_timestep Tet64.m_frozen = nzero /\
  PrimFloat.is_nan
    (elongation (fst (Compute Tet64.pinned_applyFT Tet64.s0 Tet64.m_frozen
                         Tet64.d0)) !!! 0) = true.
Proof. repeat split; vm_compute; reflexivity. Qed.

(** C5 as stated fails on doubles: on the tetrahedron with the stiffness
    that the constructor computes, elongations 1..6 and a deformed
    placement, none of the three components of the element forces adds up
    to zero over the four vertices. *)
Lemma element_force_conservation_counterexample :
  sumn (kNumVerts Stencil3D) (fun w =>
    element_force Stencil3D Tet64.elongation1 Tet64.m1 0 Tet64.xpos1 0
      !!! (3 * w + 0)) <> (nzero : Float64) /\
  PrimFloat.eqb
    (sumn (kNumVerts Stencil3D) (fun w =>
       element_force Stencil3D Tet64.elongation1 Tet64.m1 0 Tet64.xpos1 0
         !!! (3 * w + 0))) 0%float = false /\
  PrimFloat.eqb
    (sumn (kNumVerts Stencil3D) (fun w =>
       element_force Stencil3D Tet64.elongation1 Tet64.m1 0 Tet64.xpos1 0
         !!! (3 * w + 1))) 0%float = false /\
  PrimFloat.eqb
    (sumn (kNumVerts Stencil3D) (fun w =>
       element_force Stencil3D Tet64.elongation1 Tet64.m1 0 Tet64.xpos1 0
         !!! (3 * w + 2))) 0%float = false.
Proof.
  split; [|repeat split; vm_compute; reflexivity].
  intros H.
  apply (f_equal (fun z : Float64 => PrimFloat.eqb z 0%float)) in H.
  vm_compute in H. discriminate H.
Qed.

(** C7 as stated fails on a simple body with a single slider: of the force
    (1, 2, 3) only the first component reaches the generalized force. *)
Lemma AddFlexForce_slider_counterexample :
  body_simple Tet.m_slider !!! vertex_body Tet.m_slider 0 0 = 2 /\
  map this (AddFlexForce_vertex Tet.pinned_applyFT Tet.force123 Tet.m_slider
              Tet.d0 Tet.xpos0 0 0 Tet.qfrc000) = map inject_Z [1; 0; 0]%Z /\
  AddFlexForce_vertex Tet.pinned_applyFT Tet.force123 Tet.m_slider
    Tet.d0 Tet.xpos0 0 0 Tet.qfrc000
    !!! (body_dofadr Tet.m_slider !!! vertex_body Tet.m_slider 0 0 + 1) <>
  (Tet.qfrc000 !!! (body_dofadr Tet.m_slider !!! vertex_body Tet.m_slider 0 0 + 1)%nat
   + Tet.force123 !!! (3 * 0 + 1)%nat)%F.
Proof.
  split; [reflexivity|]. split; [vm_compute; reflexivity|qc_neq].
Qed.

(** C8 as stated fails in each of its cases: a damping coefficient out
    of range (-3), which no attribute check ever looks at, material
    parameters out of range (Young's modulus -1, Poisson's ratio 2) and a
    rest geometry of volume zero all yield an instance, and a flex of
    dimension 2 ends in the fatal error, which is not the no-instance
    value. *)
Lemma Create_unchecked_counterexample :
  (this (Tet.strtod_int (plugin_config Tet.m_bad_damping 0 "damping")) =
     inject_Z (-3) /\
   creates_instance
     (Create Tet.CheckAttr_int Tet.strtod_int Tet.m_bad_damping Tet.d0 0)) /\
  (map this [Tet.strtod_int (plugin_config Tet.m_bad_material 0 "young");
             Tet.strtod_int (plugin_config Tet.m_bad_material 0 "poisson")] =
     map inject_Z [-1; 2]%Z /\
   creates_instance
     (Create Tet.CheckAttr_int Tet.strtod_int Tet.m_bad_material Tet.d0 0)) /\
  (ComputeVolume (ptr (flex_xvert0 Tet.m_flat) 0) (elem_verts Tet.m_flat 0 0) =
     nzero /\
   creates_instance
     (Create Tet.CheckAttr_int Tet.strtod_int Tet.m_flat Tet.d0 0)) /\
  (flex_dim Tet.m_2d !!! 0 = 2 /\
   Create Tet.CheckAttr_int Tet.strtod_int Tet.m_2d Tet.d0 0 =
     Err "mujoco.elasticity.solid requires a 3D mesh" /\
   Create Tet.CheckAttr_int Tet.strtod_int Tet.m_2d Tet.d0 0 <> Ok None).
Proof.
  split; [|split; [|split]].
  - split; [vm_compute; reflexivity|vm_compute; exact I].
  - split; [vm_compute; reflexivity|vm_compute; exact I].
  - split; [qc_eq|vm_compute; exact I].
  - split; [reflexivity|].
    assert (H : Create Tet.CheckAttr_int Tet.strtod_int Tet.m_2d Tet.d0 0 =
                Err "mujoco.elasticity.solid requires a 3D mesh")
      by (vm_compute; reflexivity).
    split; [exact H|]. rewrite H. discriminate.
Qed.

(** * Further properties of the code *)

(** ** MetricTensor: the packed block *)

Section MetricTensorBlock.
Context {F : NumType}.
Add Ring num_ring_mb : (F_R (nfield F)).
Implicit Types (T : Stencil) (basis : list (list F)).

(** the value that the copy loop leaves in the slot of the pair (i,j) *)
Lemma MetricTensor_copy_entry T (metric : list F) idx (mu la : F) basis i j :
  i <= j < kNumEdges T ->
  21 * idx + tri_pos (kNumEdges T) i j < length metric ->
  fst (MetricTensor_copy T metric idx
         (MetricTensor_k T mu la (MetricTensor_trE T basis)
                          (MetricTensor_trEE T basis)))
    !!! (21 * idx + tri_pos (kNumEdges T) i j) =
  (mu * tensor_contract (basis !!! i) (basis !!! j) +
   la * tensor_trace (basis !!! i) * tensor_trace (basis !!! j))%F.
Proof.
  intros Hij Hlen.
  set (k := MetricTensor_k T mu la _ _).
  pose proof (MetricTensor_copy_writes T idx k) as Hw.
  rewrite (writes_read _ _ metric _ (k !!! (kNumEdges T * i + j)) Hw Hlen).
  - unfold k. rewrite MetricTensor_k_spec by lia.
    rewrite MetricTensor_trEE_spec by lia.
    rewrite !MetricTensor_trE_spec by lia. ring.
  - exists i. split; [lia|]. exists j. split; [lia|]. split; reflexivity.
Qed.

(** X1. [MetricTensor] writes inside the block of its element only: every
    slot of the stiffness buffer before [21*idx] or from
    [21*idx + E(E+1)/2] on keeps its value, and the buffer keeps its
    length. *)
Theorem MetricTensor_frame T (metric : list F) idx (mu la : F) basis p :
  p < 21 * idx \/ 21 * idx + kNumEdges T * (kNumEdges T + 1) / 2 <= p ->
  exists metric',
    MetricTensor T metric idx mu la basis = Ok metric' /\
    length metric' = length metric /\
    metric' !!! p = metric !!! p.
Proof.
  intros Hp. eexists. split; [apply MetricTensor_ok|].
  set (k := MetricTensor_k T mu la _ _).
  pose proof (MetricTensor_copy_writes T idx k) as Hw.
  split; [apply (writes_length _ _ metric Hw)|].
  apply (writes_frame _ _ metric p Hw).
  intros v (a & Ha & b & Hb & Heq & _).
  pose proof (tri_pos_lt_total (kNumEdges T) a b Hb). lia.
Qed.

(** X2. Packing and unpacking are inverse on the assembled matrix: when
    the block of element [idx] lies inside the stiffness buffer, the full
    E x E matrix that [ComputeForce] unpacks from the output of
    [MetricTensor] has, in every slot (i,j), the value
    mu*trace(B[i] . B[j]) + la*trace(B[i])*trace(B[j]). *)
Theorem MetricTensor_unpack_roundtrip T (metric : list F) idx (mu la : F)
    basis i j :
  i < kNumEdges T -> j < kNumEdges T ->
  21 * idx + kNumEdges T * (kNumEdges T + 1) / 2 <= length metric ->
  exists metric',
    MetricTensor T metric idx mu la basis = Ok metric' /\
    fst (unpack_metric T (ptr metric' 0) idx) !!! (kNumEdges T * i + j) =
    (mu * tensor_contract (basis !!! i) (basis !!! j) +
     la * tensor_trace (basis !!! i) * tensor_trace (basis !!! j))%F.
Proof.
  intros Hi Hj Hlen. eexists. split; [apply MetricTensor_ok|].
  rewrite unpack_metric_packed by assumption. unfold ptr.
  rewrite Nat.add_0_l.
  destruct (Nat.le_gt_cases i j) as [Hle|Hgt].
  - rewrite Nat.min_l, Nat.max_r by lia.
    rewrite <- tri_pos_packed_index by lia.
    pose proof (tri_pos_lt_total (kNumEdges T) i j ltac:(lia)).
    apply MetricTensor_copy_entry; lia.
  - rewrite Nat.min_r, Nat.max_l by lia.
    rewrite <- tri_pos_packed_index by lia.
    pose proof (tri_pos_lt_total (kNumEdges T) j i ltac:(lia)).
    rewrite MetricTensor_copy_entry by lia.
    rewrite (tensor_contract_comm (basis !!! j) (basis !!! i)). ring.
Qed.
End MetricTensorBlock.

Lemma MetricTensor_frame_witness :
  (21 <= 30 /\ 21 * 1 + kNumEdges Stencil3D * (kNumEdges Stencil3D + 1) / 2 <= 42) /\
  exists metric',
    MetricTensor Stencil3D (replicate 63 (z2q 7)) 1 (z2q 1) (z2q 1)
                 Tet.skew_basis = Ok metric' /\
    length metric' = length (replicate 63 (z2q 7)) /\
    metric' !!! 42 = replicate 63 (z2q 7) !!! 42.
Proof.
  split; [vm_compute; lia|].
  apply (MetricTensor_frame Stencil3D (replicate 63 (z2q 7)) 1 (z2q 1) (z2q 1)
           Tet.skew_basis 42).
  right. vm_compute. lia.
Defined.

Lemma MetricTensor_unpack_roundtrip_witness :
  (1 < kNumEdges Stencil2D /\ 0 < kNumEdges Stencil2D /\
   21 * 0 + kNumEdges Stencil2D * (kNumEdges Stencil2D + 1) / 2 <=
     length (replicate 21 (z2q 0))) /\
  exists metric',
    MetricTensor Stencil2D (replicate 21 (z2q 0)) 0 (z2q 1) (z2q 1)
                 Tet.skew_basis = Ok metric' /\
    fst (unpack_metric Stencil2D (ptr metric' 0) 0)
      !!! (kNumEdges Stencil2D * 1 + 0) =
    (z2q 1 * tensor_contract (Tet.skew_basis !!! 1) (Tet.skew_basis !!! 0) +
     z2q 1 * tensor_trace (Tet.skew_basis !!! 1) *
     tensor_trace (Tet.skew_basis !!! 0))%F.
Proof.
  split; [vm_compute; lia|].
  apply (MetricTensor_unpack_roundtrip Stencil2D (replicate 21 (z2q 0)) 0
           (z2q 1) (z2q 1) Tet.skew_basis 1 0); vm_compute; lia.
Defined.

(** ** ComputeForce: the slots that receive force *)

Section ComputeForceMore.
Context {F : NumType}.
Add Ring num_ring_cm : (F_R (nfield F)).
Implicit Types (T : Stencil) (m : mjModel F) (xpos : nat -> F).

Lemma sumn_all_zero n (f : nat -> F) :
  (forall i, i < n -> f i = nzero) -> sumn n f = nzero.
Proof.
  intros H. rewrite (sumn_ext n f (fun _ => nzero) H). apply sumn_zero.
Qed.

(** X7. [ComputeForce] puts force only on vertices of elements: a slot that
    is not a component of a vertex of an element of the flex is zero in the
    result, whatever the buffer held before. *)
Theorem ComputeForce_untouched T (qfrc_passive elongationglob : list F)
    m flex xpos p :
  (forall t i x, t < flex_elemnum m !!! flex -> i < kNumVerts T -> x < 3 ->
     p <> 3 * elem_verts m flex t i + x) ->
  ComputeForce T qfrc_passive elongationglob m flex xpos !!! p = nzero.
Proof.
  intros Hne.
  destruct (ComputeForce_spec T qfrc_passive elongationglob m flex xpos)
    as [Hlen Hread].
  destruct (Nat.lt_ge_cases p (length qfrc_passive)) as [Hp|Hp].
  - rewrite (Hread p Hp). apply sumn_all_zero. intros t Ht.
    apply sumn_all_zero. intros i Hi. apply sumn_all_zero. intros x Hx.
    rewrite (proj2 (Nat.eqb_neq _ _) (Hne t i x Ht Hi Hx)). reflexivity.
  - rewrite list_lookup_total_alt.
    rewrite (proj2 (lookup_ge_None _ _)) by lia. reflexivity.
Qed.
End ComputeForceMore.

Lemma ComputeForce_untouched_witness :
  ComputeForce Stencil3D (replicate 15 (z2q 1)) Tet.elongation0 Tet.m1 0
    Tet.xpos0 !!! 12 = nzero.
Proof.
  apply (ComputeForce_untouched Stencil3D (replicate 15 (z2q 1))
           Tet.elongation0 Tet.m1 0 Tet.xpos0 12).
  intros t i x Ht Hi Hx. vm_compute in Ht. assert (t = 0) as -> by lia.
  simpl in Hi.
  do 4 (destruct i as [|i]; [vm_compute; lia|]). lia.
Defined.

(** ** AddFlexForce: the whole scatter *)

Section ScatterMore.
Context {F : NumType}.
Add Ring num_ring_sm : (F_R (nfield F)).
Implicit Types (m : mjModel F) (d : mjData F) (xpos : nat -> F)
         (force qfrc : list F).

Lemma AddFlexForce_vertex_accum mj_applyFT force m d xpos f0 v :
  body_simple m !!! vertex_body m f0 v = 2 ->
  accum (fast_path_share force m f0 v)
        (AddFlexForce_vertex mj_applyFT force m d xpos f0 v).
Proof.
  intros Hs qfrc.
  destruct (AddFlexForce_vertex_simple mj_applyFT force m d xpos f0 v qfrc Hs)
    as [Hlen Hread].
  split; [exact Hlen|]. intros p Hp. rewrite (Hread p Hp).
  unfold fast_path_share. destruct (_ && _)%bool; [reflexivity|ring].
Qed.

(** X8. When every vertex of the flex belongs to a simple body with
    sliders only, the scatter keeps the length of the generalized force,
    adds to each slot the shares of all the vertices whose degrees of
    freedom cover it, and never calls [mj_applyFT]: the result is the same
    for any two host routines. *)
Theorem AddFlexForce_all_simple mj_applyFT mj_applyFT' force m d xpos f0 qfrc p :
  (forall v, v < flex_vertnum m !!! f0 ->
     body_simple m !!! vertex_body m f0 v = 2) ->
  p < length qfrc ->
  length (AddFlexForce mj_applyFT qfrc force m d xpos f0) = length qfrc /\
  AddFlexForce mj_applyFT qfrc force m d xpos f0 !!! p =
    (qfrc !!! p +
     sumn (flex_vertnum m !!! f0) (fun v => fast_path_share force m f0 v p))%F /\
  AddFlexForce mj_applyFT' qfrc force m d xpos f0 =
    AddFlexForce mj_applyFT qfrc force m d xpos f0.
Proof.
  intros Hs Hp. unfold AddFlexForce.
  pose proof (accum_for_loop (flex_vertnum m !!! f0)
    (fun v p => fast_path_share force m f0 v p)
    (AddFlexForce_vertex mj_applyFT force m d xpos f0)
    (fun v Hv => AddFlexForce_vertex_accum mj_applyFT force m d xpos f0 v
                   (Hs v Hv))) as Hacc.
  destruct (Hacc qfrc) as [Hlen Hread].
  split; [exact Hlen|]. split; [exact (Hread p Hp)|].
  apply for_loop_ext. intros v acc Hv. unfold AddFlexForce_vertex.
  fold (vertex_body m f0 v). rewrite (Hs v Hv). reflexivity.
Qed.
End ScatterMore.

Lemma AddFlexForce_all_simple_witness :
  4 < length Tet.zero_force /\
  AddFlexForce Tet.pinned_applyFT Tet.zero_force Tet.elongation0 Tet.m1 Tet.d0
    Tet.xpos0 0 !!! 4 =
  (Tet.zero_force !!! 4 +
   sumn (flex_vertnum Tet.m1 !!! 0)
        (fun v => fast_path_share Tet.elongation0 Tet.m1 0 v 4))%F.
Proof.
  split; [simpl; lia|].
  apply (AddFlexForce_all_simple Tet.pinned_applyFT Tet.pinned_applyFT
           Tet.elongation0 Tet.m1 Tet.d0 Tet.xpos0 0 Tet.zero_force 4);
    [|simpl; lia].
  intros v Hv. vm_compute in Hv.
  do 4 (destruct v as [|v]; [reflexivity|]). lia.
Defined.

(** ** Solid::Compute: invariants and consecutive steps *)

Lemma list_eq_lookup_total {A : Type} `{!Inhabited A} (l1 l2 : list A) :
  length l1 = length l2 ->
  (forall p, p < length l1 -> l1 !!! p = l2 !!! p) ->
  l1 = l2.
Proof.
  intros Hlen H. apply (list_eq_same_length l1 l2 (length l1)); [congruence..|].
  intros p x y Hp Hx Hy.
  rewrite <- (list_lookup_total_correct l1 p x Hx).
  rewrite <- (list_lookup_total_correct l2 p y Hy). apply H, Hp.
Qed.

(** writing the same values twice is writing them once *)
Lemma writes_idempotent {A : Type} `{!Inhabited A} (R : nat -> A -> Prop)
    (f : list A -> list A) s :
  writes R f -> f (f s) = f s.
Proof.
  intros Hw. destruct (Hw s) as [Hl1 Hs1]. destruct (Hw (f s)) as [Hl2 Hs2].
  apply list_eq_lookup_total; [exact Hl2|].
  intros p Hp. rewrite Hl2 in Hp.
  destruct (Hs2 p Hp) as [Hw2 [Heq|[v Hv]]]; [exact Heq|].
  rewrite (Hw2 v Hv). symmetry. apply (Hs1 p ltac:(lia)). exact Hv.
Qed.

Section ComputeMore.
Context {F : NumType}.
Add Field num_field_cm : (nfield F).
Variable mj_applyFT :
  mjModel F -> mjData F -> vec3 F -> option (vec3 F) -> vec3 F -> nat ->
  list F -> list F.
Implicit Types (s : Solid F) (m : mjModel F) (d : mjData F).

Lemma Compute_elongation_length s m d :
  length (elongation (fst (Compute mj_applyFT s m d))) = length (elongation s).
Proof.
  unfold Compute. simpl.
  match goal with
  | |- length (for_loop _ ?body _) = _ =>
      apply (for_loop_inv (fun _ acc => length acc = length (elongation s))
               (ne s) body (elongation s)); [reflexivity|]
  end.
  intros i acc _ Hacc. rewrite length_insert. exact Hacc.
Qed.

Lemma Compute_force_length s m d :
  length (force (fst (Compute mj_applyFT s m d))) = length (force s).
Proof. unfold Compute. simpl. apply ComputeForce_spec. Qed.

Lemma Compute_prev_length s m d :
  prev s = [] \/ length (prev s) = ne s ->
  length (prev (fst (Compute mj_applyFT s m d))) = ne s.
Proof.
  intros Hinv. rewrite Compute_prev.
  pose proof (previous_lengths_length s m Hinv) as Hl.
  destruct (nltb _ _); [|exact Hl].
  rewrite memcpy_length by lia. exact Hl.
Qed.

Lemma Solid_ext (a b : Solid F) :
  i0 a = i0 b -> f0 a = f0 b -> nv a = nv b -> ne a = ne b ->
  damping a = damping b -> elongation a = elongation b ->
  force a = force b -> prev a = prev b -> a = b.
Proof. destruct a, b; simpl; intros; subst; reflexivity. Qed.

(** X9. A step keeps the instance well formed: the plugin body, the flex,
    the counts and the damping coefficient do not change, the elongation
    and force buffers keep their lengths, and afterwards the history has
    exactly one slot per edge. *)
Theorem Compute_preserves_wf s m d :
  Solid_wf s ->
  Solid_wf (fst (Compute mj_applyFT s m d)) /\
  length (prev (fst (Compute mj_applyFT s m d))) = ne s /\
  (i0 (fst (Compute mj_applyFT s m d)), f0 (fst (Compute mj_applyFT s m d)),
   nv (fst (Compute mj_applyFT s m d)), ne (fst (Compute mj_applyFT s m d)),
   damping (fst (Compute mj_applyFT s m d))) =
  (i0 s, f0 s, nv s, ne s, damping s).
Proof.
  intros (He & Hf & Hp).
  pose proof (Compute_prev_length s m d Hp) as Hpl.
  split; [|split; [exact Hpl|reflexivity]].
  split; [|split].
  - rewrite Compute_elongation_length. exact He.
  - rewrite Compute_force_length. exact Hf.
  - right. exact Hpl.
Qed.

(** the step, as far as it does not depend on the stored buffers *)
Lemma Compute_elongation_rewrite s m d :
  elongation (fst (Compute mj_applyFT s m d)) =
  for_loop (ne s) (fun idx elongation =>
    <[idx := (deformed_length s m d idx * deformed_length s m d idx -
              reference_length s m idx * reference_length s m idx +
              (deformed_length s m d idx * deformed_length s m d idx -
               previous_lengths s m !!! idx * previous_lengths s m !!! idx) *
              damping_rate s m)%F]> elongation) (elongation s).
Proof. unfold Compute. simpl. rewrite Compute_prev_initialised. reflexivity. Qed.

Lemma Compute_force_rewrite s m d :
  force (fst (Compute mj_applyFT s m d)) =
  ComputeForce Stencil3D (force s) (elongation (fst (Compute mj_applyFT s m d)))
    m (f0 s) (ptr (flexvert_xpos d) (3 * flex_vertadr m !!! f0 s)).
Proof. reflexivity. Qed.

Lemma Compute_data_rewrite s m d :
  snd (Compute mj_applyFT s m d) =
  MkData F (flexedge_length d) (flexvert_xpos d)
    (AddFlexForce mj_applyFT (qfrc_passive d)
       (force (fst (Compute mj_applyFT s m d))) m d
       (ptr (flexvert_xpos d) (3 * flex_vertadr m !!! f0 s)) (f0 s)).
Proof. reflexivity. Qed.

Lemma ComputeForce_buffer_irrelevant (T : Stencil) (q1 q2 el : list F) m flex xpos :
  length q1 = length q2 ->
  ComputeForce T q1 el m flex xpos = ComputeForce T q2 el m flex xpos.
Proof. intros H. unfold ComputeForce. rewrite H. reflexivity. Qed.

(** X10. Without damping a step can be repeated: on unchanged host data
    the second of two consecutive steps leaves the instance exactly as the
    first one left it and produces the same host data. *)
Theorem Compute_undamped_idempotent s m d :
  damping s = nzero -> Solid_wf s ->
  Compute mj_applyFT (fst (Compute mj_applyFT s m d)) m d =
  Compute mj_applyFT s m d.
Proof.
  intros Hd (He & Hf & Hp).
  set (s1 := fst (Compute mj_applyFT s m d)).
  assert (Hk : damping_rate s m = nzero) by (apply damping_rate_zero, Hd).
  assert (Hk1 : damping_rate s1 m = nzero) by exact Hk.
  set (val := fun idx =>
    (deformed_length s m d idx * deformed_length s m d idx -
     reference_length s m idx * reference_length s m idx)%F).
  assert (Hloop : forall (q : list F) (l : list F),
    for_loop (ne s) (fun idx elongation =>
      <[idx := (deformed_length s m d idx * deformed_length s m d idx -
                reference_length s m idx * reference_length s m idx +
                (deformed_length s m d idx * deformed_length s m d idx -
                 q !!! idx * q !!! idx) * nzero)%F]> elongation) l =
    for_loop (ne s) (fun idx elongation => <[idx := val idx]> elongation) l).
  { intros q l. apply for_loop_ext. intros i acc _. f_equal. unfold val. ring. }
  assert (Hw : writes (fun p v => exists i, i < ne s /\ (p = i /\ v = val i))
                 (for_loop (ne s) (fun idx elongation =>
                    <[idx := val idx]> elongation))).
  { apply (writes_for_loop (ne s) (fun i p v => p = i /\ v = val i)).
    - intros i _. apply (writes_insert i (val i)).
    - intros i i' p v v' _ _ [-> ->] [-> ->]. reflexivity. }
  assert (Hel1 : elongation s1 =
    for_loop (ne s) (fun idx elongation => <[idx := val idx]> elongation)
             (elongation s)).
  { unfold s1. rewrite Compute_elongation_rewrite, Hk. apply Hloop. }
  assert (Hel2 : elongation (fst (Compute mj_applyFT s1 m d)) = elongation s1).
  { rewrite Compute_elongation_rewrite, Hk1.
    change (ne s1) with (ne s).
    change (deformed_length s1 m d) with (deformed_length s m d).
    change (reference_length s1 m) with (reference_length s m).
    rewrite Hloop, Hel1. apply (writes_idempotent _ _ _ Hw). }
  assert (Hfl : length (force s1) = length (force s))
    by apply Compute_force_length.
  assert (Hfo2 : force (fst (Compute mj_applyFT s1 m d)) = force s1).
  { rewrite Compute_force_rewrite, Hel2.
    change (f0 s1) with (f0 s). unfold s1 at 3. rewrite Compute_force_rewrite.
    apply ComputeForce_buffer_irrelevant. exact Hfl. }
  assert (Hpl : length (prev s1) = ne s) by (apply Compute_prev_length, Hp).
  assert (Hpr2 : prev (fst (Compute mj_applyFT s1 m d)) = prev s1).
  { rewrite Compute_prev, Hk1, nltb_irrefl. unfold previous_lengths.
    destruct (prev s1) as [|x l] eqn:Hps; [|reflexivity].
    change (ne s1) with (ne s). simpl in Hpl. rewrite <- Hpl. reflexivity. }
  assert (Hda2 : snd (Compute mj_applyFT s1 m d) = snd (Compute mj_applyFT s m d)).
  { rewrite !Compute_data_rewrite, Hfo2. reflexivity. }
  rewrite (surjective_pairing (Compute mj_applyFT s1 m d)).
  rewrite (surjective_pairing (Compute mj_applyFT s m d)).
  rewrite Hda2. f_equal.
  apply Solid_ext; try reflexivity; assumption.
Qed.
(** X11. With damping (kD > 0) the history makes the damping term compare
    consecutive steps: in the second of two steps the elongation of edge
    [idx] is (d2^2 - r^2) + kD*(d2^2 - d1^2), d1 and d2 being the deformed
    lengths seen by the first and by the second step. *)
Theorem Compute_damped_consecutive s m d1 d2 idx :
  Solid_wf s -> nltb nzero (damping_rate s m) = true -> idx < ne s ->
  elongation (fst (Compute mj_applyFT (fst (Compute mj_applyFT s m d1)) m d2))
    !!! idx =
  ((deformed_length s m d2 idx * deformed_length s m d2 idx -
    reference_length s m idx * reference_length s m idx) +
   damping_rate s m *
   (deformed_length s m d2 idx * deformed_length s m d2 idx -
    deformed_length s m d1 idx * deformed_length s m d1 idx))%F.
Proof.
  intros (He & Hf & Hp) Hk Hi.
  set (s1 := fst (Compute mj_applyFT s m d1)).
  assert (Hprev : prev s1 =
    memcpy (previous_lengths s m) (deformed_length s m d1) (ne s)).
  { unfold s1. rewrite Compute_prev, Hk. reflexivity. }
  assert (Hpl : length (prev s1) = ne s) by (apply Compute_prev_length, Hp).
  assert (Hread : previous_lengths s1 m !!! idx = deformed_length s m d1 idx).
  { assert (Hsame : previous_lengths s1 m = prev s1).
    { unfold previous_lengths. destruct (prev s1) as [|x l] eqn:Hps;
        [|reflexivity].
      simpl in Hpl. lia. }
    rewrite Hsame, Hprev. apply memcpy_read. exact Hi. }
  rewrite Compute_elongation.
  - rewrite Hread.
    change (deformed_length s1 m d2 idx) with (deformed_length s m d2 idx).
    change (reference_length s1 m idx) with (reference_length s m idx).
    change (damping_rate s1 m) with (damping_rate s m). ring.
  - exact Hi.
  - unfold s1. rewrite Compute_elongation_length. lia.
Qed.

End ComputeMore.

Lemma Solid_wf_s0 : Solid_wf Tet.s0.
Proof. repeat split; try reflexivity. left. reflexivity. Qed.

Lemma Solid_wf_s1 : Solid_wf Tet.s1.
Proof. repeat split; try reflexivity. left. reflexivity. Qed.

Lemma Compute_preserves_wf_witness :
  Solid_wf Tet.s1 /\
  Solid_wf (fst (Compute Tet.pinned_applyFT Tet.s1 Tet.m1 Tet.d0)) /\
  length (prev (fst (Compute Tet.pinned_applyFT Tet.s1 Tet.m1 Tet.d0))) =
    ne Tet.s1.
Proof.
  split; [exact Solid_wf_s1|].
  destruct (Compute_preserves_wf Tet.pinned_applyFT Tet.s1 Tet.m1 Tet.d0
              Solid_wf_s1) as (Hwf & Hlen & _).
  split; assumption.
Defined.

Lemma Compute_undamped_idempotent_witness :
  (damping Tet.s0 = nzero /\ Solid_wf Tet.s0) /\
  Compute Tet.pinned_applyFT
    (fst (Compute Tet.pinned_applyFT Tet.s0 Tet.m1 Tet.d0)) Tet.m1 Tet.d0 =
  Compute Tet.pinned_applyFT Tet.s0 Tet.m1 Tet.d0.
Proof.
  assert (Hd : damping Tet.s0 = nzero) by qc_eq.
  split; [split; [exact Hd|exact Solid_wf_s0]|].
  apply (Compute_undamped_idempotent Tet.pinned_applyFT Tet.s0 Tet.m1 Tet.d0 Hd
           Solid_wf_s0).
Defined.

Lemma Compute_damped_consecutive_witness :
  (Solid_wf Tet.s1 /\ nltb nzero (damping_rate Tet.s1 Tet.m1) = true /\
   2 < ne Tet.s1) /\
  elongation (fst (Compute Tet.pinned_applyFT
                     (fst (Compute Tet.pinned_applyFT Tet.s1 Tet.m1 Tet.d_rest))
                     Tet.m1 Tet.d0)) !!! 2 =
  ((deformed_length Tet.s1 Tet.m1 Tet.d0 2 * deformed_length Tet.s1 Tet.m1 Tet.d0 2 -
    reference_length Tet.s1 Tet.m1 2 * reference_length Tet.s1 Tet.m1 2) +
   damping_rate Tet.s1 Tet.m1 *
   (deformed_length Tet.s1 Tet.m1 Tet.d0 2 * deformed_length Tet.s1 Tet.m1 Tet.d0 2 -
    deformed_length Tet.s1 Tet.m1 Tet.d_rest 2 *
    deformed_length Tet.s1 Tet.m1 Tet.d_rest 2))%F.
Proof.
  assert (Hk : nltb nzero (damping_rate Tet.s1 Tet.m1) = true)
    by (vm_compute; reflexivity).
  assert (Hi : 2 < ne Tet.s1) by (simpl; lia).
  split; [split; [exact Solid_wf_s1|split; [exact Hk|exact Hi]]|].
  apply (Compute_damped_consecutive Tet.pinned_applyFT Tet.s1 Tet.m1 Tet.d_rest
           Tet.d0 2 Solid_wf_s1 Hk Hi).
Defined.

(** ** The constructor *)

Section FallibleLoopsMore.
Context {St : Type}.
Implicit Types (body : nat -> St -> result St) (s : St).

(** invariant rule for a loop that ends normally *)
Lemma for_loop_r_inv (P : nat -> St -> Prop) n body s s' :
  P 0 s ->
  (forall i a a', i < n -> P i a -> body i a = Ok a' -> P (S i) a') ->
  for_loop_r n body s = Ok s' -> P n s'.
Proof.
  intros H0 Hstep. revert s'. induction n as [|n IH]; intros s' Hok.
  - unfold for_loop_r in Hok. simpl in Hok. congruence.
  - rewrite for_loop_r_last in Hok.
    destruct (for_loop_r n body s) as [a| |] eqn:Hn; simpl in Hok;
      try discriminate.
    apply (Hstep n a s'); [lia| |exact Hok].
    apply IH; [|reflexivity]. intros i b b' Hi. apply Hstep. lia.
Qed.

Lemma for_loop_r_ok n body s :
  (forall i a, i < n -> body i a = Ok a) -> for_loop_r n body s = Ok s.
Proof.
  intros H. induction n as [|n IH]; [reflexivity|].
  rewrite for_loop_r_last, IH by (intros; apply H; lia). simpl. apply H. lia.
Qed.

Lemma for_loop_r_errors (P : string -> Prop) n body s :
  (forall i a, i < n -> errors_among P (body i a)) ->
  errors_among P (for_loop_r n body s).
Proof.
  intros H. induction n as [|n IH]; [exact I|].
  rewrite for_loop_r_last.
  destruct (for_loop_r n body s) as [a|msg|] eqn:Hn; simpl.
  - apply H. lia.
  - apply (IH ltac:(intros; apply H; lia)).
  - exact I.
Qed.

Lemma for_loop_r_defined n body s :
  (forall i a, i < n -> body i a <> Undef) -> for_loop_r n body s <> Undef.
Proof.
  intros H. induction n as [|n IH]; [discriminate|].
  rewrite for_loop_r_last.
  destruct (for_loop_r n body s) as [a|msg|] eqn:Hn; cbn [bind].
  - apply H. lia.
  - discriminate.
  - exfalso. apply IH; [intros; apply H; lia|reflexivity].
Qed.
End FallibleLoopsMore.

Lemma bind_ok_inv {A B : Type} (r : result A) (k : A -> result B) b :
  bind r k = Ok b -> exists a, r = Ok a /\ k a = Ok b.
Proof.
  destruct r as [a| |]; simpl; intros H; try discriminate.
  exists a. split; [reflexivity|exact H].
Qed.

Lemma bind_errors (P : string -> Prop) {A B : Type} (r : result A)
    (k : A -> result B) :
  errors_among P r -> (forall a, errors_among P (k a)) ->
  errors_among P (bind r k).
Proof. intros Hr Hk. destruct r; simpl; [apply Hk|exact Hr|exact I]. Qed.

Section ConstructorProps.
Context {F : NumType}.
Implicit Types (m : mjModel F) (d : mjData F).

(** X13. [count_bodies] counts the bodies from 1 on that carry the plugin
    instance and remembers the first of them: [i0] is set exactly when the
    count is not zero, it is then the least index from 1 on with the
    instance, and the count is the number of such indices; body 0 is never
    looked at. *)
Theorem count_bodies_spec m (instance : Z) :
  (snd (count_bodies m instance) = None <-> fst (count_bodies m instance) = 0) /\
  (forall b, snd (count_bodies m instance) = Some b ->
     1 <= b < nbody m /\ body_plugin m !!! b = instance /\
     forall i, 1 <= i < b -> body_plugin m !!! i <> instance) /\
  (snd (count_bodies m instance) = None ->
     forall i, 1 <= i < nbody m -> body_plugin m !!! i <> instance) /\
  fst (count_bodies m instance) =
    length (List.filter (fun i => Z.eqb (body_plugin m !!! i) instance)
                        (seq 1 (nbody m - 1))).
Proof.
  unfold count_bodies.
  set (body := fun (i : nat) (st : nat * option nat) =>
    if Z.eqb (body_plugin m !!! i) instance
    then (S (fst st), if Nat.eqb (fst st) 0 then Some i else snd st)
    else st).
  set (P := fun (c : nat) (st : nat * option nat) =>
    (snd st = None <-> fst st = 0) /\
    (forall b, snd st = Some b ->
       1 <= b < c /\ body_plugin m !!! b = instance /\
       forall i, 1 <= i < b -> body_plugin m !!! i <> instance) /\
    (snd st = None ->
       forall i, 1 <= i < c -> body_plugin m !!! i <> instance) /\
    fst st = length (List.filter (fun i => Z.eqb (body_plugin m !!! i) instance)
                                 (seq 1 (c - 1)))).
  destruct (Nat.le_gt_cases 1 (nbody m)) as [Hn|Hn].
  2:{ rewrite for_range_empty by lia.
      replace (nbody m - 1) with 0 by lia. simpl.
      repeat split; try congruence; intros; lia. }
  assert (HP : P (nbody m) (for_range 1 (nbody m) body (0, None))).
  { apply for_range_inv; [exact Hn| |].
    - unfold P. simpl. repeat split; try congruence; intros; lia.
    - intros i [n o] Hi (Hiff & Hsome & Hnone & Hcount). cbn [fst snd] in *.
      unfold P, body. cbn [fst snd].
      replace (S i - 1) with (S (i - 1)) by lia.
      rewrite seq_S, List.filter_app, length_app.
      replace (1 + (i - 1)) with i by lia. cbn [List.filter].
      destruct (Z.eqb_spec (body_plugin m !!! i) instance) as [Heq|Hne];
        cbn [fst snd length].
      + destruct (Nat.eqb_spec n 0) as [Hz|Hnz].
        * split; [split; intros; [discriminate|lia]|].
          split; [|split; [discriminate|lia]].
          intros b Hb. injection Hb as <-. split; [lia|].
          split; [exact Heq|]. intros j Hj.
          apply Hnone; [apply Hiff; exact Hz|lia].
        * split; [split; [intros Ho; exfalso; apply Hnz, Hiff, Ho|lia]|].
          split; [|split; [intros Ho; exfalso; apply Hnz, Hiff, Ho|lia]].
          intros b Hb. destruct (Hsome b Hb) as (Hr & Hp & Hl).
          split; [lia|split; assumption].
      + split; [exact Hiff|]. split; [|split; [|lia]].
        * intros b Hb. destruct (Hsome b Hb) as (Hr & Hp & Hl).
          split; [lia|split; assumption].
        * intros Ho j Hj. destruct (Nat.eq_dec j i) as [->|Hji];
            [exact Hne|apply Hnone; [exact Ho|lia]]. }
  exact HP.
Qed.
Lemma init_element_eq m (instance : Z) f0 (nu E : F) t (stiffness : list F) :
  init_element m instance f0 nu E t stiffness =
  bind (element_check m instance f0 t) (fun _ =>
    at_offset (21 * flex_elemadr m !!! f0)
      (fun metric =>
         MetricTensor Stencil3D metric t
           (shear_modulus nu E (element_volume m f0 t))
           (lame_parameter nu E (element_volume m f0 t))
           (element_basis m f0 t)) stiffness).
Proof. reflexivity. Qed.

Lemma at_offset_MetricTensor_length (T : Stencil) off idx (mu la : F) basis
    (stiffness : list F) :
  exists stiffness',
    at_offset off (fun metric => MetricTensor T metric idx mu la basis)
      stiffness = Ok stiffness' /\
    length stiffness' = length stiffness.
Proof.
  unfold at_offset. rewrite MetricTensor_ok. cbn [bind].
  eexists. split; [reflexivity|].
  rewrite length_app, length_take.
  rewrite (writes_length _ _ _ (MetricTensor_copy_writes T idx _)).
  rewrite length_drop. lia.
Qed.

(** X14. Element by element the constructor accepts exactly the vertices
    that sit on the world body or on a body of the plugin instance: a vertex
    on another body ends the element in the fatal error, and otherwise the
    element is processed normally and the stiffness buffer keeps its
    length. *)
Theorem init_element_bodies m (instance : Z) f0 (nu E : F) t
    (stiffness : list F) :
  (forall i, i < 4 ->
     element_body m f0 t i <> 0 ->
     body_plugin m !!! element_body m f0 t i <> instance ->
     init_element m instance f0 nu E t stiffness =
     Err "Body %d does not have plugin instance %d") /\
  ((forall i, i < 4 ->
      element_body m f0 t i = 0 \/
      body_plugin m !!! element_body m f0 t i = instance) ->
   exists stiffness',
     init_element m instance f0 nu E t stiffness = Ok stiffness' /\
     length stiffness' = length stiffness).
Proof.
  split.
  - intros i Hi H0 Hp. rewrite init_element_eq. unfold element_check.
    rewrite (for_loop_r_fails "Body %d does not have plugin instance %d"
               (kNumVerts Stencil3D) _ tt i); [reflexivity| |exact Hi|].
    + intros j a _.
      destruct (_ && _); [right; reflexivity|left; eexists; reflexivity].
    + intros a.
      rewrite (proj2 (Nat.eqb_neq _ _) H0).
      rewrite (proj2 (Z.eqb_neq _ _) Hp). reflexivity.
  - intros Hall. rewrite init_element_eq. unfold element_check.
    rewrite for_loop_r_ok.
    + cbn [bind]. apply at_offset_MetricTensor_length.
    + intros i [] Hi.
      destruct (Hall i Hi) as [H0|Hp].
      * rewrite H0. reflexivity.
      * rewrite Hp, Z.eqb_refl. rewrite Bool.andb_false_r. reflexivity.
Qed.

Lemma init_element_length m (instance : Z) f0 (nu E : F) t
    (stiffness stiffness' : list F) :
  init_element m instance f0 nu E t stiffness = Ok stiffness' ->
  length stiffness' = length stiffness.
Proof.
  rewrite init_element_eq. intros H.
  destruct (bind_ok_inv _ _ _ H) as (u & _ & Hk).
  destruct (at_offset_MetricTensor_length Stencil3D
              (21 * flex_elemadr m !!! f0) t
              (shear_modulus nu E (element_volume m f0 t))
              (lame_parameter nu E (element_volume m f0 t))
              (element_basis m f0 t) stiffness) as (st & Hst & Hlen).
  rewrite Hst in Hk. injection Hk as <-. exact Hlen.
Qed.

Lemma init_element_errors m (instance : Z) f0 (nu E : F) t (stiffness : list F) :
  errors_among (fun msg => msg = "Body %d does not have plugin instance %d"%string)
    (init_element m instance f0 nu E t stiffness).
Proof.
  rewrite init_element_eq. apply bind_errors.
  - unfold element_check. apply for_loop_r_errors. intros i a _.
    destruct (_ && _); [reflexivity|exact I].
  - intros a.
    destruct (at_offset_MetricTensor_length Stencil3D
                (21 * flex_elemadr m !!! f0) t
                (shear_modulus nu E (element_volume m f0 t))
                (lame_parameter nu E (element_volume m f0 t))
                (element_basis m f0 t) stiffness) as (st & Hst & _).
    rewrite Hst. exact I.
Qed.

Lemma find_flex_errors m (i0 : option nat) nv0 :
  errors_among (fun msg => msg = "mujoco.elasticity.solid requires a 3D mesh"%string)
    (find_flex m i0 nv0).
Proof.
  unfold find_flex. apply for_loop_r_errors. intros i a _.
  apply for_loop_r_errors. intros j b _.
  destruct i0; [|exact I].
  destruct (Nat.eqb _ _); [|exact I]. destruct (negb _); [reflexivity|exact I].
Qed.

Lemma find_flex_spec m (b nv0 : nat) st :
  find_flex m (Some b) nv0 = Ok st ->
  match fst st with
  | None => snd st = nv0 /\ forall i, i < nflex m -> no_vertex_on m b i
  | Some f =>
      f < nflex m /\ flex_dim m !!! f = 3 /\ snd st = flex_vertnum m !!! f /\
      (exists j, j < flex_vertnum m !!! f /\ vertex_body m f j = b) /\
      forall i, f < i < nflex m -> no_vertex_on m b i
  end.
Proof.
  unfold find_flex.
  set (Q := fun (c : nat) (st : option nat * nat) =>
    match fst st with
    | None => snd st = nv0 /\ forall i, i < c -> no_vertex_on m b i
    | Some f =>
        f < c /\ flex_dim m !!! f = 3 /\ snd st = flex_vertnum m !!! f /\
        (exists j, j < flex_vertnum m !!! f /\ vertex_body m f j = b) /\
        forall i, f < i < c -> no_vertex_on m b i
    end).
  intros Hok. refine (for_loop_r_inv Q _ _ _ _ _ _ Hok).
  { unfold Q. simpl. split; [reflexivity|intros; lia]. }
  clear Hok st. intros i a a' Hi HQ Hinner.
  set (R := fun (cj : nat) (st : option nat * nat) =>
    ((forall j, j < cj -> vertex_body m i j <> b) /\ st = a) \/
    ((exists j, j < cj /\ vertex_body m i j = b) /\
     flex_dim m !!! i = 3 /\ st = (Some i, flex_vertnum m !!! i))).
  assert (HR : R (flex_vertnum m !!! i) a').
  { refine (for_loop_r_inv R _ _ _ _ _ _ Hinner).
    { left. split; [intros; lia|reflexivity]. }
    intros j c c' Hj Hc Hbody.
    change (flex_vertbodyid m !!! (flex_vertadr m !!! i + j))
      with (vertex_body m i j) in Hbody.
    destruct (Nat.eqb_spec (vertex_body m i j) b) as [Heq|Hne].
    - destruct (Nat.eqb_spec (flex_dim m !!! i) 3) as [Hd|Hd];
        simpl in Hbody; [|discriminate].
      injection Hbody as <-. right.
      split; [exists j; split; [lia|exact Heq]|]. split; [exact Hd|reflexivity].
    - injection Hbody as <-. destruct Hc as [[Hno ->]|(Hex & Hd & ->)].
      + left. split; [|reflexivity]. intros j' Hj'.
        destruct (Nat.eq_dec j' j) as [->|]; [exact Hne|apply Hno; lia].
      + right. split; [|split; [exact Hd|reflexivity]].
        destruct Hex as (j' & Hj' & He). exists j'. split; [lia|exact He]. }
  destruct HR as [[Hno ->]|((j & Hj & He) & Hd & ->)].
  - unfold Q in *. destruct (fst a) as [f|].
    + destruct HQ as (Hf & Hdim & Hnv & Hex & Hlater).
      split; [lia|]. split; [exact Hdim|]. split; [exact Hnv|].
      split; [exact Hex|]. intros i' Hi'.
      destruct (Nat.eq_dec i' i) as [->|]; [exact Hno|apply Hlater; lia].
    + destruct HQ as (Hnv & Hbefore). split; [exact Hnv|]. intros i' Hi'.
      destruct (Nat.eq_dec i' i) as [->|]; [exact Hno|apply Hbefore; lia].
  - unfold Q. simpl. split; [lia|]. split; [exact Hd|]. split; [reflexivity|].
    split; [exists j; split; assumption|]. intros i' Hi'. lia.
Qed.

Lemma init_element_defined m (instance : Z) f0 (nu E : F) t
    (stiffness : list F) :
  init_element m instance f0 nu E t stiffness <> Undef.
Proof.
  rewrite init_element_eq.
  destruct (element_check m instance f0 t) as [u|msg|] eqn:Hc; cbn [bind].
  - destruct (at_offset_MetricTensor_length Stencil3D
                (21 * flex_elemadr m !!! f0) t
                (shear_modulus nu E (element_volume m f0 t))
                (lame_parameter nu E (element_volume m f0 t))
                (element_basis m f0 t) stiffness) as (st & Hst & _).
    rewrite Hst. discriminate.
  - discriminate.
  - exfalso. revert Hc. unfold element_check. apply for_loop_r_defined.
    intros i a _. destruct (_ && _); discriminate.
Qed.

Lemma find_flex_defined m (b nv0 : nat) : find_flex m (Some b) nv0 <> Undef.
Proof.
  unfold find_flex. apply for_loop_r_defined. intros i a _.
  apply for_loop_r_defined. intros j st _.
  destruct (Nat.eqb _ _); [|discriminate]. destruct (negb _); discriminate.
Qed.

Lemma find_flex_uninitialised m (nv0 : nat) :
  errors_among (fun _ => False) (find_flex m None nv0).
Proof.
  unfold find_flex. apply for_loop_r_errors. intros i a _.
  apply for_loop_r_errors. intros j b _. exact I.
Qed.

Lemma find_flex_none m (b nv0 : nat) :
  (forall i, i < nflex m -> no_vertex_on m b i) ->
  find_flex m (Some b) nv0 = Ok (None, nv0).
Proof.
  intros H. unfold find_flex. apply for_loop_r_ok. intros i a Hi.
  apply for_loop_r_ok. intros j st Hj.
  change (flex_vertbodyid m !!! (flex_vertadr m !!! i + j))
    with (vertex_body m i j).
  rewrite (proj2 (Nat.eqb_neq _ _) (H i Hi j Hj)). reflexivity.
Qed.

Lemma Solid_new_fatal m d (instance : Z) (nu E damp : F) msg :
  Solid_new m d instance nu E damp = Err msg -> fatal_message msg.
Proof.
  assert (Hnew : errors_among fatal_message (Solid_new m d instance nu E damp)).
  { unfold Solid_new.
    destruct (count_bodies m instance) as [nv0 i0'].
    apply bind_errors.
    - pose proof (find_flex_errors m i0' nv0) as H.
      destruct (find_flex m i0' nv0); simpl in *; [exact I|left; exact H|exact I].
    - intros st. destruct i0' as [b|]; [|exact I].
      destruct (fst st) as [f|]; [|exact I].
      apply bind_errors; [|intros a; exact I].
      apply for_loop_r_errors. intros t a _.
      pose proof (init_element_errors m instance f nu E t a) as H.
      destruct (init_element m instance f nu E t a); simpl in *;
        [exact I|right; exact H|exact I]. }
  intros H. rewrite H in Hnew. exact Hnew.
Qed.

Lemma Solid_new_undefined m d (instance : Z) (nu E damp : F) :
  Solid_new m d instance nu E damp = Undef <-> mesh_missing m instance.
Proof.
  unfold Solid_new, mesh_missing.
  destruct (count_bodies m instance) as [nv0 o]. cbn [snd].
  destruct o as [b|].
  - split.
    + intros H. right. exists b. split; [reflexivity|].
      destruct (find_flex m (Some b) nv0) as [st| |] eqn:Hf; cbn [bind] in H.
      * pose proof (find_flex_spec m b nv0 st Hf) as Hs.
        destruct (fst st) as [f|]; [|apply Hs].
        exfalso.
        destruct (for_loop_r (flex_elemnum m !!! f)
                    (init_element m instance f nu E) (flex_stiffness m))
          as [a| |] eqn:Hl; cbn [bind] in H; try discriminate.
        revert Hl. apply for_loop_r_defined.
        intros t a _. apply init_element_defined.
      * discriminate.
      * exfalso. exact (find_flex_defined m b nv0 Hf).
    + intros [Hn|(b' & Hb & Hno)]; [discriminate|]. injection Hb as <-.
      rewrite (find_flex_none m b nv0 Hno). reflexivity.
  - split; [intros _; left; reflexivity|]. intros _.
    pose proof (find_flex_uninitialised m nv0) as H.
    destruct (find_flex m None nv0) as [st|msg|]; cbn [bind];
      [reflexivity|destruct H|reflexivity].
Qed.

(** X15. The constructor and the factory have three abnormal outcomes
    only: the fatal errors "requires a 3D mesh" and "Body %d does not have
    plugin instance %d", and undefined behaviour, which arises exactly
    when the constructor finds no mesh (no body from 1 on carries the
    plugin instance, so that the uninitialised [i0] is read, or no flex
    holds a vertex of the first such body, so that [f0] = -1 is used as an
    index).  In particular the size check of [MetricTensor] never fires
    from the constructor. *)
Theorem Create_errors (CheckAttr : string -> mjModel F -> Z -> bool)
    (strtod : string -> F) m d (instance : Z) (nu E damp : F) :
  (forall msg,
     Solid_new m d instance nu E damp = Err msg -> fatal_message msg) /\
  (Solid_new m d instance nu E damp = Undef <-> mesh_missing m instance) /\
  (forall msg,
     Create CheckAttr strtod m d instance = Err msg -> fatal_message msg) /\
  (Create CheckAttr strtod m d instance = Undef <->
   attributes_accepted CheckAttr m instance = true /\
   mesh_missing m instance).
Proof.
  split; [apply Solid_new_fatal|]. split; [apply Solid_new_undefined|].
  unfold Create, attributes_accepted.
  destruct (_ && _).
  - set (nu' := strtod _). set (E' := strtod _). set (damp' := strtod _).
    pose proof (Solid_new_fatal m d instance nu' E' damp') as Hf.
    pose proof (Solid_new_undefined m d instance nu' E' damp') as Hu.
    destruct (Solid_new m d instance nu' E' damp') as [a|msg'|]; cbn [bind].
    + split; [discriminate|]. split; [discriminate|].
      intros [_ Hm]. apply Hu in Hm. discriminate.
    + split; [intros msg Hm; injection Hm as <-; apply Hf; reflexivity|].
      split; [discriminate|].
      intros [_ Hm]. apply Hu in Hm. discriminate.
    + split; [discriminate|]. split; [|reflexivity].
      intros _. split; [reflexivity|]. apply Hu. reflexivity.
  - split; [discriminate|]. split; [discriminate|].
    intros [Hc _]. discriminate.
Qed.
(** X16. What a successful construction guarantees: the instance is well
    formed, with zeroed scratch buffers, an empty history and the damping
    coefficient it was given; its body is the first body of the plugin
    instance; its flex exists, has dimension 3, holds a vertex of that body
    and is the last flex to do so; its vertex and edge counts are those of
    the flex; and the stiffness buffer of the model keeps its length. *)
Theorem Solid_new_spec m d (instance : Z) (nu E damp : F) s stiffness :
  Solid_new m d instance nu E damp = Ok (s, stiffness) ->
  Solid_wf s /\ prev s = [] /\ damping s = damp /\
  elongation s = replicate (ne s) nzero /\
  force s = replicate (3 * nv s) nzero /\
  snd (count_bodies m instance) = Some (i0 s) /\
  f0 s < nflex m /\ flex_dim m !!! f0 s = 3 /\
  nv s = flex_vertnum m !!! f0 s /\ ne s = flex_edgenum m !!! f0 s /\
  (exists j, j < flex_vertnum m !!! f0 s /\ vertex_body m (f0 s) j = i0 s) /\
  (forall i, f0 s < i < nflex m -> no_vertex_on m (i0 s) i) /\
  length stiffness = length (flex_stiffness m).
Proof.
  unfold Solid_new. destruct (count_bodies m instance) as [nv0 o] eqn:Hcb.
  intros H. destruct (bind_ok_inv _ _ _ H) as (st & Hff & Hk). clear H.
  destruct o as [b|]; [|destruct (fst st); discriminate].
  pose proof (find_flex_spec m b nv0 st Hff) as Hspec.
  destruct (fst st) as [f|]; [|discriminate].
  destruct Hspec as (Hf & Hdim & Hnv & Hex & Hlater).
  destruct (bind_ok_inv _ _ _ Hk) as (st' & Hloop & Hret). clear Hk.
  injection Hret as <- <-. cbn [i0 f0 nv ne damping elongation force prev].
  assert (Hlen : length st' = length (flex_stiffness m)).
  { refine (for_loop_r_inv (fun _ a => length a = length (flex_stiffness m))
              _ _ _ _ eq_refl _ Hloop).
    intros t a a' _ Ha Hinit.
    rewrite (init_element_length m instance f nu E t a a' Hinit). exact Ha. }
  split.
  { split; [apply length_replicate|]. split; [apply length_replicate|].
    left. reflexivity. }
  repeat (split; [first [reflexivity|assumption]|]).
  exact Hlen.
Qed.
End ConstructorProps.

(** ** The stiffness buffer after construction *)

Section ConstructorStiffness.
Context {F : NumType}.
Add Ring num_ring_cs : (F_R (nfield F)).
Implicit Types (m : mjModel F) (d : mjData F) (T : Stencil).

Lemma at_offset_MetricTensor_eq T off idx (mu la : F) basis (st : list F) :
  at_offset off (fun metric => MetricTensor T metric idx mu la basis) st =
  Ok (take off st ++
      fst (MetricTensor_copy T (drop off st) idx
             (MetricTensor_k T mu la (MetricTensor_trE T basis)
                              (MetricTensor_trEE T basis)))).
Proof. unfold at_offset. rewrite MetricTensor_ok. reflexivity. Qed.

Lemma at_offset_MetricTensor_entry T off idx (mu la : F) basis (st st' : list F)
    i j :
  at_offset off (fun metric => MetricTensor T metric idx mu la basis) st =
    Ok st' ->
  i <= j < kNumEdges T ->
  off + (21 * idx + tri_pos (kNumEdges T) i j) < length st ->
  st' !!! (off + (21 * idx + tri_pos (kNumEdges T) i j)) =
  (mu * tensor_contract (basis !!! i) (basis !!! j) +
   la * tensor_trace (basis !!! i) * tensor_trace (basis !!! j))%F.
Proof.
  rewrite at_offset_MetricTensor_eq. intros H Hij Hlen.
  injection H as <-.
  rewrite lookup_total_app_r by (rewrite length_take_le; lia).
  rewrite length_take_le by lia.
  replace (off + (21 * idx + tri_pos (kNumEdges T) i j) - off)
    with (21 * idx + tri_pos (kNumEdges T) i j) by lia.
  apply MetricTensor_copy_entry; [exact Hij|].
  rewrite length_drop. lia.
Qed.

Lemma at_offset_MetricTensor_frame T off idx (mu la : F) basis (st st' : list F)
    p :
  at_offset off (fun metric => MetricTensor T metric idx mu la basis) st =
    Ok st' ->
  p < off + 21 * idx \/
  off + 21 * idx + kNumEdges T * (kNumEdges T + 1) / 2 <= p ->
  length st' = length st /\ st' !!! p = st !!! p.
Proof.
  intros H Hp.
  destruct (at_offset_MetricTensor_length T off idx mu la basis st)
    as (st2 & Hst2 & Hlen).
  rewrite H in Hst2. injection Hst2 as <-. split; [exact Hlen|].
  rewrite at_offset_MetricTensor_eq in H. injection H as H.
  set (k := MetricTensor_k T mu la _ _) in H.
  pose proof (MetricTensor_copy_writes T idx k) as Hw.
  destruct (Nat.lt_ge_cases p (length st)) as [Hin|Hout].
  2:{ rewrite !(list_lookup_total_alt _ p).
      rewrite (proj2 (lookup_ge_None _ _)) by lia.
      rewrite (proj2 (lookup_ge_None _ _)) by lia. reflexivity. }
  rewrite <- H.
  destruct (Nat.lt_ge_cases p off) as [Hlt|Hge].
  - rewrite lookup_total_app_l by (rewrite length_take; lia).
    apply lookup_total_take_lt. exact Hlt.
  - rewrite lookup_total_app_r by (rewrite length_take_le; lia).
    rewrite length_take_le by lia.
    rewrite (writes_frame _ _ (drop off st) (p - off) Hw).
    + rewrite lookup_total_drop. f_equal. lia.
    + intros v (a & Ha & b & Hb & Heq & _).
      pose proof (tri_pos_lt_total (kNumEdges T) a b Hb). lia.
Qed.

(** every basis tensor of an element is symmetric *)
Lemma element_basis_symmetric m f0 t e :
  e < kNumEdges Stencil3D -> tensor_symmetric (element_basis m f0 t !!! e).
Proof.
  intros He. unfold element_basis.
  set (body := fun (e : nat) (basis : list (list F)) =>
    <[e := ComputeBasis (basis !!! e)
             (ptr (flex_xvert0 m) (3 * flex_vertadr m !!! f0))
             (elem_verts m f0 t)
             (face !!! ((e2f !!! e) !!! 0)) (face !!! ((e2f !!! e) !!! 1))
             (element_volume m f0 t)]> basis).
  set (P := fun (c : nat) (basis : list (list F)) =>
    length basis = kNumEdges Stencil3D /\
    (forall e, e < c -> tensor_symmetric (basis !!! e)) /\
    (forall e, c <= e < kNumEdges Stencil3D -> length (basis !!! e) = 9)).
  assert (HP : P (kNumEdges Stencil3D)
                 (for_loop (kNumEdges Stencil3D) body
                    (replicate (kNumEdges Stencil3D) (replicate 9 nzero)))).
  { apply for_loop_inv.
    - unfold P. split; [apply length_replicate|]. split; [intros; lia|].
      intros e' He'. rewrite lookup_total_replicate_2 by lia.
      apply length_replicate.
    - intros c basis Hc (Hlen & Hsym & Hrest). unfold P, body.
      split; [rewrite length_insert; exact Hlen|]. split.
      + intros e' He'. destruct (Nat.eq_dec e' c) as [->|Hne].
        * rewrite list_lookup_total_insert_eq by lia.
          apply ComputeBasis_symmetric. apply Hrest. lia.
        * rewrite list_lookup_total_insert_ne by congruence.
          apply Hsym. lia.
      + intros e' He'. rewrite list_lookup_total_insert_ne by lia.
        apply Hrest. lia. }
  destruct HP as (_ & Hsym & _). apply Hsym. exact He.
Qed.

(** X17. After a successful construction, when the blocks of the elements
    of the flex lie inside the stiffness buffer, the block of every
    tetrahedron [t] holds, for every edge pair i <= j, the metric entry of
    the specification: mu*trace(B[i] . B[j]^t) + la*trace(B[i])*trace(B[j])
    with mu = E/(2(1+nu))*V and la = E*nu/((1+nu)(1-2nu))*V, V and B being
    the rest volume and the basis tensors of the tetrahedron. *)
Theorem Solid_new_stiffness m d (instance : Z) (nu E damp : F) s stiffness
    t i j :
  Solid_new m d instance nu E damp = Ok (s, stiffness) ->
  21 * flex_elemadr m !!! f0 s + 21 * flex_elemnum m !!! f0 s <=
    length (flex_stiffness m) ->
  t < flex_elemnum m !!! f0 s -> i <= j < 6 ->
  stiffness !!! (21 * (flex_elemadr m !!! f0 s + t) + packed_index 6 i j) =
  (shear_modulus nu E (element_volume m (f0 s) t) *
     tensor_contract_t (element_basis m (f0 s) t !!! i)
                       (element_basis m (f0 s) t !!! j) +
   lame_parameter nu E (element_volume m (f0 s) t) *
     tensor_trace (element_basis m (f0 s) t !!! i) *
     tensor_trace (element_basis m (f0 s) t !!! j))%F.
Proof.
  unfold Solid_new. destruct (count_bodies m instance) as [nv0 o].
  intros H. destruct (bind_ok_inv _ _ _ H) as (st & _ & Hk). clear H.
  destruct o as [b|]; [|destruct (fst st); discriminate].
  destruct (fst st) as [f|]; [|discriminate].
  destruct (bind_ok_inv _ _ _ Hk) as (st' & Hloop & Hret). clear Hk.
  injection Hret as <- <-. cbn [f0]. intros Hrange Ht Hij.
  set (off := 21 * flex_elemadr m !!! f).
  set (val := fun t i j =>
    (shear_modulus nu E (element_volume m f t) *
       tensor_contract (element_basis m f t !!! i) (element_basis m f t !!! j) +
     lame_parameter nu E (element_volume m f t) *
       tensor_trace (element_basis m f t !!! i) *
       tensor_trace (element_basis m f t !!! j))%F).
  set (P := fun (c : nat) (a : list F) =>
    length a = length (flex_stiffness m) /\
    forall t i j, t < c -> i <= j < 6 ->
      a !!! (off + (21 * t + tri_pos 6 i j)) = val t i j).
  assert (HP : P (flex_elemnum m !!! f) st').
  { refine (for_loop_r_inv P _ _ _ _ _ _ Hloop).
    { split; [reflexivity|intros; lia]. }
    intros c a a' Hc (Hlen & Hdone) Hinit.
    rewrite init_element_eq in Hinit.
    destruct (bind_ok_inv _ _ _ Hinit) as (u & _ & Hat). clear Hinit.
    split.
    - rewrite <- Hlen.
      destruct (at_offset_MetricTensor_length Stencil3D off c
                  (shear_modulus nu E (element_volume m f c))
                  (lame_parameter nu E (element_volume m f c))
                  (element_basis m f c) a) as (a2 & Ha2 & Hlen2).
      unfold off in Ha2. rewrite Hat in Ha2. injection Ha2 as <-. exact Hlen2.
    - intros t' i' j' Ht' Hij'.
      pose proof (tri_pos_lt_total 6 i' j' Hij') as Hpos.
      change (6 * (6 + 1) / 2) with 21 in Hpos.
      destruct (Nat.eq_dec t' c) as [->|Hne].
      + apply (at_offset_MetricTensor_entry Stencil3D off c _ _ _ a a' i' j'
                 Hat Hij'). unfold off. change (kNumEdges Stencil3D) with 6. lia.
      + rewrite (proj2 (at_offset_MetricTensor_frame Stencil3D off c _ _ _ a a'
                          (off + (21 * t' + tri_pos 6 i' j')) Hat
                          ltac:(left; lia))).
        apply Hdone; [lia|exact Hij']. }
  destruct HP as (_ & Hval).
  rewrite <- tri_pos_packed_index by lia.
  replace (21 * (flex_elemadr m !!! f + t) + tri_pos 6 i j)
    with (off + (21 * t + tri_pos 6 i j)) by (unfold off; lia).
  rewrite (Hval t i j Ht Hij). unfold val.
  rewrite (tensor_contract_symmetric _ _
             (element_basis_symmetric m f t j ltac:(simpl; lia))).
  reflexivity.
Qed.
End ConstructorStiffness.

Lemma Solid_new_tet :
  Solid_new Tet.m0 Tet.d0 0 (z2q 0) (z2q 1000) (z2q 0) =
  Ok (Tet.s0, Tet.stiffness).
Proof. vm_compute. reflexivity. Qed.

Lemma init_element_bodies_witness :
  ((0 < 4 /\ element_body Tet.m0 0 0 0 <> 0 /\
    body_plugin Tet.m0 !!! element_body Tet.m0 0 0 0 <> 1%Z) /\
   init_element Tet.m0 1 0 (z2q 0) (z2q 1000) 0 (flex_stiffness Tet.m0) =
   Err "Body %d does not have plugin instance %d") /\
  ((forall i, i < 4 ->
      element_body Tet.m0 0 0 i = 0 \/
      body_plugin Tet.m0 !!! element_body Tet.m0 0 0 i = 0%Z) /\
   exists stiffness',
     init_element Tet.m0 0 0 (z2q 0) (z2q 1000) 0 (flex_stiffness Tet.m0) =
       Ok stiffness' /\
     length stiffness' = length (flex_stiffness Tet.m0)).
Proof.
  split.
  - assert (H1 : element_body Tet.m0 0 0 0 <> 0) by (vm_compute; lia).
    assert (H2 : body_plugin Tet.m0 !!! element_body Tet.m0 0 0 0 <> 1%Z)
      by (vm_compute; discriminate).
    split; [split; [lia|split; [exact H1|exact H2]]|].
    exact (proj1 (init_element_bodies Tet.m0 1 0 (z2q 0) (z2q 1000) 0
                    (flex_stiffness Tet.m0)) 0 ltac:(lia) H1 H2).
  - assert (H : forall i, i < 4 ->
      element_body Tet.m0 0 0 i = 0 \/
      body_plugin Tet.m0 !!! element_body Tet.m0 0 0 i = 0%Z).
    { intros i Hi. right.
      do 4 (destruct i as [|i]; [reflexivity|]). lia. }
    split; [exact H|].
    exact (proj2 (init_element_bodies Tet.m0 0 0 (z2q 0) (z2q 1000) 0
                    (flex_stiffness Tet.m0)) H).
Defined.

Lemma Solid_new_spec_witness :
  Solid_new Tet.m0 Tet.d0 0 (z2q 0) (z2q 1000) (z2q 0) =
    Ok (Tet.s0, Tet.stiffness) /\
  Solid_wf Tet.s0 /\ f0 Tet.s0 < nflex Tet.m0 /\
  flex_dim Tet.m0 !!! f0 Tet.s0 = 3 /\
  length Tet.stiffness = length (flex_stiffness Tet.m0).
Proof.
  split; [exact Solid_new_tet|].
  destruct (Solid_new_spec Tet.m0 Tet.d0 0 (z2q 0) (z2q 1000) (z2q 0)
              Tet.s0 Tet.stiffness Solid_new_tet)
    as (Hwf & _ & _ & _ & _ & _ & Hf & Hdim & _ & _ & _ & _ & Hlen).
  split; [exact Hwf|]. split; [exact Hf|]. split; [exact Hdim|exact Hlen].
Defined.

Lemma Solid_new_stiffness_witness :
  (Solid_new Tet.m0 Tet.d0 0 (z2q 0) (z2q 1000) (z2q 0) =
     Ok (Tet.s0, Tet.stiffness) /\
   21 * flex_elemadr Tet.m0 !!! f0 Tet.s0 +
   21 * flex_elemnum Tet.m0 !!! f0 Tet.s0 <= length (flex_stiffness Tet.m0) /\
   0 < flex_elemnum Tet.m0 !!! f0 Tet.s0 /\ 0 <= 1 < 6) /\
  Tet.stiffness
    !!! (21 * (flex_elemadr Tet.m0 !!! f0 Tet.s0 + 0) + packed_index 6 0 1) =
  (shear_modulus (z2q 0) (z2q 1000) (element_volume Tet.m0 (f0 Tet.s0) 0) *
     tensor_contract_t (element_basis Tet.m0 (f0 Tet.s0) 0 !!! 0)
                       (element_basis Tet.m0 (f0 Tet.s0) 0 !!! 1) +
   lame_parameter (z2q 0) (z2q 1000) (element_volume Tet.m0 (f0 Tet.s0) 0) *
     tensor_trace (element_basis Tet.m0 (f0 Tet.s0) 0 !!! 0) *
     tensor_trace (element_basis Tet.m0 (f0 Tet.s0) 0 !!! 1))%F.
Proof.
  assert (Hr : 21 * flex_elemadr Tet.m0 !!! f0 Tet.s0 +
               21 * flex_elemnum Tet.m0 !!! f0 Tet.s0 <=
               length (flex_stiffness Tet.m0)) by (vm_compute; lia).
  assert (Ht : 0 < flex_elemnum Tet.m0 !!! f0 Tet.s0) by (vm_compute; lia).
  split; [split; [exact Solid_new_tet|split; [exact Hr|split; [exact Ht|lia]]]|].
  apply (Solid_new_stiffness Tet.m0 Tet.d0 0 (z2q 0) (z2q 1000) (z2q 0)
           Tet.s0 Tet.stiffness 0 0 1 Solid_new_tet Hr Ht). lia.
Defined.

(** ** The geometry of a tetrahedron *)

Section GeometryProps.
Context {F : NumType}.
Add Ring num_ring_gp : (F_R (nfield F)).
Implicit Types (x : nat -> F) (v : nat -> nat).

Lemma ndiv_def (a b : F) : (a / b = a * ninv b)%F.
Proof. apply (Fdiv_def (nfield F)). Qed.

(** X19. [ComputeVolume] is a signed volume: exchanging the vertices 1 and
    2 of the tetrahedron negates it, and a tetrahedron whose vertices 1 and
    2 coincide has volume zero. *)
Theorem ComputeVolume_orientation x v :
  ComputeVolume x (fun i => v (match i with 1 => 2 | 2 => 1 | _ => i end)) =
    (- ComputeVolume x v)%F /\
  (v 1 = v 2 -> ComputeVolume x v = nzero).
Proof.
  unfold ComputeVolume, mju_dot3, mju_cross, mju_sub3, ptr, vert.
  cbn [lookup_total list_lookup_total Nat.add].
  split.
  - rewrite !ndiv_def. ring.
  - intros ->. rewrite ndiv_def. ring.
Qed.

Lemma ComputeBasis_writes (basis : list F) x v faceL faceR (volume : F) :
  exists val : nat -> nat -> F,
    (forall i j, val i j = val j i) /\
    length (ComputeBasis basis x v faceL faceR volume) = length basis /\
    (forall basis' : list F,
       length basis' = 9 -> forall i j, i < 3 -> j < 3 ->
       ComputeBasis basis' x v faceL faceR volume !!! (3 * i + j) = val i j).
Proof.
  unfold ComputeBasis.
  set (normalL := mju_cross _ _). set (normalR := mju_cross _ _).
  set (den := (nconst (36 * 2) * volume * volume)%F).
  set (val := fun i j =>
    ((normalL !!! i * normalR !!! j + normalR !!! i * normalL !!! j) / den)%F).
  assert (Hw : writes
    (fun p w => exists a, a < 3 /\ exists b, b < 3 /\
       (p = 3 * a + b /\ w = val a b))
    (for_loop 3 (fun i => for_loop 3 (fun j basis =>
       <[3 * i + j := val i j]> basis)))).
  { apply (writes_for_loop 3 (fun a p w => exists b, b < 3 /\
       (p = 3 * a + b /\ w = val a b))).
    - intros a Ha.
      apply (writes_for_loop 3 (fun b p w => p = 3 * a + b /\ w = val a b)).
      + intros b Hb. apply writes_insert.
      + intros b b' p w w' Hb Hb' [-> ->] [Hp ->].
        replace b' with b by lia. reflexivity.
    - intros a a' p w w' Ha Ha' (b & Hb & -> & ->) (b' & Hb' & Hp & ->).
      assert (a = a' /\ b = b') as [-> ->] by lia. reflexivity. }
  exists val. split; [|split].
  - intros i j. unfold val. f_equal. ring.
  - apply (writes_length _ _ basis Hw).
  - intros basis' Hlen i j Hi Hj.
    apply (writes_read _ _ basis' (3 * i + j) (val i j) Hw); [lia|].
    exists i. split; [lia|]. exists j. split; [lia|split; reflexivity].
Qed.

(** X20. The basis tensor of an edge is a symmetric 3x3 tensor, whatever
    the positions, the faces and the volume. *)
Theorem ComputeBasis_tensor_symmetric (basis : list F) x v faceL faceR
    (volume : F) i j :
  length basis = 9 -> i < 3 -> j < 3 ->
  ComputeBasis basis x v faceL faceR volume !!! (3 * i + j) =
  ComputeBasis basis x v faceL faceR volume !!! (3 * j + i).
Proof.
  intros Hlen Hi Hj.
  destruct (ComputeBasis_writes basis x v faceL faceR volume)
    as (val & Hsym & _ & Hval).
  rewrite (Hval basis Hlen i j Hi Hj), (Hval basis Hlen j i Hj Hi).
  apply Hsym.
Qed.

(** X21. [ComputeBasis] overwrites all nine entries of its buffer: the
    result does not depend on what the buffer held, so the zeroing of the
    basis array in the constructor has no effect on the stiffness. *)
Theorem ComputeBasis_overwrites (basis basis' : list F) x v faceL faceR
    (volume : F) :
  length basis = 9 -> length basis' = 9 ->
  ComputeBasis basis x v faceL faceR volume =
  ComputeBasis basis' x v faceL faceR volume.
Proof.
  intros Hlen Hlen'.
  destruct (ComputeBasis_writes basis x v faceL faceR volume)
    as (val & _ & Hl & Hval).
  destruct (ComputeBasis_writes basis' x v faceL faceR volume)
    as (val' & _ & Hl' & _).
  apply list_eq_lookup_total; [congruence|].
  intros p Hp. rewrite Hl, Hlen in Hp.
  replace p with (3 * (p / 3) + p mod 3) by (symmetry; apply Nat.div_mod_eq).
  assert (p / 3 < 3) by (apply Nat.Div0.div_lt_upper_bound; lia).
  assert (p mod 3 < 3) by (apply Nat.mod_upper_bound; lia).
  rewrite (Hval basis Hlen), (Hval basis' Hlen') by assumption.
  reflexivity.
Qed.

(** X22. The basis tensor is the symmetrized product of the two face
    normals: exchanging the two faces gives the same tensor. *)
Theorem ComputeBasis_face_swap (basis : list F) x v faceL faceR (volume : F) :
  ComputeBasis basis x v faceL faceR volume =
  ComputeBasis basis x v faceR faceL volume.
Proof.
  unfold ComputeBasis. cbv zeta.
  apply for_loop_ext. intros i acc Hi.
  apply for_loop_ext. intros j acc' Hj.
  f_equal. f_equal. ring.
Qed.

(** X23. The basis tensor depends on the volume through its square only:
    it is unchanged when the sign of the volume is flipped (a tetrahedron
    of the opposite orientation). *)
Theorem ComputeBasis_volume_sign (basis : list F) x v faceL faceR
    (volume : F) :
  ComputeBasis basis x v faceL faceR (- volume)%F =
  ComputeBasis basis x v faceL faceR volume.
Proof.
  unfold ComputeBasis. cbv zeta.
  apply for_loop_ext. intros i acc Hi.
  apply for_loop_ext. intros j acc' Hj.
  f_equal. f_equal. ring.
Qed.

(** X24. In the gradient table the entries of the two endpoints of an edge
    are opposite. *)
Theorem GradSquaredLengths_opposite (T : Stencil) x v e d :
  e < kNumEdges T -> d < 3 ->
  GradSquaredLengths T (replicate (kNumEdges T * 2 * 3) nzero) x v
    !!! gidx e 1 d =
  (- GradSquaredLengths T (replicate (kNumEdges T * 2 * 3) nzero) x v
       !!! gidx e 0 d)%F.
Proof.
  intros He Hd.
  rewrite !GradSquaredLengths_spec by (assumption || lia).
  unfold edge_gradient. cbn [Nat.sub]. ring.
Qed.
End GeometryProps.

Lemma ComputeBasis_tensor_symmetric_witness :
  (length (replicate 9 (z2q 0)) = 9 /\ 0 < 3 /\ 1 < 3) /\
  ComputeBasis (replicate 9 (z2q 0)) (ptr (flex_xvert0 Tet.m0) 0)
    (elem_verts Tet.m0 0 0) (face !!! 2) (face !!! 3)
    (element_volume Tet.m0 0 0) !!! (3 * 0 + 1) =
  ComputeBasis (replicate 9 (z2q 0)) (ptr (flex_xvert0 Tet.m0) 0)
    (elem_verts Tet.m0 0 0) (face !!! 2) (face !!! 3)
    (element_volume Tet.m0 0 0) !!! (3 * 1 + 0).
Proof.
  split; [split; [reflexivity|lia]|].
  apply (ComputeBasis_tensor_symmetric (replicate 9 (z2q 0))
           (ptr (flex_xvert0 Tet.m0) 0) (elem_verts Tet.m0 0 0)
           (face !!! 2) (face !!! 3) (element_volume Tet.m0 0 0) 0 1);
    [reflexivity|lia|lia].
Defined.

Lemma ComputeBasis_overwrites_witness :
  (length (replicate 9 (z2q 0)) = 9 /\ length (replicate 9 (z2q 5)) = 9) /\
  ComputeBasis (replicate 9 (z2q 0)) (ptr (flex_xvert0 Tet.m0) 0)
    (elem_verts Tet.m0 0 0) (face !!! 2) (face !!! 3)
    (element_volume Tet.m0 0 0) =
  ComputeBasis (replicate 9 (z2q 5)) (ptr (flex_xvert0 Tet.m0) 0)
    (elem_verts Tet.m0 0 0) (face !!! 2) (face !!! 3)
    (element_volume Tet.m0 0 0).
Proof.
  split; [split; reflexivity|].
  apply (ComputeBasis_overwrites (replicate 9 (z2q 0)) (replicate 9 (z2q 5))
           (ptr (flex_xvert0 Tet.m0) 0) (elem_verts Tet.m0 0 0)
           (face !!! 2) (face !!! 3) (element_volume Tet.m0 0 0));
    reflexivity.
Defined.

Lemma GradSquaredLengths_opposite_witness :
  (0 < kNumEdges Stencil3D /\ 0 < 3) /\
  GradSquaredLengths Stencil3D (replicate (kNumEdges Stencil3D * 2 * 3) nzero)
    Tet.xpos0 (elem_verts Tet.m0 0 0) !!! gidx 0 1 0 =
  (- GradSquaredLengths Stencil3D
       (replicate (kNumEdges Stencil3D * 2 * 3) nzero)
       Tet.xpos0 (elem_verts Tet.m0 0 0) !!! gidx 0 0 0)%F.
Proof.
  split; [simpl; lia|].
  apply (GradSquaredLengths_opposite Stencil3D Tet.xpos0
           (elem_verts Tet.m0 0 0) 0 0); simpl; lia.
Defined.

(** ** PairHash *)

Section HashingProps.
Context {T : Type}.
Variable hash : T -> N.

(** X25. With one hash function for both components the hash of a pair
    does not see the order of the components, and every pair of two equal
    components hashes to zero: in a table keyed by vertex pairs all
    mirrored pairs and all diagonal pairs collide. *)
Theorem PairHash_mirror (a b : T) :
  PairHash hash hash (a, b) = PairHash hash hash (b, a) /\
  PairHash hash hash (a, a) = 0%N.
Proof.
  unfold PairHash. cbn [fst snd]. split.
  - apply N.lxor_comm.
  - apply N.lxor_nilpotent.
Qed.
End HashingProps.

(** ** Further instances *)

Lemma count_bodies_spec_witness :
  snd (count_bodies Tet.m0 0) = Some 1 /\
  1 <= 1 < nbody Tet.m0 /\ body_plugin Tet.m0 !!! 1 = 0%Z /\
  forall i, 1 <= i < 1 -> body_plugin Tet.m0 !!! i <> 0%Z.
Proof.
  assert (H : snd (count_bodies Tet.m0 0) = Some 1) by reflexivity.
  split; [exact H|].
  exact (proj1 (proj2 (count_bodies_spec Tet.m0 0)) 1 H).
Defined.

Lemma ComputeVolume_orientation_witness :
  Nat.min 1 1 = Nat.min 1 2 /\
  ComputeVolume Tet.xpos0 (Nat.min 1) = nzero.
Proof.
  assert (H : Nat.min 1 1 = Nat.min 1 2) by reflexivity.
  split; [exact H|].
  exact (proj2 (ComputeVolume_orientation Tet.xpos0 (Nat.min 1)) H).
Defined.


Lemma Create_errors_witness :
  mesh_missing Tet.m0 7 /\
  Solid_new Tet.m0 Tet.d0 7 (z2q 0) (z2q 1000) (z2q 0) = Undef.
Proof.
  assert (H : mesh_missing Tet.m0 7) by (left; reflexivity).
  split; [exact H|].
  exact (proj2 (proj1 (proj2 (Create_errors Tet.CheckAttr_int Tet.strtod_int
                                Tet.m0 Tet.d0 7 (z2q 0) (z2q 1000) (z2q 0))))
               H).
Defined.
